(** * ai-mcp-client: the MCP connection manager, the configuration store
      and the extended-message codec

    A shallow embedding of
      - [lib/mcp/types.ts]           (the data model),
      - [lib/mcp/client-manager.ts]  (class [MCPClientManager]),
      - [lib/mcp/storage.ts]         (object [mcpStorage]),
      - [lib/supabase.ts]            ([encodeExtendedMessage], [decodeExtendedMessage],
                                      [getMessagesExtended]),
      - [app/api/mcp/*/route.ts]     (the route handlers over the manager),
      - [app/api/chat/route.ts]      ([getConnectedMCPTools], [convertToGeminiFunctions],
                                      [mapJsonSchemaTypeToGemini], the frames of the
                                      stream),
      - [app/page.tsx]               ([parseStreamContent]).

    The manager's [Map<string, ManagedClient>] is a [gmap string ManagedClient];
    an [async] method is a computation in a state-and-exception monad over a
    [World] that holds the map and the trace of everything the method asked of
    the MCP SDK; the SDK, the clock and [console] are an [Environment] whose
    answers may depend on the whole trace so far.  [localStorage] is a
    [gmap string Item] inside a [Browser].  [JSON.stringify] and [JSON.parse]
    are written out; a Number is the decimal that [Number::toString] prints
    for it, and a numeric literal is rounded to the nearest double. *)

From Stdlib Require Import ZArith Ascii String DecimalString DecimalFacts DecimalPos.
From Stdlib Require DecimalZ DecimalN.
From stdpp Require Import base option list gmap strings.

#[local] Set Warnings "-register-all".
Local Open Scope string_scope.

(** ** Numbers *)

(** A Number value.  A finite one other than zero is given by the decimal
    that Number::toString prints for it: the digits [d1 ... dk], with no
    zero at either end, and the place [n] of the decimal point after them,
    for the value [0.d1...dk * 10^n].  The two zeros are one value, as they
    are for [===]. *)
Inductive Number : Type :=
| NaN
| Infinity (negative : bool)
| Zero
| Finite (negative : bool) (digits : string) (point : Z).

Definition is_digit (c : ascii) : bool :=
  (48 <=? N_of_ascii c)%N && (N_of_ascii c <=? 57)%N.

Fixpoint digits_only (s : string) : bool :=
  match s with
  | "" => true
  | String c rest => is_digit c && digits_only rest
  end.

(** The number a text of digits stands for. *)
Definition digits_value (ds : string) : Z :=
  match NilEmpty.uint_of_string ds with
  | Some d => Z.of_uint d
  | None => 0
  end.

(** The decimal digits of a natural number. *)
Definition digits_text (n : Z) : string :=
  NilEmpty.string_of_uint (N.to_uint (Z.to_N n)).

Fixpoint zeros (n : nat) : string :=
  match n with
  | O => ""
  | S n' => String "0" (zeros n')
  end.

(** The text without its leading zeros, and how many there were. *)
Fixpoint strip_zeros (s : string) : string * nat :=
  match s with
  | String "0" rest => let '(t, n) := strip_zeros rest in (t, S n)
  | _ => (s, O)
  end.

(** The text without its trailing zeros. *)
Fixpoint strip_end (s : string) : string :=
  match s with
  | "" => ""
  | String c rest =>
      match strip_end rest with
      | "" => if Ascii.eqb c "0" then "" else String c ""
      | rest' => String c rest'
      end
  end.

(** The value [0.digits * 10^point] with its digits in normal form. *)
Definition normalise (negative : bool) (digits : string) (point : Z) : Number :=
  let '(ds, n) := strip_zeros digits in
  match strip_end ds with
  | "" => Zero
  | ds' => Finite negative ds' (point - Z.of_nat n)
  end.

(** Digits with no zero at either end. *)
Definition normal (digits : string) : bool :=
  digits_only digits &&
  match digits with
  | "" | String "0" _ => false
  | _ => String.eqb (strip_end digits) digits
  end.

(** *** The binary64 format *)

Module Double.

(** The magnitude [mantissa * 2^exponent] of a finite double other than
    zero: [2^52 <= mantissa < 2^53] and [-1074 <= exponent <= 971], or
    [mantissa < 2^52] and [exponent = -1074]. *)
Inductive Magnitude : Type :=
| Underflow
| Overflow
| Binary (mantissa exponent : Z).

Definition Magnitude_eqb (a b : Magnitude) : bool :=
  match a, b with
  | Underflow, Underflow | Overflow, Overflow => true
  | Binary m e, Binary m' e' => (m =? m')%Z && (e =? e')%Z
  | _, _ => false
  end.

Local Open Scope Z_scope.

(** [num / den] rounded to the nearest integer, a tie to the even one. *)
Definition round_half_even (num den : Z) : Z :=
  let '(q, r) := Z.div_eucl num den in
  if 2 * r <? den then q
  else if den <? 2 * r then q + 1
  else if Z.even q then q else q + 1.

(** [p / q * 2^e] and [p / q * 10^e], for an [e] of either sign. *)
Definition scale2 (p q e : Z) : Z * Z :=
  if 0 <=? e then (p * 2 ^ e, q) else (p, q * 2 ^ (- e)).

Definition scale10 (p q e : Z) : Z * Z :=
  if 0 <=? e then (p * 10 ^ e, q) else (p, q * 10 ^ (- e)).

(** The double nearest to [p / q], for [0 < p] and [0 < q]: roundTiesToEven
    of IEEE 754. *)
Definition of_ratio (p q : Z) : Magnitude :=
  let l0 := Z.log2 p - Z.log2 q in
  let '(pl, ql) := scale2 p q (- l0) in
  let l := if ql <=? pl then l0 else l0 - 1 in
  let e := Z.max (l - 52) (-1074) in
  let '(pe, qe) := scale2 p q (- e) in
  let m := round_half_even pe qe in
  let '(m, e) := if m =? 2 ^ 53 then (2 ^ 52, e + 1) else (m, e) in
  if m =? 0 then Underflow
  else if 971 <? e then Overflow
  else Binary m e.

(** The double nearest to [0.digits * 10^point], for normal digits. *)
Definition of_decimal (digits : string) (point : Z) : Magnitude :=
  if 400 <? point then Overflow
  else if point <? -400 then Underflow
  else
    let '(p, q) := scale10 (digits_value digits) 1 (point - Z.of_nat (String.length digits)) in
    of_ratio p q.

(** The least [n] from [start] on with [p / q < 10^n]. *)
Fixpoint integer_digits (fuel : nat) (p q start : Z) : Z :=
  match fuel with
  | O => start
  | S fuel' =>
      let '(p', q') := scale10 p q (- start) in
      if p' <? q' then start else integer_digits fuel' p q (start + 1)
  end.

(** The integers next to [p / q], the nearer one first (the even one, when
    both are as near). *)
Definition neighbours (p q : Z) : list Z :=
  let '(lo, r) := Z.div_eucl p q in
  if r =? 0 then [lo]
  else if 2 * r <? q then [lo; lo + 1]
  else if q <? 2 * r then [lo + 1; lo]
  else if Z.even lo then [lo; lo + 1] else [lo + 1; lo].

(** The double nearest to [s * 10^e]. *)
Definition of_scaled (s e : Z) : Magnitude :=
  let ds := digits_text s in
  of_decimal ds (e + Z.of_nat (String.length ds)).

(** The first [s] among the neighbours of [x / 10^e] with [s * 10^e]
    rounding to [x]. *)
Definition rounding_back (x : Magnitude) (p q e : Z) : option Z :=
  let '(p', q') := scale10 p q (- e) in
  List.find (fun s => Magnitude_eqb (of_scaled s e) x) (neighbours p' q').

(** Step 5 of Number::toString: the fewest digits [k] (from [k] on, at most
    [fuel] of them) for which some [s] of [k] digits has [s * 10^(n-k)]
    rounding to [x]; of these, the [s] nearest to [x]. *)
Fixpoint fewest_digits (fuel : nat) (x : Magnitude) (p q n k : Z) : Z * Z :=
  match fuel with
  | O => (p / q, 0)
  | S fuel' =>
      match rounding_back x p q (n - k) with
      | Some s => (s, n - k)
      | None => fewest_digits fuel' x p q n (k + 1)
      end
  end.

(** The pair [(s, e)] with [s * 10^e] the shortest decimal that rounds to
    [m * 2^e2]; seventeen digits are enough for a double.  The search for the
    place of the point starts from the binary logarithm, [1233 / 4096] being
    the decimal logarithm of two. *)
Definition shortest (m e2 : Z) : Z * Z :=
  let '(p, q) := scale2 m 1 e2 in
  let n := integer_digits 4 p q ((Z.log2 m + e2) * 1233 / 4096 - 1) in
  fewest_digits 17 (Binary m e2) p q n 1.

End Double.

(** The Number nearest to a decimal: the rounding every numeric literal goes
    through. *)
Definition round_number (x : Number) : Number :=
  match x with
  | Finite negative digits point =>
      match Double.of_decimal digits point with
      | Double.Underflow => Zero
      | Double.Overflow => Infinity negative
      | Double.Binary m e =>
          let '(s, e10) := Double.shortest m e in
          let ds := digits_text s in
          normalise negative ds (e10 + Z.of_nat (String.length ds))
      end
  | _ => x
  end.

(** The Number value of a numeric literal with the given sign and digits,
    the point after [point] of them. *)
Definition Number_of_literal (negative : bool) (digits : string) (point : Z) : Number :=
  round_number (normalise negative digits point).

Definition Number_eqb (x y : Number) : bool :=
  match x, y with
  | NaN, NaN => true
  | Infinity a, Infinity b => Bool.eqb a b
  | Zero, Zero => true
  | Finite a ds n, Finite b ds' n' => Bool.eqb a b && String.eqb ds ds' && (n =? n')%Z
  | _, _ => false
  end.

(** The finite Numbers: zero, and the normal decimals that are the shortest
    one of the double nearest to them. *)
Definition is_finite_number (x : Number) : bool :=
  match x with
  | Zero => true
  | Finite _ digits _ => normal digits && Number_eqb (round_number x) x
  | _ => false
  end.

(** The Number of an integer. *)
Definition Number_of_Z (n : Z) : Number :=
  let ds := digits_text (Z.abs n) in
  Number_of_literal (n <? 0)%Z ds (Z.of_nat (String.length ds)).

(** [s.substring(0, n)] and [s.substring(n)] *)
Fixpoint take_units (n : nat) (s : string) : string :=
  match n, s with
  | S n', String c rest => String c (take_units n' rest)
  | _, _ => ""
  end.

Fixpoint drop_units (n : nat) (s : string) : string :=
  match n, s with
  | S n', String _ rest => drop_units n' rest
  | _, _ => s
  end.

(** [e+N] or [e-N] *)
Definition exponent_text (e : Z) : string :=
  String "e" (String (if (e <? 0)%Z then "-" else "+")%char (digits_text (Z.abs e))).

(** Steps 6 to 10 of Number::toString for radix 10: the text of
    [0.digits * 10^n]. *)
Definition decimal_text (digits : string) (n : Z) : string :=
  let k := Z.of_nat (String.length digits) in
  if (k <=? n)%Z && (n <=? 21)%Z then digits ++ zeros (Z.to_nat (n - k))
  else if (0 <? n)%Z && (n <=? 21)%Z then
    take_units (Z.to_nat n) digits ++ String "." (drop_units (Z.to_nat n) digits)
  else if (-6 <? n)%Z && (n <=? 0)%Z then
    String "0" (String "." (zeros (Z.to_nat (- n)) ++ digits))
  else
    match digits with
    | String d "" => String d (exponent_text (n - 1))
    | String d more => String d (String "." (more ++ exponent_text (n - 1)))
    | "" => ""
    end.

(** Number::toString for radix 10. *)
Definition Number_toString (x : Number) : string :=
  match x with
  | NaN => "NaN"
  | Infinity negative => if negative then "-Infinity" else "Infinity"
  | Zero => "0"
  | Finite negative digits n =>
      if negative then String "-" (decimal_text digits n) else decimal_text digits n
  end.

(** [x === y] on Numbers: [NaN] equals nothing. *)
Definition Number_strict_equals (x y : Number) : bool :=
  match x with
  | NaN => false
  | _ => Number_eqb x y
  end.

(** ** JavaScript values *)

(** The values JSON.stringify distinguishes.  A string is its sequence of
    code units, each of one byte; an object is the list of its own properties
    in the order they are enumerated. *)
Inductive JsValue : Type :=
| JsUndefined
| JsNull
| JsBool (b : bool)
| JsNumber (n : Number)
| JsString (s : string)
| JsArray (items : list JsValue)
| JsObject (props : list (string * JsValue)).

(** What a [throw] or a rejected promise carries: an instance of [Error]
    (with its [message]) or any other value. *)
Inductive Thrown : Type :=
| ErrorInstance (message : string)
| NotAnError (v : JsValue).

(** The element type of [Promise.allSettled]'s result. *)
Inductive PromiseSettledResult (A : Type) : Type :=
| fulfilled (value : A)
| rejected (reason : Thrown).
Arguments fulfilled {A} value.
Arguments rejected {A} reason.

(** ** Two methods of strings *)

(** [s.startsWith(p)] *)
Fixpoint startsWith (s p : string) {struct p} : bool :=
  match p with
  | "" => true
  | String c p' =>
      match s with
      | String c' s' => Ascii.eqb c' c && startsWith s' p'
      | "" => false
      end
  end.

(** [s.slice(n)] for [0 <= n] *)
Fixpoint slice (n : nat) (s : string) : string :=
  match n, s with
  | O, _ => s
  | S n', String _ rest => slice n' rest
  | S _, "" => ""
  end.

(** ** JSON.stringify and JSON.parse *)

Module JSON.

Definition dq : ascii := "034"%char.
Definition backslash : ascii := "\"%char.

Definition hex_digit (n : N) : ascii :=
  ascii_of_N (if (n <? 10)%N then 48 + n else 87 + n).

(** QuoteJSONString, one code unit at a time. *)
Definition escape_char (c : ascii) : string :=
  match c with
  | "034"%char => String backslash (String dq "")
  | "\"%char => String backslash (String backslash "")
  | "008"%char => String backslash "b"
  | "012"%char => String backslash "f"
  | "010"%char => String backslash "n"
  | "013"%char => String backslash "r"
  | "009"%char => String backslash "t"
  | _ =>
      if (N_of_ascii c <? 32)%N
      then String backslash
             (String "u" (String "0" (String "0"
                (String (hex_digit (N_of_ascii c / 16)) (String (hex_digit (N_of_ascii c mod 16)) "")))))
      else String c ""
  end.

Fixpoint escape (s : string) : string :=
  match s with
  | "" => ""
  | String c rest => escape_char c ++ escape rest
  end.

Definition quote (s : string) : string :=
  String dq (escape s ++ String dq "").

(** Number::toString for an integer below [10^21], as template literals and
    array indices have them. *)
Definition number_to_string (n : Z) : string :=
  NilEmpty.string_of_int (Z.to_int n).

Definition join_comma (parts : list string) : string := String.concat "," parts.

(** An array element that serializes to [undefined] is written [null]. *)
Definition or_null (t : option string) : string :=
  match t with
  | Some t => t
  | None => "null"
  end.

(** A property whose value serializes to [undefined] is left out. *)
Definition member (key : string) (t : option string) : option string :=
  match t with
  | Some t => Some (quote key ++ ":" ++ t)
  | None => None
  end.

(** SerializeJSONProperty without replacer or indentation; [None] is
    [undefined].  A Number that is not finite is written [null]. *)
Fixpoint stringify (v : JsValue) : option string :=
  match v with
  | JsUndefined => None
  | JsNull => Some "null"
  | JsBool true => Some "true"
  | JsBool false => Some "false"
  | JsNumber n => Some (if is_finite_number n then Number_toString n else "null")
  | JsString s => Some (quote s)
  | JsArray items =>
      Some ("[" ++ join_comma (List.map (fun item => or_null (stringify item)) items) ++ "]")
  | JsObject props =>
      Some ("{" ++ join_comma (omap (fun kv => member (fst kv) (stringify (snd kv))) props)
                ++ "}")
  end.

(** *** JSON.parse *)

(** The result of reading a prefix of the text: a value and the rest, a
    [SyntaxError], or text this model does not read (a [\u] escape above
    [00ff]; also fuel used up, which [parse] excludes). *)
Inductive Res (A : Type) : Type :=
| Ok (a : A) (rest : string)
| Bad
| Unsup.
Arguments Ok {A} a rest.
Arguments Bad {A}.
Arguments Unsup {A}.

Definition is_ws (c : ascii) : bool :=
  match c with
  | " "%char | "009"%char | "010"%char | "013"%char => true
  | _ => false
  end.

Fixpoint skip_ws (s : string) : string :=
  match s with
  | String c rest => if is_ws c then skip_ws rest else s
  | "" => ""
  end.

Definition hex_value (c : ascii) : option N :=
  let n := N_of_ascii c in
  if (48 <=? n)%N && (n <=? 57)%N then Some (n - 48)%N
  else if (97 <=? n)%N && (n <=? 102)%N then Some (n - 87)%N
  else if (65 <=? n)%N && (n <=? 70)%N then Some (n - 55)%N
  else None.

Definition hex4 (h1 h2 h3 h4 : ascii) : option N :=
  match hex_value h1, hex_value h2, hex_value h3, hex_value h4 with
  | Some a, Some b, Some c, Some d => Some (((a * 16 + b) * 16 + c) * 16 + d)%N
  | _, _, _, _ => None
  end.

Definition unescape (e : ascii) : option ascii :=
  match e with
  | "034"%char => Some dq
  | "\"%char => Some backslash
  | "/"%char => Some "/"%char
  | "b"%char => Some "008"%char
  | "f"%char => Some "012"%char
  | "n"%char => Some "010"%char
  | "r"%char => Some "013"%char
  | "t"%char => Some "009"%char
  | _ => None
  end.

Definition res_cons (c : ascii) (r : Res string) : Res string :=
  match r with
  | Ok s rest => Ok (String c s) rest
  | Bad => Bad
  | Unsup => Unsup
  end.

(** The characters of a string literal after its opening quote. *)
Fixpoint read_string (s : string) : Res string :=
  match s with
  | "" => Bad
  | String c rest =>
      if Ascii.eqb c dq then Ok "" rest
      else if Ascii.eqb c backslash then
        match rest with
        | String "u" (String h1 (String h2 (String h3 (String h4 rest')))) =>
            match hex4 h1 h2 h3 h4 with
            | Some n => if (n <? 256)%N then res_cons (ascii_of_N n) (read_string rest') else Unsup
            | None => Bad
            end
        | String e rest' =>
            match unescape e with
            | Some c' => res_cons c' (read_string rest')
            | None => Bad
            end
        | "" => Bad
        end
      else if (N_of_ascii c <? 32)%N then Bad
      else res_cons c (read_string rest)
  end.

(** The longest run of digits at the head of the text. *)
Fixpoint read_digits (s : string) : string * string :=
  match s with
  | String c rest =>
      if is_digit c then let '(ds, rest') := read_digits rest in (String c ds, rest')
      else ("", s)
  | "" => ("", "")
  end.

(** The integer part: [0], or a digit from 1 to 9 followed by digits. *)
Definition read_int (s : string) : Res string :=
  match s with
  | String "0"%char rest => Ok "0" rest
  | String c _ =>
      if is_digit c then let '(ds, rest) := read_digits s in Ok ds rest else Bad
  | "" => Bad
  end.

(** The digits of the fraction, if one follows: a point and at least one
    digit. *)
Definition read_fraction (s : string) : Res string :=
  match s with
  | String "."%char rest =>
      match read_digits rest with
      | ("", _) => Bad
      | (ds, rest') => Ok ds rest'
      end
  | _ => Ok "" s
  end.

(** An optional sign. *)
Definition read_sign (s : string) : bool * string :=
  match s with
  | String "-"%char rest => (true, rest)
  | String "+"%char rest => (false, rest)
  | _ => (false, s)
  end.

(** The exponent, if one follows: [e] or [E], a sign or none, at least one
    digit. *)
Definition read_exponent (s : string) : Res Z :=
  match s with
  | String c rest =>
      if Ascii.eqb c "e" || Ascii.eqb c "E" then
        let '(negative, rest1) := read_sign rest in
        match read_digits rest1 with
        | ("", _) => Bad
        | (ds, rest2) => Ok (if negative then - digits_value ds else digits_value ds)%Z rest2
        end
      else Ok 0%Z s
  | "" => Ok 0%Z ""
  end.

(** The digits, the fraction and the exponent of an unsigned numeral, as the
    Number they stand for. *)
Definition read_unsigned (negative : bool) (s : string) : Res JsValue :=
  match read_int s with
  | Ok int rest1 =>
      match read_fraction rest1 with
      | Ok frac rest2 =>
          match read_exponent rest2 with
          | Ok e rest3 =>
              Ok (JsNumber (Number_of_literal negative (int ++ frac)
                              (Z.of_nat (String.length int) + e))) rest3
          | Bad => Bad
          | Unsup => Unsup
          end
      | Bad => Bad
      | Unsup => Unsup
      end
  | Bad => Bad
  | Unsup => Unsup
  end.

Definition read_number (s : string) : Res JsValue :=
  match s with
  | String "-"%char s' => read_unsigned true s'
  | _ => read_unsigned false s
  end.

(** The array index a property key is, if it is one: the numeral, without
    leading zeros, of an integer below [2^32 - 1]. *)
Definition array_index (key : string) : option Z :=
  if digits_only key && negb (String.eqb key "")
     && String.eqb (digits_text (digits_value key)) key
     && (digits_value key <? 4294967295)%Z
  then Some (digits_value key)
  else None.

(** Whether a key is enumerated before a key created earlier: the array
    indices come first, in ascending order; the other keys follow in the order
    of their creation. *)
Definition enumerated_before (key earlier : string) : bool :=
  match array_index key, array_index earlier with
  | Some i, Some j => (i <? j)%Z
  | Some _, None => true
  | None, _ => false
  end.

(** The keys of an object as OrdinaryOwnPropertyKeys lists them: no key
    twice, and none that is enumerated before one listed before it. *)
Fixpoint keys_ordered (keys : list string) : bool :=
  match keys with
  | [] => true
  | k :: rest =>
      forallb (fun k' => negb (String.eqb k' k) && negb (enumerated_before k' k)) rest
      && keys_ordered rest
  end.

(** CreateDataProperty on an ordinary object whose properties are listed in
    the order of their enumeration: an old key keeps its place, a new one
    takes the place in which it is enumerated. *)
Fixpoint define_property {A} (key : string) (value : A) (props : list (string * A))
  : list (string * A) :=
  match props with
  | [] => [(key, value)]
  | (k, v) :: rest =>
      if String.eqb k key then (k, value) :: rest
      else if enumerated_before key k then (key, value) :: props
      else (k, v) :: define_property key value rest
  end.

(** The text after optional white space and the character [c], when [c] is
    what comes next. *)
Definition expect (c : ascii) (s : string) : option string :=
  match skip_ws s with
  | String c' rest => if Ascii.eqb c' c then Some rest else None
  | "" => None
  end.

(** [null], [true] or [false] at the head of the text. *)
Definition read_literal (s : string) : option (JsValue * string) :=
  if startsWith s "null" then Some (JsNull, slice 4 s)
  else if startsWith s "true" then Some (JsBool true, slice 4 s)
  else if startsWith s "false" then Some (JsBool false, slice 5 s)
  else None.

Fixpoint read_value (fuel : nat) (s : string) : Res JsValue :=
  match fuel with
  | O => Unsup
  | S fuel' =>
      match skip_ws s with
      | "" => Bad
      | String c rest =>
          if Ascii.eqb c dq then
            match read_string rest with
            | Ok str rest' => Ok (JsString str) rest'
            | Bad => Bad
            | Unsup => Unsup
            end
          else if Ascii.eqb c "[" then
            match expect "]" rest with
            | Some rest' => Ok (JsArray []) rest'
            | None =>
                match read_elements fuel' rest with
                | Ok items rest' => Ok (JsArray items) rest'
                | Bad => Bad
                | Unsup => Unsup
                end
            end
          else if Ascii.eqb c "{" then
            match expect "}" rest with
            | Some rest' => Ok (JsObject []) rest'
            | None =>
                match read_members fuel' rest [] with
                | Ok props rest' => Ok (JsObject props) rest'
                | Bad => Bad
                | Unsup => Unsup
                end
            end
          else
            match read_literal (String c rest) with
            | Some (v, rest') => Ok v rest'
            | None => read_number (String c rest)
            end
      end
  end
with read_elements (fuel : nat) (s : string) : Res (list JsValue) :=
  match fuel with
  | O => Unsup
  | S fuel' =>
      match read_value fuel' s with
      | Ok item rest =>
          match expect "," rest with
          | Some rest' =>
              match read_elements fuel' rest' with
              | Ok items rest'' => Ok (item :: items) rest''
              | Bad => Bad
              | Unsup => Unsup
              end
          | None =>
              match expect "]" rest with
              | Some rest' => Ok [item] rest'
              | None => Bad
              end
          end
      | Bad => Bad
      | Unsup => Unsup
      end
  end
with read_members (fuel : nat) (s : string) (props : list (string * JsValue))
  : Res (list (string * JsValue)) :=
  match fuel with
  | O => Unsup
  | S fuel' =>
      match expect dq s with
      | Some rest =>
          match read_string rest with
          | Ok key rest1 =>
              match expect ":" rest1 with
              | Some rest2 =>
                  match read_value fuel' rest2 with
                  | Ok item rest3 =>
                      let props' := define_property key item props in
                      match expect "," rest3 with
                      | Some rest4 => read_members fuel' rest4 props'
                      | None =>
                          match expect "}" rest3 with
                          | Some rest4 => Ok props' rest4
                          | None => Bad
                          end
                      end
                  | Bad => Bad
                  | Unsup => Unsup
                  end
              | None => Bad
              end
          | Bad => Bad
          | Unsup => Unsup
          end
      | None => Bad
      end
  end.

Inductive ParseResult : Type :=
| Parsed (v : JsValue)
| SyntaxError
| Unsupported.

Definition parse_with (fuel : nat) (text : string) : ParseResult :=
  match read_value fuel text with
  | Ok v rest =>
      match skip_ws rest with
      | "" => Parsed v
      | _ => SyntaxError
      end
  | Bad => SyntaxError
  | Unsup => Unsupported
  end.

(** [JSON.parse(text)] without reviver.  Two units of fuel for each character
    are enough: more fuel gives the same answer. *)
Definition parse (text : string) : ParseResult :=
  parse_with (2 * String.length text + 2) text.


(** *** Vocabulary of the round trip *)




Definition nonzero_head (d : Decimal.uint) : bool :=
  match d with
  | Decimal.Nil | Decimal.D0 _ => false
  | _ => true
  end.












End JSON.

(** ** lib/mcp/types.ts *)

(** A configuration reaches the manager as the JSON body of a request, so a
    field its type declares may be absent at run time: [command] and [url]
    are [None] then, as the optional fields are. *)
Record StdioConfig := {
  command : option string;
  args : option (list string);
  env : option (list (string * string));
  cwd : option string
}.

Record HttpConfig := {
  url : option string;
  headers : option (list (string * string))
}.

(** [transportType] is kept as the string it is at run time: the [switch] in
    [createTransport] has a [default] branch for values outside the declared
    union.  Fields [id] and [name] carry the prefix [cfg_]. *)
Record MCPServerConfig := {
  cfg_id : string;
  cfg_name : string;
  transportType : string;
  stdioConfig : option StdioConfig;
  httpConfig : option HttpConfig;
  enabled : bool;
  createdAt : Z;
  updatedAt : Z
}.

(** ["disconnected" | "connecting" | "connected" | "error"].  The specification
    calls ["disconnected"] not-connected and ["error"] failed. *)
Inductive ConnectionStatus : Type :=
| disconnected
| connecting
| connected
| error.

Global Instance ConnectionStatus_eq_dec : EqDecision ConnectionStatus.
Proof. solve_decision. Defined.

(** Field [error] of the source is [error_message] here. *)
Record MCPServerStatus := {
  serverId : string;
  status : ConnectionStatus;
  error_message : option string;
  lastConnected : option Z
}.

Record MCPTool := {
  tool_name : string;
  tool_description : option string;
  inputSchema : JsValue
}.

Record PromptArgument := {
  arg_name : string;
  arg_description : option string;
  arg_required : option bool
}.

Record MCPPrompt := {
  prompt_name : string;
  prompt_description : option string;
  prompt_arguments : option (list PromptArgument)
}.

Record MCPResource := {
  resource_uri : string;
  resource_name : string;
  resource_description : option string;
  mimeType : option string
}.

Record MCPServerCapabilities := {
  tools : list MCPTool;
  prompts : list MCPPrompt;
  resources : list MCPResource
}.

(** ** The MCP SDK as the manager sees it *)

(** A [Client] object; [client_uid] is its identity as an object. *)
Record Client := {
  client_name : string;
  client_version : string;
  client_uid : nat
}.

Record URL := { href : string }.

Inductive Transport : Type :=
| StdioClientTransport (params : StdioConfig)
| StreamableHTTPClientTransport (u : URL) (requestInit_headers : option (list (string * string)))
| SSEClientTransport (u : URL).

(** Items of the SDK's list results.  The manager reads the named fields;
    [*_rest] stands for whatever else the SDK object carries. *)
Record SdkTool := {
  sdk_tool_name : string;
  sdk_tool_description : option string;
  sdk_tool_inputSchema : JsValue;
  sdk_tool_rest : list (string * JsValue)
}.

Record SdkPrompt := {
  sdk_prompt_name : string;
  sdk_prompt_description : option string;
  sdk_prompt_arguments : option (list PromptArgument);
  sdk_prompt_rest : list (string * JsValue)
}.

Record SdkResource := {
  sdk_resource_uri : string;
  sdk_resource_name : string;
  sdk_resource_description : option string;
  sdk_resource_mimeType : option string;
  sdk_resource_rest : list (string * JsValue)
}.

Record CallToolParams := {
  call_name : string;
  call_arguments : JsValue
}.

Record GetPromptParams := {
  get_name : string;
  get_arguments : option (list (string * string))
}.

Record ReadResourceParams := { read_uri : string }.

(** Everything a manager method does outside its own map, newest first. *)
Inductive Event : Type :=
| EvNewClient (c : Client)
| EvNewTransport (t : Transport)
| EvConnect (c : Client) (t : Transport)
| EvListTools (c : Client)
| EvListPrompts (c : Client)
| EvListResources (c : Client)
| EvClose (c : Client)
| EvCallTool (c : Client) (p : CallToolParams)
| EvGetPrompt (c : Client) (p : GetPromptParams)
| EvReadResource (c : Client) (p : ReadResourceParams)
| EvConsoleError (text : string) (e : Thrown).

(** The answers of the outside world.  Each one may depend on the trace of
    events up to the call. *)
Record Environment := {
  new_URL : string -> PromiseSettledResult URL;
  client_connect : list Event -> Client -> Transport -> PromiseSettledResult unit;
  client_listTools : list Event -> Client -> PromiseSettledResult (list SdkTool);
  client_listPrompts : list Event -> Client -> PromiseSettledResult (list SdkPrompt);
  client_listResources : list Event -> Client -> PromiseSettledResult (list SdkResource);
  client_close : list Event -> Client -> PromiseSettledResult unit;
  client_callTool : list Event -> Client -> CallToolParams -> PromiseSettledResult JsValue;
  client_getPrompt : list Event -> Client -> GetPromptParams -> PromiseSettledResult JsValue;
  client_readResource : list Event -> Client -> ReadResourceParams -> PromiseSettledResult JsValue;
  Date_now : list Event -> Z
}.

(** ** lib/mcp/client-manager.ts *)

(** [client] is [null as unknown as Client] in a failed record: [None]. *)
Record ManagedClient := {
  mc_client : option Client;
  mc_config : MCPServerConfig;
  mc_status : MCPServerStatus;
  mc_capabilities : option MCPServerCapabilities
}.

Record World := {
  clients : gmap string ManagedClient;
  trace : list Event;
  allocated : nat
}.

Definition initial_world : World :=
  {| clients := ∅; trace := []; allocated := 0 |}.

(** *** Completions and the method monad *)

Inductive Completion (A : Type) : Type :=
| Normal (a : A)
| Throw (e : Thrown).
Arguments Normal {A} a.
Arguments Throw {A} e.

Definition M (A : Type) : Type := World -> Completion A * World.

Definition ret {A} (a : A) : M A := fun w => (Normal a, w).

Definition throw {A} (e : Thrown) : M A := fun w => (Throw e, w).

Definition bind {A B} (m : M A) (k : A -> M B) : M B :=
  fun w =>
    match m w with
    | (Normal a, w') => k a w'
    | (Throw e, w') => (Throw e, w')
    end.

(** [try { body } catch (e) { handler }]: what the body did before it threw
    stays done. *)
Definition try_catch {A} (body : M A) (handler : Thrown -> M A) : M A :=
  fun w =>
    match body w with
    | (Normal a, w') => (Normal a, w')
    | (Throw e, w') => handler e w'
    end.

Notation "'do' x <- m ;; k" := (bind m (fun x => k))
  (at level 10, x name, m at level 99, k at level 200).
Notation "'perform' m ;; k" := (bind m (fun _ => k))
  (at level 10, m at level 99, k at level 200).

Definition log_event (ev : Event) (w : World) : World :=
  {| clients := clients w; trace := ev :: trace w; allocated := allocated w |}.

Definition emit (ev : Event) : M unit :=
  fun w => (Normal tt, log_event ev w).

(** What [await p] completes with: the value, or the reason thrown. *)
Definition completion_of {A} (p : PromiseSettledResult A) : Completion A :=
  match p with
  | fulfilled v => Normal v
  | rejected e => Throw e
  end.

(** [await p], for a promise whose settlement the environment decides. *)
Definition await {A} (p : PromiseSettledResult A) : M A :=
  fun w => (completion_of p, w).

Definition clients_get (key : string) : M (option ManagedClient) :=
  fun w => (Normal (clients w !! key), w).

Definition set_client (key : string) (value : ManagedClient) (w : World) : World :=
  {| clients := <[key := value]> (clients w); trace := trace w; allocated := allocated w |}.

Definition clients_set (key : string) (value : ManagedClient) : M unit :=
  fun w => (Normal tt, set_client key value w).

Definition new_Error (message : string) : Thrown := ErrorInstance message.

(** [error instanceof Error ? error.message : "Unknown error"] *)
Definition message_of (e : Thrown) : string :=
  match e with
  | ErrorInstance m => m
  | NotAnError _ => "Unknown error"
  end.

Section Manager.

Variable E : Environment.

Definition new_Client (name version : string) : M Client :=
  fun w =>
    let c := {| client_name := name; client_version := version; client_uid := allocated w |} in
    (Normal c, {| clients := clients w; trace := EvNewClient c :: trace w; allocated := S (allocated w) |}).

Definition new_Transport (t : Transport) : M Transport :=
  perform emit (EvNewTransport t) ;; ret t.

(** [new URL(s)].  An absent [s] is read as the text [undefined], which is
    no absolute URL: the constructor throws its [TypeError]. *)
Definition URL_of (s : option string) : M URL :=
  match s with
  | Some s => await (new_URL E s)
  | None => throw (new_Error "Invalid URL")
  end.

Definition now : M Z :=
  fun w => (Normal (Date_now E (trace w)), w).

Definition Client_connect (c : Client) (t : Transport) : M unit :=
  fun w => (perform emit (EvConnect c t) ;; await (client_connect E (trace w) c t)) w.

Definition Client_close (c : Client) : M unit :=
  fun w => (perform emit (EvClose c) ;; await (client_close E (trace w) c)) w.

Definition Client_callTool (c : Client) (p : CallToolParams) : M JsValue :=
  fun w => (perform emit (EvCallTool c p) ;; await (client_callTool E (trace w) c p)) w.

Definition Client_getPrompt (c : Client) (p : GetPromptParams) : M JsValue :=
  fun w => (perform emit (EvGetPrompt c p) ;; await (client_getPrompt E (trace w) c p)) w.

Definition Client_readResource (c : Client) (p : ReadResourceParams) : M JsValue :=
  fun w => (perform emit (EvReadResource c p) ;; await (client_readResource E (trace w) c p)) w.

(** The call is made and its promise is kept unawaited, for [allSettled]. *)
Definition Client_listTools (c : Client) : M (PromiseSettledResult (list SdkTool)) :=
  fun w => (perform emit (EvListTools c) ;; ret (client_listTools E (trace w) c)) w.

Definition Client_listPrompts (c : Client) : M (PromiseSettledResult (list SdkPrompt)) :=
  fun w => (perform emit (EvListPrompts c) ;; ret (client_listPrompts E (trace w) c)) w.

Definition Client_listResources (c : Client) : M (PromiseSettledResult (list SdkResource)) :=
  fun w => (perform emit (EvListResources c) ;; ret (client_listResources E (trace w) c)) w.

Definition console_error (text : string) (e : Thrown) : M unit :=
  emit (EvConsoleError text e).

(** *** createTransport *)

Definition createTransport (config : MCPServerConfig) : M Transport :=
  if String.eqb (transportType config) "stdio" then
    match stdioConfig config with
    | None => throw (new_Error "STDIO config is required for STDIO transport")
    | Some sc =>
        new_Transport (StdioClientTransport
          {| command := command sc; args := args sc; env := env sc; cwd := cwd sc |})
    end
  else if String.eqb (transportType config) "streamable-http" then
    match httpConfig config with
    | None => throw (new_Error "HTTP config is required for Streamable HTTP transport")
    | Some hc =>
        do u <- URL_of (url hc) ;;
        new_Transport (StreamableHTTPClientTransport u (headers hc))
    end
  else if String.eqb (transportType config) "sse" then
    match httpConfig config with
    | None => throw (new_Error "HTTP config is required for SSE transport")
    | Some hc =>
        do u <- URL_of (url hc) ;;
        new_Transport (SSEClientTransport u)
    end
  else
    throw (new_Error ("Unsupported transport type: " ++ transportType config)).

(** *** fetchCapabilities *)

Definition toMCPTool (t : SdkTool) : MCPTool :=
  {| tool_name := sdk_tool_name t;
     tool_description := sdk_tool_description t;
     inputSchema := sdk_tool_inputSchema t |}.

Definition toMCPPrompt (p : SdkPrompt) : MCPPrompt :=
  {| prompt_name := sdk_prompt_name p;
     prompt_description := sdk_prompt_description p;
     prompt_arguments := sdk_prompt_arguments p |}.

Definition toMCPResource (r : SdkResource) : MCPResource :=
  {| resource_uri := sdk_resource_uri r;
     resource_name := sdk_resource_name r;
     resource_description := sdk_resource_description r;
     mimeType := sdk_resource_mimeType r |}.

(** [result.status === "fulfilled" ? result.value.xs.map(f) : []] *)
Definition settled_map {A B} (f : A -> B) (r : PromiseSettledResult (list A)) : list B :=
  match r with
  | fulfilled value => List.map f value
  | rejected _ => []
  end.

Definition fetchCapabilities (client : Client) : M MCPServerCapabilities :=
  do toolsResult <- Client_listTools client ;;
  do promptsResult <- Client_listPrompts client ;;
  do resourcesResult <- Client_listResources client ;;
  ret {| tools := settled_map toMCPTool toolsResult;
         prompts := settled_map toMCPPrompt promptsResult;
         resources := settled_map toMCPResource resourcesResult |}.

(** The three queries of [fetchCapabilities], as the environment answers them
    from a trace [tr]. *)
Definition toolsResult_at (tr : list Event) (c : Client) :=
  client_listTools E tr c.
Definition promptsResult_at (tr : list Event) (c : Client) :=
  client_listPrompts E (EvListTools c :: tr) c.
Definition resourcesResult_at (tr : list Event) (c : Client) :=
  client_listResources E (EvListPrompts c :: EvListTools c :: tr) c.

Definition after_queries (c : Client) (w : World) : World :=
  log_event (EvListResources c) (log_event (EvListPrompts c) (log_event (EvListTools c) w)).

(** *** connect *)

Definition connected_status (config : MCPServerConfig) (t : Z) : MCPServerStatus :=
  {| serverId := cfg_id config; status := connected;
     error_message := None; lastConnected := Some t |}.

Definition failed_status (config : MCPServerConfig) (err : Thrown) : MCPServerStatus :=
  {| serverId := cfg_id config; status := error;
     error_message := Some (message_of err); lastConnected := None |}.

Definition connected_record (config : MCPServerConfig) (c : Client)
    (caps : MCPServerCapabilities) (t : Z) : ManagedClient :=
  {| mc_client := Some c; mc_config := config;
     mc_status := connected_status config t; mc_capabilities := Some caps |}.

Definition failed_record (config : MCPServerConfig) (err : Thrown) : ManagedClient :=
  {| mc_client := None; mc_config := config;
     mc_status := failed_status config err; mc_capabilities := None |}.

(** The first three statements of [connect]'s [try] block: the client object,
    the transport, the handshake. *)
Definition establish (config : MCPServerConfig) : M Client :=
  do client <- new_Client ("mcp-client-" ++ cfg_id config) "1.0.0" ;;
  do transport <- createTransport config ;;
  perform Client_connect client transport ;;
  ret client.

(** The [try { ... } catch (error) { ... }] block of [connect]. *)
Definition connect_attempt (config : MCPServerConfig) : M MCPServerStatus :=
  try_catch
    (do client <- establish config ;;
     do capabilities <- fetchCapabilities client ;;
     do t <- now ;;
     perform clients_set (cfg_id config) (connected_record config client capabilities t) ;;
     ret (connected_status config t))
    (fun err =>
     perform clients_set (cfg_id config) (failed_record config err) ;;
     ret (failed_status config err)).

Definition connect (config : MCPServerConfig) : M MCPServerStatus :=
  do existingClient <- clients_get (cfg_id config) ;;
  match existingClient with
  | Some existing =>
      if bool_decide (status (mc_status existing) = connected)
      then ret (mc_status existing)
      else connect_attempt config
  | None => connect_attempt config
  end.

(** *** disconnect *)

Definition disconnected_status (serverId : string) : MCPServerStatus :=
  {| serverId := serverId; status := disconnected;
     error_message := None; lastConnected := None |}.

(** The guarded [close()] inside [disconnect]'s [try], with its [catch]. *)
Definition close_quietly (serverId : string) (managedClient : ManagedClient) : M unit :=
  try_catch
    (match mc_client managedClient with
     | Some c =>
         if bool_decide (status (mc_status managedClient) = connected)
         then Client_close c
         else ret tt
     | None => ret tt
     end)
    (fun err => console_error ("Error disconnecting from server " ++ serverId ++ ":") err).

(** [{ ...managedClient, status, capabilities: null }] *)
Definition disconnected_record (managedClient : ManagedClient) (st : MCPServerStatus)
  : ManagedClient :=
  {| mc_client := mc_client managedClient;
     mc_config := mc_config managedClient;
     mc_status := st;
     mc_capabilities := None |}.

Definition disconnect (serverId : string) : M MCPServerStatus :=
  do managedClient <- clients_get serverId ;;
  match managedClient with
  | None => ret (disconnected_status serverId)
  | Some mc =>
      perform close_quietly serverId mc ;;
      let st := disconnected_status serverId in
      perform clients_set serverId (disconnected_record mc st) ;;
      ret st
  end.

(** The record [disconnect] leaves under [serverId]. *)
Definition disconnected_entry (serverId : string) (mc : ManagedClient) : ManagedClient :=
  disconnected_record mc (disconnected_status serverId).

(** *** Lookups (synchronous methods: functions of the map) *)

Definition getStatus (w : World) (serverId : string) : MCPServerStatus :=
  match clients w !! serverId with
  | Some managedClient => mc_status managedClient
  | None => disconnected_status serverId
  end.

(** [Array.from(this.clients.values()).map((mc) => mc.status)]; the order of
    the array is the map's and is not modelled. *)
Definition getAllStatuses (w : World) : list MCPServerStatus :=
  (fun kv => mc_status (snd kv)) <$> map_to_list (clients w).

(** [this.clients.get(serverId)?.capabilities ?? null] *)
Definition getCapabilities (w : World) (serverId : string) : option MCPServerCapabilities :=
  match clients w !! serverId with
  | Some managedClient => mc_capabilities managedClient
  | None => None
  end.

(** *** callTool, getPrompt, readResource *)

Definition is_connected (managedClient : option ManagedClient) : bool :=
  match managedClient with
  | Some mc => bool_decide (status (mc_status mc) = connected)
  | None => false
  end.

Definition not_connected_error (serverId : string) : Thrown :=
  new_Error ("Server " ++ serverId ++ " is not connected").

(** [managedClient.client.method(...)]: a property access on [null] throws a
    [TypeError]. *)
Definition with_client {A} (managedClient : option ManagedClient) (method : string)
    (k : Client -> M A) : M A :=
  match managedClient with
  | Some {| mc_client := Some c |} => k c
  | _ => throw (new_Error ("Cannot read properties of null (reading '" ++ method ++ "')"))
  end.

(** [args ?? {}]: an argument that is absent, [undefined] or [null] gives
    way to the empty object. *)
Definition args_or_empty (args : option JsValue) : JsValue :=
  match args with
  | None | Some JsUndefined | Some JsNull => JsObject []
  | Some a => a
  end.

Definition callTool (serverId toolName : string) (args : option JsValue) : M JsValue :=
  do managedClient <- clients_get serverId ;;
  if negb (is_connected managedClient) then throw (not_connected_error serverId)
  else
    with_client managedClient "callTool" (fun c =>
      Client_callTool c {| call_name := toolName; call_arguments := args_or_empty args |}).

Definition getPrompt (serverId promptName : string) (args : option (list (string * string)))
  : M JsValue :=
  do managedClient <- clients_get serverId ;;
  if negb (is_connected managedClient) then throw (not_connected_error serverId)
  else
    with_client managedClient "getPrompt" (fun c =>
      Client_getPrompt c {| get_name := promptName; get_arguments := args |}).

Definition readResource (serverId uri : string) : M JsValue :=
  do managedClient <- clients_get serverId ;;
  if negb (is_connected managedClient) then throw (not_connected_error serverId)
  else
    with_client managedClient "readResource" (fun c =>
      Client_readResource c {| read_uri := uri |}).

(** *** disconnectAll *)

(** [Array.from(this.clients.keys())].  The Map gives its keys in the order
    in which they were first set, the [gmap] in an order of its own: the
    order decides only in which order the [close()] calls of [disconnectAll]
    are made. *)
Definition clients_keys (w : World) : list string :=
  fst <$> map_to_list (clients w).

(** The disconnects of the ids, each one settled before the next is made. *)
Fixpoint disconnect_each (serverIds : list string) : M unit :=
  match serverIds with
  | [] => ret tt
  | serverId :: rest =>
      perform disconnect serverId ;;
      disconnect_each rest
  end.

(** A call of [disconnect] paused at [await managedClient.client.close()]:
    the id and the record it has read, and the promise that [close()]
    returned. *)
Record Closing := {
  closing_id : string;
  closing_record : ManagedClient;
  closing_promise : PromiseSettledResult unit
}.

(** [close()] is called and its promise is kept. *)
Definition Client_close_called (c : Client) : M (PromiseSettledResult unit) :=
  fun w => (perform emit (EvClose c) ;; ret (client_close E (trace w) c)) w.

(** [disconnect] as far as it runs when it is called: to the [await] of
    [close()] when the record is due one, and else to its end. *)
Definition disconnect_begin (serverId : string) : M (option Closing) :=
  do managedClient <- clients_get serverId ;;
  match managedClient with
  | None => ret None
  | Some mc =>
      let st := disconnected_status serverId in
      match mc_client mc with
      | Some c =>
          if bool_decide (status (mc_status mc) = connected)
          then
            do closing <- Client_close_called c ;;
            ret (Some {| closing_id := serverId; closing_record := mc;
                         closing_promise := closing |})
          else
            perform clients_set serverId (disconnected_record mc st) ;;
            ret None
      | None =>
          perform clients_set serverId (disconnected_record mc st) ;;
          ret None
      end
  end.

(** [disconnect] from the [await] on, once the promise of [close()] has
    settled. *)
Definition disconnect_finish (p : Closing) : M MCPServerStatus :=
  perform
    try_catch (await (closing_promise p))
      (fun err =>
         console_error ("Error disconnecting from server " ++ closing_id p ++ ":") err) ;;
  let st := disconnected_status (closing_id p) in
  perform clients_set (closing_id p) (disconnected_record (closing_record p) st) ;;
  ret st.

(** [serverIds.map((id) => this.disconnect(id))]: every call is made, and
    runs as far as its [await], before any of them goes on. *)
Fixpoint disconnect_begin_each (serverIds : list string) : M (list Closing) :=
  match serverIds with
  | [] => ret []
  | serverId :: rest =>
      do p <- disconnect_begin serverId ;;
      do paused <- disconnect_begin_each rest ;;
      ret (match p with Some p => p :: paused | None => paused end)
  end.

(** [await Promise.all(...)]: the paused calls go on, in the order in which
    they were made, and none rejects. *)
Fixpoint disconnect_finish_each (paused : list Closing) : M unit :=
  match paused with
  | [] => ret tt
  | p :: rest =>
      perform disconnect_finish p ;;
      disconnect_finish_each rest
  end.

Definition disconnectAll : M unit :=
  fun w =>
    (do paused <- disconnect_begin_each (clients_keys w) ;;
     disconnect_finish_each paused) w.

(** *** Vocabulary of the specification *)

(** The configurations of the claim that no transport is made for, with the
    message of the refusal: the block of the kind is missing, the block of
    an HTTP kind has no URL, or the kind is not a known one.  A [stdio] block
    without a command is not among them. *)
Definition configuration_failure (config : MCPServerConfig) : option string :=
  if String.eqb (transportType config) "stdio" then
    match stdioConfig config with
    | None => Some "STDIO config is required for STDIO transport"
    | Some _ => None
    end
  else if String.eqb (transportType config) "streamable-http" then
    match httpConfig config with
    | None => Some "HTTP config is required for Streamable HTTP transport"
    | Some {| url := None |} => Some "Invalid URL"
    | Some _ => None
    end
  else if String.eqb (transportType config) "sse" then
    match httpConfig config with
    | None => Some "HTTP config is required for SSE transport"
    | Some {| url := None |} => Some "Invalid URL"
    | Some _ => None
    end
  else Some ("Unsupported transport type: " ++ transportType config).

Definition recognized_kind (kind : string) : bool :=
  String.eqb kind "stdio" || String.eqb kind "streamable-http" || String.eqb kind "sse".

(** Exactly one of the three capability queries failed; the last argument is
    the snapshot the specification asks for: nothing for the query that
    failed and, for each of the two others, the items it returned, one entry
    for each in the same order, with the name (or uri), the description and
    the schema, arguments or MIME type the item has. *)
Inductive exactly_one_failed :
    PromiseSettledResult (list SdkTool) -> PromiseSettledResult (list SdkPrompt) ->
    PromiseSettledResult (list SdkResource) -> MCPServerCapabilities -> Prop :=
| tools_failed e ps rs prompts_kept resources_kept :
    Forall2 (fun p kept =>
               prompt_name kept = sdk_prompt_name p /\
               prompt_description kept = sdk_prompt_description p /\
               prompt_arguments kept = sdk_prompt_arguments p) ps prompts_kept ->
    Forall2 (fun r kept =>
               resource_uri kept = sdk_resource_uri r /\
               resource_name kept = sdk_resource_name r /\
               resource_description kept = sdk_resource_description r /\
               mimeType kept = sdk_resource_mimeType r) rs resources_kept ->
    exactly_one_failed (rejected e) (fulfilled ps) (fulfilled rs)
      {| tools := []; prompts := prompts_kept; resources := resources_kept |}
| prompts_failed ts e rs tools_kept resources_kept :
    Forall2 (fun t kept =>
               tool_name kept = sdk_tool_name t /\
               tool_description kept = sdk_tool_description t /\
               inputSchema kept = sdk_tool_inputSchema t) ts tools_kept ->
    Forall2 (fun r kept =>
               resource_uri kept = sdk_resource_uri r /\
               resource_name kept = sdk_resource_name r /\
               resource_description kept = sdk_resource_description r /\
               mimeType kept = sdk_resource_mimeType r) rs resources_kept ->
    exactly_one_failed (fulfilled ts) (rejected e) (fulfilled rs)
      {| tools := tools_kept; prompts := []; resources := resources_kept |}
| resources_failed ts ps e tools_kept prompts_kept :
    Forall2 (fun t kept =>
               tool_name kept = sdk_tool_name t /\
               tool_description kept = sdk_tool_description t /\
               inputSchema kept = sdk_tool_inputSchema t) ts tools_kept ->
    Forall2 (fun p kept =>
               prompt_name kept = sdk_prompt_name p /\
               prompt_description kept = sdk_prompt_description p /\
               prompt_arguments kept = sdk_prompt_arguments p) ps prompts_kept ->
    exactly_one_failed (fulfilled ts) (fulfilled ps) (rejected e)
      {| tools := tools_kept; prompts := prompts_kept; resources := [] |}.

(** No handshake was started between two traces. *)
Definition no_new_handshake (before after : list Event) : Prop :=
  forall c t, In (EvConnect c t) after -> In (EvConnect c t) before.

(** The handle [disconnect] closes: present, and the record ["connected"]. *)
Definition close_attempted (managedClient : ManagedClient) : option Client :=
  match mc_client managedClient with
  | Some c =>
      if bool_decide (status (mc_status managedClient) = connected) then Some c else None
  | None => None
  end.

(** The record of [serverId] once [disconnect] has been called for it and has
    run as far as its [await]: as it was when a [close()] is awaited, and
    else disconnected. *)
Definition begun (serverId : string) (managedClient : ManagedClient) : ManagedClient :=
  match close_attempted managedClient with
  | Some _ => managedClient
  | None => disconnected_entry serverId managedClient
  end.

(** A ["connected"] record holds a client handle. *)
Definition connected_has_handle (w : World) : Prop :=
  forall serverId managedClient,
    clients w !! serverId = Some managedClient ->
    status (mc_status managedClient) = connected ->
    is_Some (mc_client managedClient).

(** *** Sequences of calls on the manager *)

Inductive Call : Type :=
| CallConnect (config : MCPServerConfig)
| CallDisconnect (serverId : string)
| CallDisconnectAll
| CallGetStatus (serverId : string)
| CallGetAllStatuses
| CallGetCapabilities (serverId : string)
| CallCallTool (serverId toolName : string) (args : option JsValue)
| CallGetPrompt (serverId promptName : string) (args : option (list (string * string)))
| CallReadResource (serverId uri : string).

(** The world after one call has settled, whatever it returned or threw. *)
Definition step (c : Call) (w : World) : World :=
  match c with
  | CallConnect config => snd (connect config w)
  | CallDisconnect serverId => snd (disconnect serverId w)
  | CallDisconnectAll => snd (disconnectAll w)
  | CallGetStatus _ | CallGetAllStatuses | CallGetCapabilities _ => w
  | CallCallTool serverId toolName args => snd (callTool serverId toolName args w)
  | CallGetPrompt serverId promptName args => snd (getPrompt serverId promptName args w)
  | CallReadResource serverId uri => snd (readResource serverId uri w)
  end.

Definition run_calls (calls : list Call) (w : World) : World :=
  fold_left (fun w c => step c w) calls w.

(** The id was reported ["connected"] at some point of the history. *)
Definition ever_connected (calls : list Call) (serverId : string) : Prop :=
  exists n, status (getStatus (run_calls (take n calls) initial_world) serverId) = connected.

(** [connect] was called for the id. *)
Definition connect_requested (calls : list Call) (serverId : string) : Prop :=
  exists config, In (CallConnect config) calls /\ cfg_id config = serverId.

End Manager.

(** ** lib/mcp/storage.ts *)

Definition STORAGE_KEY : string := "mcp_servers".
Definition STORAGE_VERSION : Z := 1.

Record MCPStorageData := {
  servers : list MCPServerConfig;
  version : Z
}.

(** [Omit<MCPServerConfig, "id" | "createdAt" | "updatedAt">] *)
Record ExportedServer := {
  exp_name : string;
  exp_transportType : string;
  exp_stdioConfig : option StdioConfig;
  exp_httpConfig : option HttpConfig;
  exp_enabled : bool
}.

Record MCPExportData := {
  exp_version : Z;
  exportedAt : Z;
  exp_servers : list ExportedServer
}.

(** An item of [localStorage], by what [getServers] makes of its text: the
    JSON of a storage object as [saveServers] writes it, JSON of a value
    without [servers], or text on which [JSON.parse] or the property access
    throws (the empty string, which [getServers] tests first, included). *)
Inductive Item : Type :=
| JsonOf (data : MCPStorageData)
| JsonWithoutServers
| NotJson (text : string).

(** The page's surroundings.  [window_defined] is false when the module runs
    on the server; [quota_exceeded] makes [setItem] throw; [ids_made] and
    [clock_reads] count the calls of [generateId] and [Date.now]. *)
Record Browser := {
  window_defined : bool;
  localStorage : gmap string Item;
  quota_exceeded : bool;
  console : list string;
  ids_made : nat;
  clock_reads : nat
}.

(** [generateId] is imported from [@/lib/utils]; it and the clock are taken
    as they come: the id of the [k]-th call, the time of the [k]-th reading. *)
Record Platform := {
  generateId_nth : nat -> string;
  clock_nth : nat -> Z
}.

(** [Partial<Omit<MCPServerConfig, "id" | "createdAt">>], the argument of
    [updateServer]: a field is [None] when the object has no such key.  For
    the two optional blocks [Some None] is the key given as [undefined]; the
    other keys, when given, hold a value of the field's type. *)
Record ServerUpdates := {
  upd_name : option string;
  upd_transportType : option string;
  upd_stdioConfig : option (option StdioConfig);
  upd_httpConfig : option (option HttpConfig);
  upd_enabled : option bool;
  upd_updatedAt : option Z
}.

Module mcpStorage.

Section Storage.

Variable P : Platform.

Definition console_error (text : string) (b : Browser) : Browser :=
  {| window_defined := window_defined b; localStorage := localStorage b;
     quota_exceeded := quota_exceeded b; console := text :: console b;
     ids_made := ids_made b; clock_reads := clock_reads b |}.

Definition Date_now (b : Browser) : Z * Browser :=
  (clock_nth P (clock_reads b),
   {| window_defined := window_defined b; localStorage := localStorage b;
      quota_exceeded := quota_exceeded b; console := console b;
      ids_made := ids_made b; clock_reads := S (clock_reads b) |}).

Definition generateId (b : Browser) : string * Browser :=
  (generateId_nth P (ids_made b),
   {| window_defined := window_defined b; localStorage := localStorage b;
      quota_exceeded := quota_exceeded b; console := console b;
      ids_made := S (ids_made b); clock_reads := clock_reads b |}).

Definition setItem (key : string) (value : Item) (b : Browser) : Browser :=
  {| window_defined := window_defined b;
     localStorage := <[key := value]> (localStorage b);
     quota_exceeded := quota_exceeded b; console := console b;
     ids_made := ids_made b; clock_reads := clock_reads b |}.

Definition getServers (b : Browser) : list MCPServerConfig * Browser :=
  if negb (window_defined b) then ([], b)
  else
    match localStorage b !! STORAGE_KEY with
    | None => ([], b)
    | Some (NotJson "") => ([], b)
    | Some (NotJson _) => ([], console_error "Error reading MCP servers from storage:" b)
    | Some JsonWithoutServers => ([], b)
    | Some (JsonOf parsed) => (servers parsed, b)
    end.

Definition saveServers (servers : list MCPServerConfig) (b : Browser) : Browser :=
  if negb (window_defined b) then b
  else
    let data := {| servers := servers; version := STORAGE_VERSION |} in
    if quota_exceeded b
    then console_error "Error saving MCP servers to storage:" b
    else setItem STORAGE_KEY (JsonOf data) b.

Definition exportServers (b : Browser) : MCPExportData * Browser :=
  let '(servers, b1) := getServers b in
  let '(t, b2) := Date_now b1 in
  ({| exp_version := STORAGE_VERSION;
      exportedAt := t;
      exp_servers :=
        List.map (fun s => {| exp_name := cfg_name s;
                              exp_transportType := transportType s;
                              exp_stdioConfig := stdioConfig s;
                              exp_httpConfig := httpConfig s;
                              exp_enabled := enabled s |}) servers |}, b2).

(** [{ ...server, id: generateId(), createdAt: now, updatedAt: now }] *)
Definition imported_server (server : ExportedServer) (id : string) (t : Z) : MCPServerConfig :=
  {| cfg_id := id;
     cfg_name := exp_name server;
     transportType := exp_transportType server;
     stdioConfig := exp_stdioConfig server;
     httpConfig := exp_httpConfig server;
     enabled := exp_enabled server;
     createdAt := t;
     updatedAt := t |}.

(** [data.servers.map((server) => ...)], one [generateId()] per element. *)
Fixpoint import_each (servers : list ExportedServer) (t : Z) (b : Browser)
  : list MCPServerConfig * Browser :=
  match servers with
  | [] => ([], b)
  | server :: rest =>
      let '(id, b1) := generateId b in
      let '(imported, b2) := import_each rest t b1 in
      (imported_server server id t :: imported, b2)
  end.

(** [options.merge] defaults to [true]. *)
Definition importServers (data : MCPExportData) (merge : option bool) (b : Browser)
  : list MCPServerConfig * Browser :=
  let merge := default true merge in
  let '(t, b1) := Date_now b in
  let '(importedServers, b2) := import_each (exp_servers data) t b1 in
  if merge then
    let '(existingServers, b3) := getServers b2 in
    let allServers := (existingServers ++ importedServers)%list in
    (allServers, saveServers allServers b3)
  else
    (importedServers, saveServers importedServers b2).

(** [addServer]: the object literal is the one of [importServers],
    [{ ...config, id: generateId(), createdAt: now, updatedAt: now }]; the
    clock is read before the id is made. *)
Definition addServer (config : ExportedServer) (b : Browser) : MCPServerConfig * Browser :=
  let '(t, b1) := Date_now b in
  let '(id, b2) := generateId b1 in
  let newServer := imported_server config id t in
  let '(servers, b3) := getServers b2 in
  let servers := (servers ++ [newServer])%list in
  (newServer, saveServers servers b3).

(** [servers.findIndex(p)]; [None] is the [-1] of the source. *)
Fixpoint findIndex {A} (p : A -> bool) (l : list A) : option nat :=
  match l with
  | [] => None
  | x :: rest => if p x then Some 0 else S <$> findIndex p rest
  end.

(** [{ ...server, ...updates, updatedAt: t }] *)
Definition updated_server (server : MCPServerConfig) (updates : ServerUpdates) (t : Z)
  : MCPServerConfig :=
  {| cfg_id := cfg_id server;
     cfg_name := default (cfg_name server) (upd_name updates);
     transportType := default (transportType server) (upd_transportType updates);
     stdioConfig := default (stdioConfig server) (upd_stdioConfig updates);
     httpConfig := default (httpConfig server) (upd_httpConfig updates);
     enabled := default (enabled server) (upd_enabled updates);
     createdAt := createdAt server;
     updatedAt := t |}.

(** [updateServer].  [servers[index]] is read at the index [findIndex] found,
    which is an index of the array. *)
Definition updateServer (id : string) (updates : ServerUpdates) (b : Browser)
  : option MCPServerConfig * Browser :=
  let '(servers, b1) := getServers b in
  match findIndex (fun s => String.eqb (cfg_id s) id) servers with
  | None => (None, b1)
  | Some index =>
      match servers !! index with
      | None => (None, b1)
      | Some current =>
          let '(t, b2) := Date_now b1 in
          let updated := updated_server current updates t in
          (Some updated, saveServers (<[index := updated]> servers) b2)
      end
  end.

Definition deleteServer (id : string) (b : Browser) : bool * Browser :=
  let '(servers, b1) := getServers b in
  let filtered := List.filter (fun s => negb (String.eqb (cfg_id s) id)) servers in
  if Nat.eqb (length filtered) (length servers) then (false, b1)
  else (true, saveServers filtered b1).

(** [servers.find((s) => s.id === id) ?? null] *)
Definition getServer (id : string) (b : Browser) : option MCPServerConfig * Browser :=
  let '(servers, b1) := getServers b in
  (List.find (fun s => String.eqb (cfg_id s) id) servers, b1).

Definition removeItem (key : string) (b : Browser) : Browser :=
  {| window_defined := window_defined b;
     localStorage := delete key (localStorage b);
     quota_exceeded := quota_exceeded b; console := console b;
     ids_made := ids_made b; clock_reads := clock_reads b |}.

Definition clearAll (b : Browser) : Browser :=
  if negb (window_defined b) then b else removeItem STORAGE_KEY b.

End Storage.

End mcpStorage.

(** ** lib/supabase.ts: the extended-message codec *)

Definition EXTENDED_MESSAGE_MARKER : string := "[[EXTENDED_MSG]]".

(** [{ text, toolCalls }] and [{ text }] *)
Definition ExtendedMessageData (text : string) (toolCalls : option (list JsValue)) : JsValue :=
  match toolCalls with
  | Some calls => JsObject [("text", JsString text); ("toolCalls", JsArray calls)]
  | None => JsObject [("text", JsString text)]
  end.

(** [MARKER + x] where [x] may be [undefined] *)
Definition to_text (t : option string) : string :=
  match t with
  | Some t => t
  | None => "undefined"
  end.

Definition encodeExtendedMessage (text : string) (toolCalls : option (list JsValue)) : string :=
  match toolCalls with
  | None | Some [] => text
  | Some calls =>
      let data := ExtendedMessageData text (Some calls) in
      EXTENDED_MESSAGE_MARKER ++ to_text (JSON.stringify data)
  end.

(** What a call of [decodeExtendedMessage] does: the value returned and
    whether [console.error] was called. *)
Record Decoded := {
  returned : JsValue;
  logged_error : bool
}.

(** [None] stands for a content whose JSON part holds a [\u] escape above
    [00ff], a code unit that the strings here do not have. *)
Definition decodeExtendedMessage (content : string) : option Decoded :=
  if startsWith content EXTENDED_MESSAGE_MARKER then
    let jsonStr := slice (String.length EXTENDED_MESSAGE_MARKER) content in
    match JSON.parse jsonStr with
    | JSON.Parsed v => Some {| returned := v; logged_error := false |}
    | JSON.SyntaxError =>
        Some {| returned := ExtendedMessageData content None; logged_error := true |}
    | JSON.Unsupported => None
    end
  else Some {| returned := ExtendedMessageData content None; logged_error := false |}.

(** ** lib/supabase.ts: loading the messages of a session *)

(** [Pick<DbChatMessage, "role" | "content">] *)
Record DbRow := {
  row_role : string;
  row_content : string
}.

(** An element of the array [getMessagesExtended] resolves to: [content] is
    [parsed.text] or [row.content]; [toolCalls] is [None] where the object has
    no such key. *)
Record LoadedMessage := {
  msg_role : string;
  msg_content : JsValue;
  msg_toolCalls : option JsValue
}.

(** [v.key], for a key that is no index and that no prototype defines.
    [None] is the [TypeError] of a read on [null] or [undefined]. *)
Definition get_property (v : JsValue) (key : string) : option JsValue :=
  match v with
  | JsUndefined | JsNull => None
  | JsObject members =>
      match List.find (fun kv => String.eqb (fst kv) key) members with
      | Some kv => Some (snd kv)
      | None => Some JsUndefined
      end
  | _ => Some JsUndefined
  end.

(** What the arrow function of [getMessagesExtended] does on one row: the
    element it returns and whether it called [console.error]. *)
Record LoadedRow := {
  loaded : LoadedMessage;
  row_logged_error : bool
}.

Definition plain_row (row : DbRow) : LoadedMessage :=
  {| msg_role := row_role row; msg_content := JsString (row_content row);
     msg_toolCalls := None |}.

(** [None] stands for a content whose JSON part holds a [\u] escape above
    [00ff]. *)
Definition extended_row (row : DbRow) : option LoadedRow :=
  if startsWith (row_content row) EXTENDED_MESSAGE_MARKER then
    let jsonStr := slice (String.length EXTENDED_MESSAGE_MARKER) (row_content row) in
    match JSON.parse jsonStr with
    | JSON.Parsed parsed =>
        match get_property parsed "text", get_property parsed "toolCalls" with
        | Some text, Some toolCalls =>
            Some {| loaded := {| msg_role := row_role row; msg_content := text;
                                 msg_toolCalls := Some toolCalls |};
                    row_logged_error := false |}
        | _, _ => Some {| loaded := plain_row row; row_logged_error := true |}
        end
    | JSON.SyntaxError => Some {| loaded := plain_row row; row_logged_error := true |}
    | JSON.Unsupported => None
    end
  else Some {| loaded := plain_row row; row_logged_error := false |}.






(** ** app/api/mcp: the route handlers *)

(** [MCPApiResponse<T>]; a key that is absent or [undefined] is [None]. *)
Record MCPApiResponse (T : Type) := {
  api_success : bool;
  api_data : option T;
  api_error : option string
}.
Arguments api_success {T} _.
Arguments api_data {T} _.
Arguments api_error {T} _.

(** What [NextResponse.json(body, init)] answers with. *)
Record NextResponse (T : Type) := {
  http_status : nat;
  json_body : MCPApiResponse T
}.
Arguments http_status {T} _.
Arguments json_body {T} _.

(** [init.status] defaults to 200. *)
Definition NextResponse_json {T} (body : MCPApiResponse T) (init_status : option nat)
  : NextResponse T :=
  {| http_status := default 200 init_status; json_body := body |}.

(** [NextResponse.json({ success: true, data })] *)
Definition success_response {T} (data : T) : NextResponse T :=
  NextResponse_json {| api_success := true; api_data := Some data; api_error := None |} None.

(** [NextResponse.json({ success: false, error }, { status })] *)
Definition failure_response {T} (status : nat) (message : string) : NextResponse T :=
  NextResponse_json {| api_success := false; api_data := None; api_error := Some message |}
                    (Some status).

(** [error instanceof Error ? error.message : fallback] *)
Definition message_or (fallback : string) (e : Thrown) : string :=
  match e with
  | ErrorInstance m => m
  | NotAnError _ => fallback
  end.

(** A string field of a request body or a search parameter, for the test
    [!field]: [None] when it is missing, [null] or empty. *)
Definition truthy (field : option string) : option string :=
  match field with
  | Some s => if String.eqb s "" then None else Some s
  | None => None
  end.

(** The bodies of the [POST] requests: a field is [None] when the JSON object
    has no such key. *)
Record DisconnectServerRequest := {
  disconnect_serverId : option string
}.

Record CallToolRequest := {
  request_serverId : option string;
  request_toolName : option string;
  request_arguments : option JsValue
}.

Record GetPromptRequest := {
  prompt_serverId : option string;
  prompt_promptName : option string;
  prompt_request_arguments : option (list (string * string))
}.

Record ReadResourceRequest := {
  resource_serverId : option string;
  resource_request_uri : option string
}.

(** [{ ...tool, serverId: status.serverId }] *)
Record ToolOfServer := {
  tos_tool : MCPTool;
  tos_serverId : string
}.

(** [MCPToolWithServer] *)
Record MCPToolWithServer := {
  tws_tool : MCPTool;
  tws_serverId : string;
  tws_serverName : string
}.

(** The loop over the connected servers that [getConnectedMCPTools] and the
    [GET] of [/api/mcp/tools] share; [tag] makes the element pushed for a
    tool of the server with the given status. *)
Definition tools_of_connected {T} (tag : MCPServerStatus -> MCPTool -> T) (w : World) : list T :=
  let allStatuses := getAllStatuses w in
  let connectedServers :=
    List.filter (fun s => bool_decide (status s = connected)) allStatuses in
  List.flat_map
    (fun st =>
       match getCapabilities w (serverId st) with
       | Some capabilities => List.map (tag st) (tools capabilities)
       | None => []
       end)
    connectedServers.

(** [getConnectedMCPTools] of [app/api/chat/route.ts]; what it writes with
    [console.log] is left out. *)
Definition getConnectedMCPTools (w : World) : list ToolOfServer :=
  tools_of_connected
    (fun st tool => {| tos_tool := tool; tos_serverId := serverId st |}) w.

Section Routes.

Variable E : Environment.

(** The [catch] block that every handler ends with. *)
Definition route_catch {T} (label fallback : string) (error : Thrown) : M (NextResponse T) :=
  perform console_error label error ;;
  ret (failure_response 500 (message_or fallback error)).

(** [POST /api/mcp/connect].  [body] is what [await req.json()] settles to;
    [None] is a JSON value for which [!config] or [!config.id] holds without
    a configuration being there. *)
Definition connect_POST (body : PromiseSettledResult (option MCPServerConfig))
  : M (NextResponse MCPServerStatus) :=
  try_catch
    (do config <- await body ;;
     match config with
     | None => ret (failure_response 400 "Invalid server config")
     | Some config =>
         match truthy (Some (cfg_id config)) with
         | None => ret (failure_response 400 "Invalid server config")
         | Some _ =>
             do st <- connect E config ;;
             ret (NextResponse_json
                    {| api_success := bool_decide (status st = connected);
                       api_data := Some st;
                       api_error := error_message st |} None)
         end
     end)
    (route_catch "MCP connect error:" "Failed to connect").

(** [POST /api/mcp/disconnect].  [body] is what reading and destructuring the
    request body settles to. *)
Definition disconnect_POST (body : PromiseSettledResult DisconnectServerRequest)
  : M (NextResponse MCPServerStatus) :=
  try_catch
    (do request <- await body ;;
     match truthy (disconnect_serverId request) with
     | None => ret (failure_response 400 "Server ID is required")
     | Some serverId =>
         do st <- disconnect E serverId ;;
         ret (success_response st)
     end)
    (route_catch "MCP disconnect error:" "Failed to disconnect").

(** [POST /api/mcp/tools/call] *)
Definition tools_call_POST (body : PromiseSettledResult CallToolRequest)
  : M (NextResponse JsValue) :=
  try_catch
    (do request <- await body ;;
     match truthy (request_serverId request), truthy (request_toolName request) with
     | Some serverId, Some toolName =>
         do result <- callTool E serverId toolName (request_arguments request) ;;
         ret (success_response result)
     | _, _ => ret (failure_response 400 "Server ID and tool name are required")
     end)
    (route_catch "MCP tool call error:" "Failed to call tool").

(** [POST /api/mcp/prompts/get] *)
Definition prompts_get_POST (body : PromiseSettledResult GetPromptRequest)
  : M (NextResponse JsValue) :=
  try_catch
    (do request <- await body ;;
     match truthy (prompt_serverId request), truthy (prompt_promptName request) with
     | Some serverId, Some promptName =>
         do result <- getPrompt E serverId promptName (prompt_request_arguments request) ;;
         ret (success_response result)
     | _, _ => ret (failure_response 400 "Server ID and prompt name are required")
     end)
    (route_catch "MCP get prompt error:" "Failed to get prompt").

(** [POST /api/mcp/resources/read] *)
Definition resources_read_POST (body : PromiseSettledResult ReadResourceRequest)
  : M (NextResponse JsValue) :=
  try_catch
    (do request <- await body ;;
     match truthy (resource_serverId request), truthy (resource_request_uri request) with
     | Some serverId, Some uri =>
         do result <- readResource E serverId uri ;;
         ret (success_response result)
     | _, _ => ret (failure_response 400 "Server ID and URI are required")
     end)
    (route_catch "MCP read resource error:" "Failed to read resource").

(** [GET /api/mcp/capabilities?serverId=...]; the argument is
    [searchParams.get("serverId")]. *)
Definition capabilities_GET (serverId : option string) : M (NextResponse MCPServerCapabilities) :=
  try_catch
    (match truthy serverId with
     | None => ret (failure_response 400 "Server ID is required")
     | Some serverId =>
         fun w =>
           match getCapabilities w serverId with
           | None =>
               ret (failure_response 404 "Server not connected or capabilities not available") w
           | Some capabilities => ret (success_response capabilities) w
           end
     end)
    (route_catch "MCP capabilities error:" "Failed to get capabilities").

(** [GET /api/mcp/tools] *)
Definition tools_GET : M (NextResponse (list MCPToolWithServer)) :=
  try_catch
    (fun w =>
       let allTools :=
         tools_of_connected
           (fun st tool => {| tws_tool := tool; tws_serverId := serverId st;
                                  tws_serverName := serverId st |}) w in
       ret (success_response allTools) w)
    (route_catch "Error getting MCP tools:" "Failed to get tools").

End Routes.

(** What the page stores for a message and what it expects back: the row
    whose content is [encodeExtendedMessage(text, toolCalls)], and the message
    with the text and the tool calls. *)
Definition saved_row (role text : string) (toolCalls : option (list JsValue)) : DbRow :=
  {| row_role := role; row_content := encodeExtendedMessage text toolCalls |}.



(** ** app/api/chat/route.ts: the tools as Gemini function declarations *)

(** The members of [Type] of [@google/genai] that the route uses. *)
Inductive GeminiType : Type :=
| Type_STRING
| Type_NUMBER
| Type_BOOLEAN
| Type_ARRAY
| Type_OBJECT.

(** The [switch] compares with [===]: a value that is not one of the listed
    strings takes the [default] branch. *)
Definition mapJsonSchemaTypeToGemini (type : JsValue) : GeminiType :=
  match type with
  | JsString t =>
      if String.eqb t "string" then Type_STRING
      else if String.eqb t "number" then Type_NUMBER
      else if String.eqb t "integer" then Type_NUMBER
      else if String.eqb t "boolean" then Type_BOOLEAN
      else if String.eqb t "array" then Type_ARRAY
      else if String.eqb t "object" then Type_OBJECT
      else Type_STRING
  | _ => Type_STRING
  end.

(** [ToBoolean] *)
Definition truthy_value (v : JsValue) : bool :=
  match v with
  | JsUndefined | JsNull => false
  | JsBool b => b
  | JsNumber NaN | JsNumber Zero => false
  | JsNumber _ => true
  | JsString s => negb (String.eqb s "")
  | JsArray _ | JsObject _ => true
  end.

(** [typeof v === "object"] *)
Definition typeof_object (v : JsValue) : bool :=
  match v with
  | JsNull | JsArray _ | JsObject _ => true
  | _ => false
  end.

Definition Array_isArray (v : JsValue) : bool :=
  match v with
  | JsArray _ => true
  | _ => false
  end.

(** The code units of a string, each as a string of length one. *)
Fixpoint code_units (s : string) : list JsValue :=
  match s with
  | "" => []
  | String c rest => JsString (String c "") :: code_units rest
  end.

(** [Object.entries(v)] for a value that is not [null] or [undefined]: the
    members of an object, the elements of an array and the code units of a
    string under their indices, nothing for a number or a boolean. *)
Definition Object_entries (v : JsValue) : list (string * JsValue) :=
  match v with
  | JsObject members => members
  | JsArray items => imap (fun i item => (JSON.number_to_string (Z.of_nat i), item)) items
  | JsString s => imap (fun i c => (JSON.number_to_string (Z.of_nat i), c)) (code_units s)
  | _ => []
  end.

(** [/[^a-zA-Z0-9_]/] does not match the code unit. *)
Definition is_word_unit (c : ascii) : bool :=
  let n := nat_of_ascii c in
  (Nat.leb 97 n && Nat.leb n 122) || (Nat.leb 65 n && Nat.leb n 90) ||
  (Nat.leb 48 n && Nat.leb n 57) || Nat.eqb n 95.

(** A decimal digit. *)
Definition is_digit_unit (c : ascii) : bool :=
  let n := nat_of_ascii c in Nat.leb 48 n && Nat.leb n 57.

(** Every code unit of the string passes the test. *)
Definition units_pass (p : ascii -> bool) (s : string) : Prop :=
  Forall (fun c => p c = true) (list_ascii_of_string s).

(** [name.replace(/[^a-zA-Z0-9_]/g, "_")] *)
Fixpoint sanitize (name : string) : string :=
  match name with
  | "" => ""
  | String c rest => String (if is_word_unit c then c else "_"%char) (sanitize rest)
  end.

(** [`mcp_${index}_${sanitizedToolName}`.substring(0, 64)] *)
Definition safeName (index : nat) (name : string) : string :=
  substring 0 64 ("mcp_" ++ JSON.number_to_string (Z.of_nat index) ++ "_" ++ sanitize name).

(** A value of [toolMap]. *)
Record ToolRef := {
  ref_serverId : string;
  ref_toolName : string
}.

(** [{ type, description }], a member of [parameters.properties]. *)
Record PropertySchema := {
  property_type : GeminiType;
  property_description : JsValue
}.

(** [parameters]; [parameters_required] is [None] when the key is not set. *)
Record Parameters := {
  parameters_type : GeminiType;
  parameters_properties : list (string * PropertySchema);
  parameters_required : option JsValue
}.

Record FunctionDeclaration := {
  declaration_name : string;
  declaration_description : string;
  declaration_parameters : Parameters
}.

(** [object[key] = value], for a [value] that is an object, on an object
    made by a literal: an old key keeps its place and a new one takes the
    place in which it is enumerated.  The key ["__proto__"] is the accessor
    that [Object.prototype] defines: the assignment sets the prototype and
    makes no property. *)
Definition assign_key {A} (key : string) (value : A) (members : list (string * A))
  : list (string * A) :=
  if String.eqb key "__proto__" then members
  else JSON.define_property key value members.

(** The body of the loop over [Object.entries(props)]; [None] is the
    [TypeError] of [prop.type] on [null] or [undefined]. *)
Definition convert_property (prop : JsValue) : option PropertySchema :=
  match get_property prop "type", get_property prop "description" with
  | Some type, Some description =>
      Some {| property_type := mapJsonSchemaTypeToGemini type;
              property_description :=
                if truthy_value description then description else JsString "" |}
  | _, _ => None
  end.

Fixpoint convert_properties (entries : list (string * JsValue))
    (properties : list (string * PropertySchema)) : option (list (string * PropertySchema)) :=
  match entries with
  | [] => Some properties
  | (key, value) :: rest =>
      match convert_property value with
      | Some p => convert_properties rest (assign_key key p properties)
      | None => None
      end
  end.

Definition empty_parameters : Parameters :=
  {| parameters_type := Type_OBJECT; parameters_properties := []; parameters_required := None |}.

(** The [parameters] made for a tool; [None] when the loop throws.  A truthy
    value of type ["object"] is an object or an array, so the reads of
    [schema.properties] and [schema.required] do not throw. *)
Definition convert_parameters (inputSchema : JsValue) : option Parameters :=
  if truthy_value inputSchema && typeof_object inputSchema then
    let schema := inputSchema in
    match get_property schema "properties", get_property schema "required" with
    | Some props, Some required =>
        if truthy_value props then
          match convert_properties (Object_entries props) [] with
          | Some properties =>
              Some {| parameters_type := Type_OBJECT;
                      parameters_properties := properties;
                      parameters_required :=
                        if truthy_value required && Array_isArray required
                        then Some required else None |}
          | None => None
          end
        else Some empty_parameters
    | _, _ => Some empty_parameters
    end
  else Some empty_parameters.

(** [tool.description || tool.name] *)
Definition description_or_name (tool : MCPTool) : string :=
  match tool_description tool with
  | Some d => if String.eqb d "" then tool_name tool else d
  | None => tool_name tool
  end.

(** [tools.map((tool, index) => ...)] from [index] on, with the entries that
    the callback adds to [toolMap]; [None] when a callback throws. *)
Fixpoint convert_from (index : nat) (tools : list ToolOfServer) (toolMap : gmap string ToolRef)
  : option (list FunctionDeclaration * gmap string ToolRef) :=
  match tools with
  | [] => Some ([], toolMap)
  | tool :: rest =>
      let name := safeName index (tool_name (tos_tool tool)) in
      let toolMap :=
        <[name := {| ref_serverId := tos_serverId tool;
                     ref_toolName := tool_name (tos_tool tool) |}]> toolMap in
      match convert_parameters (inputSchema (tos_tool tool)) with
      | Some parameters =>
          match convert_from (S index) rest toolMap with
          | Some (declarations, toolMap) =>
              Some ({| declaration_name := name;
                       declaration_description := description_or_name (tos_tool tool);
                       declaration_parameters := parameters |} :: declarations, toolMap)
          | None => None
          end
      | None => None
      end
  end.

(** [{ declarations, toolMap }], or [None] when the conversion throws. *)
Definition convertToGeminiFunctions (tools : list ToolOfServer)
  : option (list FunctionDeclaration * gmap string ToolRef) :=
  convert_from 0 tools ∅.

(** A value on which a property can be read: any but [null] and [undefined]. *)
Definition readable (v : JsValue) : bool :=
  match v with
  | JsUndefined | JsNull => false
  | _ => true
  end.

(** The member of [parameters.properties] made for a readable property
    schema: the type mapped, the description when it is truthy. *)
Definition declared_property (prop : JsValue) : PropertySchema :=
  let type := default JsUndefined (get_property prop "type") in
  let description := default JsUndefined (get_property prop "description") in
  {| property_type := mapJsonSchemaTypeToGemini type;
     property_description := if truthy_value description then description else JsString "" |}.

(** The schema lists, among its [properties], one whose value is [null] or
    [undefined]. *)
Definition has_unreadable_property (inputSchema : JsValue) : bool :=
  truthy_value inputSchema && typeof_object inputSchema &&
  match get_property inputSchema "properties" with
  | Some props =>
      truthy_value props && existsb (fun kv => negb (readable kv.2)) (Object_entries props)
  | None => false
  end.

(** *** The shape of a record, by its status *)

(** What [connect] and [disconnect] write: a record sits under the id that
    its status and its configuration carry; a ["connected"] record has a
    client, a capability snapshot and the time of the connection; an
    ["error"] record has a message and none of them; a ["disconnected"]
    record has no snapshot; no record is ["connecting"]. *)
Definition record_wellformed (key : string) (mc : ManagedClient) : bool :=
  String.eqb (serverId (mc_status mc)) key &&
  String.eqb (cfg_id (mc_config mc)) key &&
  match status (mc_status mc), mc_client mc, mc_capabilities mc,
        error_message (mc_status mc), lastConnected (mc_status mc) with
  | connected, Some _, Some _, None, Some _ => true
  | error, None, None, Some _, None => true
  | disconnected, _, None, None, None => true
  | _, _, _, _, _ => false
  end.

Definition registry_wellformed (w : World) : Prop :=
  forall key mc, clients w !! key = Some mc -> record_wellformed key mc = true.

(** *** The life of a client object *)

(** The client that a request of the manager goes to: the three capability
    queries, the three invocations and [close()]. *)
Definition used_by (ev : Event) : option Client :=
  match ev with
  | EvListTools c | EvListPrompts c | EvListResources c | EvClose c => Some c
  | EvCallTool c _ | EvGetPrompt c _ | EvReadResource c _ => Some c
  | EvNewClient _ | EvNewTransport _ | EvConnect _ _ | EvConsoleError _ _ => None
  end.

(** In the trace (newest first), [connect] was called on the client and the
    call, answered from the trace before it, was fulfilled. *)
Definition handshaken (E : Environment) (c : Client) (tr : list Event) : Prop :=
  exists t newer older,
    tr = (newer ++ EvConnect c t :: older)%list /\
    client_connect E older c t = fulfilled tt.

(** Every request went to a client that had completed its handshake and had
    not been closed. *)
Fixpoint trace_safe (E : Environment) (tr : list Event) : Prop :=
  match tr with
  | [] => True
  | ev :: earlier =>
      trace_safe E earlier /\
      forall c, used_by ev = Some c -> handshaken E c earlier /\ EvClose c ∉ earlier
  end.

(** What the manager keeps true of its clients: the trace is safe; the
    handles and the closed clients were made by the manager; a closed client
    is the handle of no ["connected"] record; no two records share a handle;
    the handle of a ["connected"] record has completed its handshake. *)
Definition registry_safe (E : Environment) (w : World) : Prop :=
  trace_safe E (trace w) /\
  (forall key mc c,
     clients w !! key = Some mc -> mc_client mc = Some c -> client_uid c < allocated w) /\
  (forall c, EvClose c ∈ trace w -> client_uid c < allocated w) /\
  (forall c key mc,
     EvClose c ∈ trace w -> clients w !! key = Some mc ->
     status (mc_status mc) = connected -> mc_client mc <> Some c) /\
  (forall k1 k2 mc1 mc2 c,
     clients w !! k1 = Some mc1 -> clients w !! k2 = Some mc2 ->
     mc_client mc1 = Some c -> mc_client mc2 = Some c -> k1 = k2) /\
  (forall key mc c,
     clients w !! key = Some mc -> status (mc_status mc) = connected ->
     mc_client mc = Some c -> handshaken E c (trace w)).

(** The same while the calls [paused] of [disconnect] are at their [await]:
    a closed client may still be the handle of a ["connected"] record, when
    one of the paused calls is for its id; each paused call is for an id of
    its own and holds the record that the registry has for it. *)
Definition registry_closing (E : Environment) (paused : list Closing) (w : World) : Prop :=
  trace_safe E (trace w) /\
  (forall key mc c,
     clients w !! key = Some mc -> mc_client mc = Some c -> client_uid c < allocated w) /\
  (forall c, EvClose c ∈ trace w -> client_uid c < allocated w) /\
  (forall c key mc,
     EvClose c ∈ trace w -> clients w !! key = Some mc ->
     status (mc_status mc) = connected -> mc_client mc = Some c ->
     key ∈ closing_id <$> paused) /\
  (forall k1 k2 mc1 mc2 c,
     clients w !! k1 = Some mc1 -> clients w !! k2 = Some mc2 ->
     mc_client mc1 = Some c -> mc_client mc2 = Some c -> k1 = k2) /\
  (forall key mc c,
     clients w !! key = Some mc -> status (mc_status mc) = connected ->
     mc_client mc = Some c -> handshaken E c (trace w)) /\
  NoDup (closing_id <$> paused) /\
  (forall p, p ∈ paused -> clients w !! closing_id p = Some (closing_record p)).

(** ** app/page.tsx: the stream of a chat answer *)

(** [str.indexOf(search, position)] on [s], the part of the string from the
    index [pos] on: the index of the first occurrence, [None] for [-1]. *)
Fixpoint find_from (search s : string) (pos : nat) : option nat :=
  match s with
  | "" => if startsWith "" search then Some pos else None
  | String _ rest =>
      if startsWith s search then Some pos else find_from search rest (S pos)
  end.

(** [position] is clamped to the length of the string. *)
Definition indexOf (str search : string) (position : nat) : option nat :=
  let position := Nat.min position (String.length str) in
  find_from search (slice position str) position.

(** [str.includes(search)] *)
Definition includes (str search : string) : bool :=
  match indexOf str search 0 with
  | Some _ => true
  | None => false
  end.

(** [str.substring(start, end)]: the two indices are taken in order. *)
Definition substring_to (start finish : nat) (str : string) : string :=
  substring (Nat.min start finish) (Nat.max start finish - Nat.min start finish) str.

(** The [while (true)] loop of [extractBetweenMarkers], for [fuel] rounds. *)
Fixpoint extract_from (fuel : nat) (str startMarker endMarker : string)
    (searchStart : nat) (results : list string) : list string :=
  match fuel with
  | O => results
  | S fuel =>
      match indexOf str startMarker searchStart with
      | None => results
      | Some startIdx =>
          let contentStart := startIdx + String.length startMarker in
          match indexOf str endMarker contentStart with
          | None => results
          | Some endIdx =>
              extract_from fuel str startMarker endMarker
                (endIdx + String.length endMarker)
                (results ++ [substring_to contentStart endIdx str])
          end
      end
  end.

(** Each round moves [searchStart] forward by the two markers at least, so
    the loop makes no more rounds than the string has code units (lemma
    [extract_from_fuel]). *)
Definition extractBetweenMarkers (str startMarker endMarker : string) : list string :=
  extract_from (S (String.length str)) str startMarker endMarker 0 [].

(** [a === b], for values whose objects and arrays were made by different
    calls of [JSON.parse]: two of them are never the same object. *)
Definition strict_equals (a b : JsValue) : bool :=
  match a, b with
  | JsUndefined, JsUndefined => true
  | JsNull, JsNull => true
  | JsBool x, JsBool y => Bool.eqb x y
  | JsNumber x, JsNumber y => Number_strict_equals x y
  | JsString x, JsString y => String.eqb x y
  | _, _ => false
  end.

(** [toolCalls.findIndex((tc) => tc.id === result.id)]: [Some None] for
    [-1], [None] when a read of [id] throws. *)
Fixpoint findIndex_id (toolCalls : list JsValue) (result : JsValue) : option (option nat) :=
  match toolCalls with
  | [] => Some None
  | tc :: rest =>
      match get_property tc "id", get_property result "id" with
      | Some a, Some b =>
          if strict_equals a b then Some (Some 0)
          else
            match findIndex_id rest result with
            | Some (Some index) => Some (Some (S index))
            | found => found
            end
      | _, _ => None
      end
  end.

(** What [parseStreamContent] returns, and the number of its calls of
    [console.error]. *)
Record ParsedStream := {
  stream_toolCalls : list JsValue;
  stream_text : string;
  stream_logged : nat
}.

(** The body of the first loop; the state is the array and the number of
    errors logged, [None] once a content holds a [\u] escape above [00ff]. *)
Definition push_tool_call (state : option (list JsValue * nat)) (content : string)
  : option (list JsValue * nat) :=
  match state with
  | None => None
  | Some (toolCalls, logged) =>
      match JSON.parse content with
      | JSON.Parsed parsed => Some ((toolCalls ++ [parsed])%list, logged)
      | JSON.SyntaxError => Some (toolCalls, S logged)
      | JSON.Unsupported => None
      end
  end.

(** The body of the second loop. *)
Definition merge_tool_result (state : option (list JsValue * nat)) (content : string)
  : option (list JsValue * nat) :=
  match state with
  | None => None
  | Some (toolCalls, logged) =>
      match JSON.parse content with
      | JSON.Parsed result =>
          match findIndex_id toolCalls result with
          | Some (Some existingIndex) => Some (<[existingIndex := result]> toolCalls, logged)
          | Some None => Some ((toolCalls ++ [result])%list, logged)
          | None => Some (toolCalls, S logged)
          end
      | JSON.SyntaxError => Some (toolCalls, S logged)
      | JSON.Unsupported => None
      end
  end.

(** [parseStreamContent]; what it writes with [console.log] is left out. *)
Definition parseStreamContent (buffer : string) : option ParsedStream :=
  let toolCallContents := extractBetweenMarkers buffer "[TOOL_CALL]" "[/TOOL_CALL]" in
  let called := fold_left push_tool_call toolCallContents (Some ([], 0)) in
  let toolResultContents := extractBetweenMarkers buffer "[TOOL_RESULT]" "[/TOOL_RESULT]" in
  match fold_left merge_tool_result toolResultContents called with
  | None => None
  | Some (toolCalls, logged) =>
      let textContents := extractBetweenMarkers buffer "[TEXT]" "[/TEXT]" in
      let text :=
        match last textContents with
        | Some t => t
        | None =>
            let hasAnyMarkers := includes buffer "[TOOL_CALL]" || includes buffer "[TEXT]" in
            if negb hasAnyMarkers then buffer else ""
        end in
      Some {| stream_toolCalls := toolCalls; stream_text := text; stream_logged := logged |}
  end.

(** *** The stream as [app/api/chat/route.ts] writes it *)

Inductive FrameKind : Type :=
| TOOL_CALL
| TOOL_RESULT
| TEXT.

Definition kind_eqb (a b : FrameKind) : bool :=
  match a, b with
  | TOOL_CALL, TOOL_CALL | TOOL_RESULT, TOOL_RESULT | TEXT, TEXT => true
  | _, _ => false
  end.

Definition open_marker (kind : FrameKind) : string :=
  match kind with
  | TOOL_CALL => "[TOOL_CALL]"
  | TOOL_RESULT => "[TOOL_RESULT]"
  | TEXT => "[TEXT]"
  end.

Definition close_marker (kind : FrameKind) : string :=
  match kind with
  | TOOL_CALL => "[/TOOL_CALL]"
  | TOOL_RESULT => "[/TOOL_RESULT]"
  | TEXT => "[/TEXT]"
  end.

(** One [controller.enqueue]: the payload between the markers of its kind. *)
Definition frame (kind : FrameKind) (payload : string) : string :=
  open_marker kind ++ payload ++ close_marker kind.

(** The buffer once the frames have arrived. *)
Fixpoint render (frames : list (FrameKind * string)) : string :=
  match frames with
  | [] => ""
  | (kind, payload) :: rest => frame kind payload ++ render rest
  end.

(** The payloads of one kind, in their order. *)
Definition payloads (kind : FrameKind) (frames : list (FrameKind * string)) : list string :=
  snd <$> List.filter (fun f => kind_eqb (fst f) kind) frames.

(** [search] occurs in [s]. *)
Fixpoint occurs (search s : string) : bool :=
  startsWith s search ||
  match s with
  | "" => false
  | String _ rest => occurs search rest
  end.

Definition markers : list string :=
  ["[TOOL_CALL]"; "[/TOOL_CALL]"; "[TOOL_RESULT]"; "[/TOOL_RESULT]"; "[TEXT]"; "[/TEXT]"].

(** None of the six markers occurs in the payload. *)
Definition marker_free (payload : string) : bool :=
  forallb (fun m => negb (occurs m payload)) markers.

(** No opening bracket in the text. *)
Fixpoint bracket_free (s : string) : bool :=
  match s with
  | "" => true
  | String c rest => negb (Ascii.eqb c "[") && bracket_free rest
  end.

(** The text is empty or begins with an opening bracket. *)
Definition bracket_first (rest : string) : bool :=
  match rest with
  | "" => true
  | String c _ => Ascii.eqb c "["
  end.




(** ** A sample environment and sample configurations *)

Module Sample.

Definition weather_tool : SdkTool :=
  {| sdk_tool_name := "get_weather";
     sdk_tool_description := Some "Weather for a city";
     sdk_tool_inputSchema := JsObject [("type", JsString "object")];
     sdk_tool_rest := [("title", JsString "Weather")] |}.

Definition greet_prompt : SdkPrompt :=
  {| sdk_prompt_name := "greet";
     sdk_prompt_description := None;
     sdk_prompt_arguments := None;
     sdk_prompt_rest := [] |}.

Definition readme_resource : SdkResource :=
  {| sdk_resource_uri := "file:///README.md";
     sdk_resource_name := "README";
     sdk_resource_description := None;
     sdk_resource_mimeType := Some "text/markdown";
     sdk_resource_rest := [] |}.

(** A server that accepts every handshake and answers every query. *)
Definition healthy : Environment :=
  {| new_URL := fun s => if String.eqb s "" then rejected (ErrorInstance "Invalid URL")
                         else fulfilled {| href := s |};
     client_connect := fun _ _ _ => fulfilled tt;
     client_listTools := fun _ _ => fulfilled [weather_tool];
     client_listPrompts := fun _ _ => fulfilled [greet_prompt];
     client_listResources := fun _ _ => fulfilled [readme_resource];
     client_close := fun _ _ => fulfilled tt;
     client_callTool := fun _ _ p => fulfilled (JsString (call_name p));
     client_getPrompt := fun _ _ p => fulfilled (JsString (get_name p));
     client_readResource := fun _ _ p => fulfilled (JsString (read_uri p));
     Date_now := fun tr => (1700000000000 + Z.of_nat (length tr))%Z |}.

(** The same server refusing the handshake. *)
Definition refusing : Environment :=
  {| new_URL := new_URL healthy;
     client_connect := fun _ _ _ => rejected (ErrorInstance "Connection closed");
     client_listTools := client_listTools healthy;
     client_listPrompts := client_listPrompts healthy;
     client_listResources := client_listResources healthy;
     client_close := client_close healthy;
     client_callTool := client_callTool healthy;
     client_getPrompt := client_getPrompt healthy;
     client_readResource := client_readResource healthy;
     Date_now := Date_now healthy |}.

(** A server without prompts: [prompts/list] is answered with an error. *)
Definition no_prompts : Environment :=
  {| new_URL := new_URL healthy;
     client_connect := client_connect healthy;
     client_listTools := client_listTools healthy;
     client_listPrompts := fun _ _ => rejected (ErrorInstance "Method not found");
     client_listResources := client_listResources healthy;
     client_close := fun _ _ => rejected (ErrorInstance "close failed");
     client_callTool := client_callTool healthy;
     client_getPrompt := client_getPrompt healthy;
     client_readResource := client_readResource healthy;
     Date_now := Date_now healthy |}.

Definition stdio_server (id : string) : MCPServerConfig :=
  {| cfg_id := id; cfg_name := "local";
     transportType := "stdio";
     stdioConfig := Some {| command := Some "npx"; args := Some ["-y"; "server"]; env := None; cwd := None |};
     httpConfig := None;
     enabled := true; createdAt := 1; updatedAt := 2 |}.

Definition http_server (id : string) : MCPServerConfig :=
  {| cfg_id := id; cfg_name := "remote";
     transportType := "streamable-http";
     stdioConfig := None;
     httpConfig := Some {| url := Some "https://example.com/mcp"; headers := None |};
     enabled := true; createdAt := 3; updatedAt := 4 |}.

(** Configurations the transport selector rejects. *)
Definition stdio_without_command (id : string) : MCPServerConfig :=
  {| cfg_id := id; cfg_name := "broken";
     transportType := "stdio";
     stdioConfig := None; httpConfig := None;
     enabled := true; createdAt := 5; updatedAt := 6 |}.

Definition sse_without_url (id : string) : MCPServerConfig :=
  {| cfg_id := id; cfg_name := "nowhere";
     transportType := "sse";
     stdioConfig := None;
     httpConfig := Some {| url := None; headers := None |};
     enabled := true; createdAt := 5; updatedAt := 6 |}.

(** A [stdio] block that is there, without its command: the selector makes
    a transport of it. *)
Definition stdio_block_without_command (id : string) : MCPServerConfig :=
  {| cfg_id := id; cfg_name := "half";
     transportType := "stdio";
     stdioConfig := Some {| command := None; args := Some ["-y"]; env := None; cwd := None |};
     httpConfig := None;
     enabled := true; createdAt := 5; updatedAt := 6 |}.

Definition websocket_server (id : string) : MCPServerConfig :=
  {| cfg_id := id; cfg_name := "ws";
     transportType := "websocket";
     stdioConfig := None;
     httpConfig := Some {| url := Some "wss://example.com"; headers := None |};
     enabled := true; createdAt := 7; updatedAt := 8 |}.

(** The registry after a successful [connect] of ["a"]. *)
Definition connected_world : World :=
  snd (connect healthy (stdio_server "a") initial_world).

Definition client_a : Client :=
  {| client_name := "mcp-client-a"; client_version := "1.0.0"; client_uid := 0 |}.

(** A browser whose storage holds the given configurations. *)
Definition browser_with (stored : list MCPServerConfig) : Browser :=
  {| window_defined := true;
     localStorage := {[ STORAGE_KEY := JsonOf {| servers := stored; version := STORAGE_VERSION |} ]};
     quota_exceeded := false;
     console := [];
     ids_made := 0;
     clock_reads := 0 |}.

Definition platform : Platform :=
  {| generateId_nth := fun k => "id-" ++ NilEmpty.string_of_uint (Nat.to_uint k);
     clock_nth := fun k => (1700000000000 + Z.of_nat k)%Z |}.

Definition source_browser : Browser := browser_with [stdio_server "a"; http_server "b"].
Definition target_browser : Browser := browser_with [stdio_server "c"].

(** One finished tool call, as the page stores it. *)
Definition weather_call : JsValue :=
  JsObject [("id", JsString "call-1");
            ("name", JsString "get_weather");
            ("arguments", JsObject [("city", JsString "Seoul")]);
            ("status", JsString "success");
            ("startTime", JsNumber (Number_of_Z 1700000000000))].

(** A configuration as the form of the settings page gives it. *)
Definition new_server : ExportedServer :=
  {| exp_name := "added"; exp_transportType := "sse";
     exp_stdioConfig := None;
     exp_httpConfig := Some {| url := Some "https://example.com/sse"; headers := None |};
     exp_enabled := true |}.

(** The browser of [source_browser] with a storage that is full. *)
Definition full_browser : Browser :=
  {| window_defined := true;
     localStorage := localStorage source_browser;
     quota_exceeded := true;
     console := [];
     ids_made := 0;
     clock_reads := 0 |}.

Definition rename : ServerUpdates :=
  {| upd_name := Some "renamed"; upd_transportType := None;
     upd_stdioConfig := None; upd_httpConfig := None;
     upd_enabled := Some false; upd_updatedAt := Some 0%Z |}.

Definition backup : MCPExportData :=
  {| exp_version := 1; exportedAt := 5; exp_servers := [new_server] |}.

(** Two messages of a session: role, text, tool calls. *)
Definition sent : list (string * string * option (list JsValue)) :=
  [("user", "What is the weather?", None);
   ("assistant", "It is sunny.", Some [weather_call])].

Definition weather_properties : list (string * JsValue) :=
  [("city", JsObject [("type", JsString "string"); ("description", JsString "City name")]);
   ("__proto__", JsObject [("type", JsString "string")]);
   ("days", JsObject [("type", JsString "integer")])].

Definition weather_members : list (string * JsValue) :=
  [("type", JsString "object");
   ("properties", JsObject weather_properties);
   ("required", JsArray [JsString "city"])].

Definition weather_schema : JsValue := JsObject weather_members.

(** Two tools whose names are the same once sanitized. *)
Definition offered_tools : list ToolOfServer :=
  [{| tos_tool := {| tool_name := "get-weather";
                     tool_description := Some "Weather for a city";
                     inputSchema := weather_schema |};
      tos_serverId := "a" |};
   {| tos_tool := {| tool_name := "get weather";
                     tool_description := None;
                     inputSchema := JsUndefined |};
      tos_serverId := "b" |}].

(** A history that leaves ["a"] connected and ["b"] failed. *)
Definition history : list Call :=
  [CallConnect (stdio_server "a"); CallConnect (stdio_without_command "b");
   CallCallTool "a" "get_weather" None].



End Sample.


(** * Properties of the connection manager *)

Section ManagerFacts.

Variable E : Environment.

Ltac unfold_monad :=
  unfold bind, ret, throw, try_catch, emit, await, clients_get, clients_set, now in *.

(** *** The primitives *)

Lemma createTransport_cases config w :
  (exists t, createTransport E config w = (Normal t, log_event (EvNewTransport t) w))
  \/ (exists e, createTransport E config w = (Throw e, w)).
Proof.
  unfold createTransport, new_Transport, URL_of.
  repeat case_match; unfold_monad; simpl; eauto;
    destruct (new_URL E _); simpl; eauto.
Qed.

Lemma Client_connect_cases c t w :
  Client_connect E c t w = (Normal tt, log_event (EvConnect c t) w)
  \/ exists e, Client_connect E c t w = (Throw e, log_event (EvConnect c t) w).
Proof.
  unfold Client_connect; unfold_monad.
  destruct (client_connect E (trace w) c t) as [[]|e]; simpl; eauto.
Qed.

(** Where a call to [establish] leaves the world: the map is untouched. *)
Lemma establish_clients config w r w1 :
  establish E config w = (r, w1) -> clients w1 = clients w.
Proof.
  unfold establish, new_Client. unfold bind at 1. simpl.
  set (w0 := {| clients := clients w; trace := _; allocated := _ |}).
  unfold bind at 1.
  destruct (createTransport_cases config w0) as [[t ->]|[e ->]].
  - unfold bind at 1.
    destruct (Client_connect_cases
                {| client_name := "mcp-client-" ++ cfg_id config;
                   client_version := "1.0.0"; client_uid := allocated w |}
                t (log_event (EvNewTransport t) w0)) as [->| [e ->]];
      unfold ret; intros [= <- <-]; reflexivity.
  - intros [= <- <-]. reflexivity.
Qed.

(** [fetchCapabilities] never throws. *)
Lemma fetchCapabilities_total c w :
  fetchCapabilities E c w =
    (Normal {| tools := settled_map toMCPTool (toolsResult_at E (trace w) c);
               prompts := settled_map toMCPPrompt (promptsResult_at E (trace w) c);
               resources := settled_map toMCPResource (resourcesResult_at E (trace w) c) |},
     after_queries c w).
Proof. reflexivity. Qed.

(** *** connect *)

Lemma connect_attempt_established config w c w1 :
  establish E config w = (Normal c, w1) ->
  connect_attempt E config w =
    (Normal (connected_status config (Date_now E (trace (after_queries c w1)))),
     set_client (cfg_id config)
       (connected_record config c
          {| tools := settled_map toMCPTool (toolsResult_at E (trace w1) c);
             prompts := settled_map toMCPPrompt (promptsResult_at E (trace w1) c);
             resources := settled_map toMCPResource (resourcesResult_at E (trace w1) c) |}
          (Date_now E (trace (after_queries c w1))))
       (after_queries c w1)).
Proof.
  intros H. unfold connect_attempt, try_catch. unfold bind at 1. rewrite H.
  unfold bind at 1. rewrite fetchCapabilities_total. reflexivity.
Qed.

Lemma connect_attempt_failed config w e w1 :
  establish E config w = (Throw e, w1) ->
  connect_attempt E config w =
    (Normal (failed_status config e),
     set_client (cfg_id config) (failed_record config e) w1).
Proof.
  intros H. unfold connect_attempt, try_catch. unfold bind at 1. rewrite H.
  reflexivity.
Qed.

Lemma connect_unguarded config w :
  is_connected (clients w !! cfg_id config) = false ->
  connect E config w = connect_attempt E config w.
Proof.
  unfold connect, is_connected. unfold bind, clients_get.
  destruct (clients w !! cfg_id config) as [mc|]; [|reflexivity].
  intros ->. reflexivity.
Qed.

Lemma connect_guarded config w existing :
  clients w !! cfg_id config = Some existing ->
  status (mc_status existing) = connected ->
  connect E config w = (Normal (mc_status existing), w).
Proof.
  intros Hget Hst. unfold connect. unfold bind, clients_get. rewrite Hget.
  rewrite bool_decide_eq_true_2 by exact Hst. reflexivity.
Qed.

(** [C1] [connect] never throws.  When the transport cannot be built or the
    handshake fails with [e], the call returns a status ["error"] that carries
    the message of [e] (["Unknown error"] when [e] is not an [Error]), and the
    record stored under [config.id] has that status, no client handle and no
    capability snapshot. *)
Theorem connect_never_throws config w :
  (exists st w', connect E config w = (Normal st, w')) /\
  (forall e w1,
     is_connected (clients w !! cfg_id config) = false ->
     establish E config w = (Throw e, w1) ->
     exists st w',
       connect E config w = (Normal st, w') /\
       serverId st = cfg_id config /\
       status st = error /\
       error_message st = Some (message_of e) /\
       (forall m, e = ErrorInstance m -> error_message st = Some m) /\
       clients w' !! cfg_id config =
         Some {| mc_client := None; mc_config := config;
                 mc_status := st; mc_capabilities := None |}).
Proof.
  split.
  - destruct (is_connected (clients w !! cfg_id config)) eqn:Hc.
    + unfold is_connected in Hc.
      destruct (clients w !! cfg_id config) as [mc|] eqn:Hget; [|discriminate].
      apply bool_decide_eq_true_1 in Hc.
      rewrite (connect_guarded _ _ _ Hget Hc). eauto.
    + rewrite (connect_unguarded _ _ Hc).
      destruct (establish E config w) as [[c|e] w1] eqn:He.
      * rewrite (connect_attempt_established _ _ _ _ He). eauto.
      * rewrite (connect_attempt_failed _ _ _ _ He). eauto.
  - intros e w1 Hc He.
    rewrite (connect_unguarded _ _ Hc), (connect_attempt_failed _ _ _ _ He).
    eexists _, _. split; [reflexivity|].
    repeat split.
    + intros m ->. reflexivity.
    + simpl. apply lookup_insert_eq.
Qed.

(** [C5] On an id whose record is ["connected"], [connect] returns the stored
    status and leaves the whole world as it was: no client or transport is
    constructed, nothing is sent, the map is not written.  The configuration
    passed in plays no part beyond its id. *)
Theorem connect_idempotent_when_connected config w existing :
  clients w !! cfg_id config = Some existing ->
  status (mc_status existing) = connected ->
  connect E config w = (Normal (mc_status existing), w) /\
  (forall config', cfg_id config' = cfg_id config ->
     connect E config' w = (Normal (mc_status existing), w)).
Proof.
  intros Hget Hst. split.
  - exact (connect_guarded _ _ _ Hget Hst).
  - intros config' Hid. apply connect_guarded; [|exact Hst].
    rewrite Hid. exact Hget.
Qed.

(** An item of a snapshot is the fields it keeps. *)
Lemma kept_tools ts kept :
  Forall2 (fun t k =>
             tool_name k = sdk_tool_name t /\
             tool_description k = sdk_tool_description t /\
             inputSchema k = sdk_tool_inputSchema t) ts kept ->
  kept = List.map toMCPTool ts.
Proof.
  induction 1 as [|t k ts kept (H1 & H2 & H3) _ IH]; [reflexivity|].
  simpl. rewrite IH. f_equal. destruct k. simpl in *. subst. reflexivity.
Qed.

Lemma kept_prompts ps kept :
  Forall2 (fun p k =>
             prompt_name k = sdk_prompt_name p /\
             prompt_description k = sdk_prompt_description p /\
             prompt_arguments k = sdk_prompt_arguments p) ps kept ->
  kept = List.map toMCPPrompt ps.
Proof.
  induction 1 as [|p k ps kept (H1 & H2 & H3) _ IH]; [reflexivity|].
  simpl. rewrite IH. f_equal. destruct k. simpl in *. subst. reflexivity.
Qed.

Lemma kept_resources rs kept :
  Forall2 (fun r k =>
             resource_uri k = sdk_resource_uri r /\
             resource_name k = sdk_resource_name r /\
             resource_description k = sdk_resource_description r /\
             mimeType k = sdk_resource_mimeType r) rs kept ->
  kept = List.map toMCPResource rs.
Proof.
  induction 1 as [|r k rs kept (H1 & H2 & H3 & H4) _ IH]; [reflexivity|].
  simpl. rewrite IH. f_equal. destruct k. simpl in *. subst. reflexivity.
Qed.

(** [C4] When the handshake has succeeded and exactly one of the three
    capability queries is rejected, [connect] still returns ["connected"]
    without an error, and the snapshot it stores has the empty list for the
    rejected category and, for each of the two others, the items the server
    returned: one entry for each, in the same order, with the name (or uri),
    the description and the schema, arguments or MIME type of the item. *)
Theorem one_failed_query_keeps_connected config w c w1 caps :
  is_connected (clients w !! cfg_id config) = false ->
  establish E config w = (Normal c, w1) ->
  exactly_one_failed (toolsResult_at E (trace w1) c)
                     (promptsResult_at E (trace w1) c)
                     (resourcesResult_at E (trace w1) c) caps ->
  exists st w',
    connect E config w = (Normal st, w') /\
    status st = connected /\
    error_message st = None /\
    getCapabilities w' (cfg_id config) = Some caps.
Proof.
  intros Hc He Hone.
  rewrite (connect_unguarded _ _ Hc), (connect_attempt_established _ _ _ _ He).
  eexists _, _. split; [reflexivity|]. repeat split.
  unfold getCapabilities. simpl. rewrite lookup_insert_eq. simpl.
  inversion Hone as [e ps rs pk rk Hpk Hrk Ht Hp Hr|ts e rs tk rk Htk Hrk Ht Hp Hr
                    |ts ps e tk pk Htk Hpk Ht Hp Hr]; subst; simpl;
    rewrite ?(kept_tools _ _ Htk), ?(kept_prompts _ _ Hpk), ?(kept_resources _ _ Hrk);
    reflexivity.
Qed.

Lemma configuration_failure_throws config msg w :
  configuration_failure config = Some msg ->
  createTransport E config w = (Throw (ErrorInstance msg), w).
Proof.
  unfold configuration_failure, createTransport.
  repeat case_match; intros [= <-]; reflexivity.
Qed.

Lemma establish_configuration_failure config msg w :
  configuration_failure config = Some msg ->
  exists c w1,
    establish E config w = (Throw (ErrorInstance msg), w1) /\
    trace w1 = EvNewClient c :: trace w.
Proof.
  intros Hf. unfold establish, new_Client. unfold bind at 1.
  eexists _, _. unfold bind at 1.
  rewrite (configuration_failure_throws _ _ _ Hf). split; reflexivity.
Qed.

(** [C7] (as amended) A [stdio] configuration without its block, an HTTP or
    SSE configuration without its block or without a URL in it, and a
    configuration whose kind is none of ["stdio"], ["streamable-http"],
    ["sse"], never lead [connect] to start a handshake.  Unless the id is
    already ["connected"] (then the stored status is returned and nothing
    changes), the call yields ["error"] with the message of the refusal,
    which for an unknown kind ends with the kind itself.  A [stdio] block
    without a command is not among these: the selector makes a transport of
    it and the handshake is started. *)
Theorem bad_configuration_fails_without_handshake config msg w :
  configuration_failure config = Some msg ->
  (exists st w',
     connect E config w = (Normal st, w') /\
     no_new_handshake (trace w) (trace w') /\
     (is_connected (clients w !! cfg_id config) = false ->
        status st = error /\ error_message st = Some msg /\
        getStatus w' (cfg_id config) = st) /\
     (is_connected (clients w !! cfg_id config) = true ->
        st = getStatus w (cfg_id config) /\ w' = w)) /\
  (recognized_kind (transportType config) = false ->
     msg = "Unsupported transport type: " ++ transportType config).
Proof.
  intros Hf. split.
  - destruct (is_connected (clients w !! cfg_id config)) eqn:Hc.
    + unfold is_connected in Hc.
      destruct (clients w !! cfg_id config) as [mc|] eqn:Hget; [|discriminate].
      apply bool_decide_eq_true_1 in Hc.
      rewrite (connect_guarded _ _ _ Hget Hc).
      eexists _, _. split; [reflexivity|]. split; [|split; [discriminate|]].
      * intros c t H. exact H.
      * intros _. unfold getStatus. rewrite Hget. split; reflexivity.
    + rewrite (connect_unguarded _ _ Hc).
      destruct (establish_configuration_failure _ _ w Hf) as (c & w1 & He & Htr).
      rewrite (connect_attempt_failed _ _ _ _ He).
      eexists _, _. split; [reflexivity|]. split; [|split; [|discriminate]].
      * intros c' t. simpl. rewrite Htr. intros [H|H]; [discriminate|exact H].
      * intros _. repeat split.
        unfold getStatus. simpl. rewrite lookup_insert_eq. reflexivity.
  - unfold recognized_kind, configuration_failure in *.
    intros Hk. apply orb_false_elim in Hk as [Hk H3].
    apply orb_false_elim in Hk as [H1 H2].
    rewrite H1, H2, H3 in Hf. congruence.
Qed.

(** *** disconnect *)

Lemma close_quietly_none serverId mc w :
  close_attempted mc = None ->
  close_quietly E serverId mc w = (Normal tt, w).
Proof.
  unfold close_attempted, close_quietly, try_catch.
  destruct (mc_client mc) as [c|]; [|reflexivity].
  destruct (bool_decide _); [discriminate|reflexivity].
Qed.

Lemma close_quietly_some serverId mc c w :
  close_attempted mc = Some c ->
  exists w1,
    close_quietly E serverId mc w = (Normal tt, w1) /\
    clients w1 = clients w /\
    (trace w1 = EvClose c :: trace w \/
     exists e, client_close E (trace w) c = rejected e /\
       trace w1 = EvConsoleError ("Error disconnecting from server " ++ serverId ++ ":") e
                    :: EvClose c :: trace w).
Proof.
  unfold close_attempted, close_quietly, try_catch, Client_close.
  destruct (mc_client mc) as [c'|]; [|discriminate].
  destruct (bool_decide _); [|discriminate]. intros [= ->].
  unfold bind, emit, await, console_error, emit.
  destruct (client_close E (trace w) c) as [[]|e] eqn:Hclose; simpl;
    eexists; (split; [reflexivity|]); split; try reflexivity; eauto.
Qed.

Lemma close_quietly_total serverId mc w :
  exists w1, close_quietly E serverId mc w = (Normal tt, w1) /\ clients w1 = clients w.
Proof.
  destruct (close_attempted mc) as [c|] eqn:Hc.
  - destruct (close_quietly_some serverId mc c w Hc) as (w1 & H1 & H2 & _). eauto.
  - rewrite (close_quietly_none serverId mc w Hc). eauto.
Qed.

Lemma disconnect_absent serverId w :
  clients w !! serverId = None ->
  disconnect E serverId w = (Normal (disconnected_status serverId), w).
Proof.
  intros H. unfold disconnect, bind, clients_get. rewrite H. reflexivity.
Qed.

Lemma disconnect_present serverId w mc :
  clients w !! serverId = Some mc ->
  exists w1,
    close_quietly E serverId mc w = (Normal tt, w1) /\
    clients w1 = clients w /\
    disconnect E serverId w =
      (Normal (disconnected_status serverId),
       set_client serverId (disconnected_record mc (disconnected_status serverId)) w1).
Proof.
  intros H. destruct (close_quietly_total serverId mc w) as (w1 & Hq & Hc).
  exists w1. split; [exact Hq|]. split; [exact Hc|].
  unfold disconnect. unfold bind at 1. unfold clients_get. rewrite H.
  unfold bind at 1. rewrite Hq. reflexivity.
Qed.

Lemma disconnect_total serverId w :
  exists w',
    disconnect E serverId w = (Normal (disconnected_status serverId), w') /\
    clients w' =
      match clients w !! serverId with
      | Some mc =>
          <[serverId := disconnected_record mc (disconnected_status serverId)]> (clients w)
      | None => clients w
      end.
Proof.
  destruct (clients w !! serverId) as [mc|] eqn:H.
  - destruct (disconnect_present _ _ _ H) as (w1 & _ & Hc & ->).
    eexists. split; [reflexivity|]. simpl. rewrite Hc. reflexivity.
  - rewrite (disconnect_absent _ _ H). eauto.
Qed.

Lemma close_attempted_disconnected mc serverId :
  close_attempted (disconnected_record mc (disconnected_status serverId)) = None.
Proof.
  unfold close_attempted. simpl. destruct (mc_client mc); reflexivity.
Qed.

Lemma set_client_same serverId mc w :
  clients w !! serverId = Some mc -> set_client serverId mc w = w.
Proof.
  intros H. destruct w as [cl tr al]. unfold set_client. simpl in *.
  f_equal. apply insert_id. exact H.
Qed.

(** [C6] (as amended) [disconnect] never throws.  On an id without a record it
    returns the synthesized ["disconnected"] status and changes nothing.  On a
    record it calls [close()] exactly when the handle is present and the
    status ["connected"], swallows a rejection of it (one [console.error]),
    and stores the record with status ["disconnected"] and no capability
    snapshot, the client handle and the configuration being kept as they
    were.  A second [disconnect] returns the same status and changes nothing. *)
Theorem disconnect_settles serverId w :
  (clients w !! serverId = None ->
     disconnect E serverId w = (Normal (disconnected_status serverId), w)) /\
  (forall mc, clients w !! serverId = Some mc ->
     exists w',
       disconnect E serverId w = (Normal (disconnected_status serverId), w') /\
       clients w' =
         <[serverId := {| mc_client := mc_client mc; mc_config := mc_config mc;
                          mc_status := disconnected_status serverId;
                          mc_capabilities := None |}]> (clients w) /\
       (close_attempted mc = None -> trace w' = trace w) /\
       (forall c, close_attempted mc = Some c ->
          trace w' = EvClose c :: trace w \/
          exists e, client_close E (trace w) c = rejected e /\
            trace w' = EvConsoleError ("Error disconnecting from server " ++ serverId ++ ":") e
                         :: EvClose c :: trace w) /\
       disconnect E serverId w' = (Normal (disconnected_status serverId), w')).
Proof.
  split; [apply disconnect_absent|].
  intros mc Hget.
  destruct (disconnect_present _ _ _ Hget) as (w1 & Hq & Hc & Hd).
  eexists. split; [exact Hd|]. split; [simpl; rewrite Hc; reflexivity|].
  split; [|split].
  - intros Hn. rewrite (close_quietly_none _ _ w Hn) in Hq.
    injection Hq as <-. reflexivity.
  - intros c Hs. destruct (close_quietly_some serverId _ _ w Hs) as (w1' & Hq' & _ & Htr).
    rewrite Hq in Hq'. injection Hq' as <-. exact Htr.
  - set (r := disconnected_record mc (disconnected_status serverId)).
    assert (Hget' : clients (set_client serverId r w1) !! serverId = Some r)
      by (simpl; apply lookup_insert_eq).
    destruct (disconnect_present _ _ _ Hget') as (w2 & Hq2 & _ & ->).
    rewrite close_quietly_none in Hq2 by apply close_attempted_disconnected.
    injection Hq2 as <-.
    f_equal. apply set_client_same. exact Hget'.
Qed.

(** *** callTool, getPrompt, readResource *)

Lemma connected_handle w serverId :
  connected_has_handle w ->
  is_connected (clients w !! serverId) = true ->
  exists mc c, clients w !! serverId = Some mc /\ mc_client mc = Some c.
Proof.
  intros Hinv Hc. unfold is_connected in Hc.
  destruct (clients w !! serverId) as [mc|] eqn:Hget; [|discriminate].
  apply bool_decide_eq_true_1 in Hc.
  destruct (Hinv _ _ Hget Hc) as [c Hcl]. eauto.
Qed.

(** The three invocation methods on a registry whose ["connected"] records
    hold a handle. *)
Lemma invocation_on_registry serverId w :
  connected_has_handle w ->
  (is_connected (clients w !! serverId) = false ->
     (forall toolName args,
        callTool E serverId toolName args w = (Throw (not_connected_error serverId), w)) /\
     (forall promptName args,
        getPrompt E serverId promptName args w = (Throw (not_connected_error serverId), w)) /\
     (forall uri,
        readResource E serverId uri w = (Throw (not_connected_error serverId), w))) /\
  (is_connected (clients w !! serverId) = true ->
     exists mc c,
       clients w !! serverId = Some mc /\ mc_client mc = Some c /\
       (forall toolName args,
          let p := {| call_name := toolName; call_arguments := args_or_empty args |} in
          callTool E serverId toolName args w =
            (completion_of (client_callTool E (trace w) c p), log_event (EvCallTool c p) w)) /\
       (forall promptName args,
          let p := {| get_name := promptName; get_arguments := args |} in
          getPrompt E serverId promptName args w =
            (completion_of (client_getPrompt E (trace w) c p), log_event (EvGetPrompt c p) w)) /\
       (forall uri,
          let p := {| read_uri := uri |} in
          readResource E serverId uri w =
            (completion_of (client_readResource E (trace w) c p),
             log_event (EvReadResource c p) w))).
Proof.
  intros Hinv. split.
  - intros Hc. unfold callTool, getPrompt, readResource, bind, clients_get.
    rewrite Hc. repeat split.
  - intros Hc. destruct (connected_handle _ _ Hinv Hc) as (mc & c & Hget & Hcl).
    exists mc, c. split; [exact Hget|]. split; [exact Hcl|].
    unfold callTool, getPrompt, readResource, bind, clients_get.
    rewrite Hc. rewrite Hget. unfold with_client. destruct mc as [cl cf st cp].
    simpl in Hcl. subst cl. repeat split.
Qed.

Lemma invocation_clients serverId w :
  (forall toolName args, clients (snd (callTool E serverId toolName args w)) = clients w) /\
  (forall promptName args, clients (snd (getPrompt E serverId promptName args w)) = clients w) /\
  (forall uri, clients (snd (readResource E serverId uri w)) = clients w).
Proof.
  unfold callTool, getPrompt, readResource, bind, clients_get, with_client.
  destruct (is_connected (clients w !! serverId)); simpl; [|repeat split].
  destruct (clients w !! serverId) as [[[c|] ? ? ?]|]; repeat split.
Qed.

(** *** disconnectAll *)

Lemma disconnect_lookup serverId w :
  exists w',
    disconnect E serverId w = (Normal (disconnected_status serverId), w') /\
    (forall k, clients w' !! k =
       if bool_decide (k = serverId)
       then disconnected_entry k <$> clients w !! k
       else clients w !! k).
Proof.
  destruct (disconnect_total serverId w) as (w' & Hd & Hc).
  exists w'. split; [exact Hd|]. intros k. rewrite Hc.
  case_bool_decide as Hk.
  - subst k. destruct (clients w !! serverId) as [mc|] eqn:Hget.
    + rewrite lookup_insert_eq. reflexivity.
    + rewrite Hget. reflexivity.
  - destruct (clients w !! serverId); [|reflexivity].
    apply lookup_insert_ne. congruence.
Qed.

Lemma disconnect_each_lookup serverIds : forall w,
  exists w',
    disconnect_each E serverIds w = (Normal tt, w') /\
    (forall k, clients w' !! k =
       if bool_decide (k ∈ serverIds)
       then disconnected_entry k <$> clients w !! k
       else clients w !! k).
Proof.
  induction serverIds as [|serverId rest IH]; intros w.
  - exists w. split; [reflexivity|]. intros k.
    rewrite bool_decide_eq_false_2; [reflexivity|]. apply not_elem_of_nil.
  - destruct (disconnect_lookup serverId w) as (w0 & Hd & H0).
    destruct (IH w0) as (w' & He & H').
    exists w'. split.
    + simpl. unfold bind. rewrite Hd. exact He.
    + intros k. rewrite H', H0.
      destruct (decide (k = serverId)) as [->|Hne].
      * rewrite (bool_decide_eq_true_2 (serverId = serverId)) by reflexivity.
        rewrite (bool_decide_eq_true_2 (serverId ∈ serverId :: rest)) by apply list_elem_of_here.
        case_bool_decide; [|reflexivity].
        destruct (clients w !! serverId); reflexivity.
      * rewrite (bool_decide_eq_false_2 (k = serverId)) by exact Hne.
        apply (f_equal (fun b : bool => if b then _ else _)).
        apply bool_decide_ext. rewrite elem_of_cons. tauto.
Qed.

(** [disconnect] is its two parts, the second taken up at once. *)
Lemma disconnect_begin_cases serverId w :
  match clients w !! serverId with
  | None => disconnect_begin E serverId w = (Normal None, w)
  | Some mc =>
      match close_attempted mc with
      | Some c =>
          disconnect_begin E serverId w
            = (Normal (Some {| closing_id := serverId; closing_record := mc;
                               closing_promise := client_close E (trace w) c |}),
               log_event (EvClose c) w)
      | None =>
          disconnect_begin E serverId w
            = (Normal None, set_client serverId (disconnected_entry serverId mc) w)
      end
  end.
Proof.
  unfold disconnect_begin, bind, clients_get, close_attempted.
  destruct (clients w !! serverId) as [mc|]; [|reflexivity].
  destruct (mc_client mc) as [c|]; [|reflexivity].
  destruct (bool_decide _); reflexivity.
Qed.

Lemma disconnect_finish_cases p w :
  exists w',
    disconnect_finish p w = (Normal (disconnected_status (closing_id p)), w') /\
    clients w'
      = <[closing_id p := disconnected_entry (closing_id p) (closing_record p)]> (clients w) /\
    allocated w' = allocated w /\
    (trace w' = trace w \/
     exists e, closing_promise p = rejected e /\
       trace w' = EvConsoleError ("Error disconnecting from server " ++ closing_id p ++ ":") e
                    :: trace w).
Proof.
  unfold disconnect_finish, bind, try_catch, await, console_error, emit, clients_set.
  destruct (closing_promise p) as [[]|e]; simpl;
    eexists; (split; [reflexivity|]); (split; [reflexivity|]); (split; [reflexivity|]); eauto.
Qed.

Lemma disconnect_in_two_parts serverId w :
  disconnect E serverId w
    = (do p <- disconnect_begin E serverId ;;
       match p with
       | Some p => disconnect_finish p
       | None => ret (disconnected_status serverId)
       end) w.
Proof.
  unfold bind at 1. pose proof (disconnect_begin_cases serverId w) as Hb.
  unfold disconnect, bind at 1, clients_get.
  destruct (clients w !! serverId) as [mc|]; [|rewrite Hb; reflexivity].
  unfold close_attempted in Hb. unfold close_quietly, try_catch, Client_close.
  destruct (mc_client mc) as [c|]; [|rewrite Hb; reflexivity].
  destruct (bool_decide _); [|rewrite Hb; reflexivity].
  rewrite Hb. unfold disconnect_finish, bind, try_catch, emit, await, console_error, emit,
    clients_set, ret. simpl.
  destruct (client_close E (trace w) c) as [[]|e]; reflexivity.
Qed.

(** The record of an id once [disconnect] has been called for it and has
    run as far as its [await]. *)
Lemma disconnect_begin_lookup serverId w :
  exists p w1,
    disconnect_begin E serverId w = (Normal p, w1) /\
    allocated w1 = allocated w /\
    (forall k, clients w1 !! k =
       if bool_decide (k = serverId)
       then begun k <$> clients w !! k
       else clients w !! k) /\
    (forall q, p = Some q ->
       closing_id q = serverId /\ clients w !! serverId = Some (closing_record q) /\
       exists c, close_attempted (closing_record q) = Some c /\
         trace w1 = EvClose c :: trace w) /\
    (p = None ->
       trace w1 = trace w /\
       forall mc, clients w !! serverId = Some mc -> close_attempted mc = None).
Proof.
  pose proof (disconnect_begin_cases serverId w) as Hb.
  destruct (clients w !! serverId) as [mc|] eqn:Hget;
    [destruct (close_attempted mc) as [c|] eqn:Hc|]; rewrite Hb; clear Hb.
  - eexists _, _. split; [reflexivity|]. split; [reflexivity|]. split; [|split].
    + intros k. simpl. case_bool_decide as Hk; [|reflexivity].
      subst k. rewrite Hget. simpl. unfold begun. rewrite Hc. reflexivity.
    + intros q [= <-]. simpl. repeat split. eauto.
    + discriminate.
  - eexists _, _. split; [reflexivity|]. split; [reflexivity|]. split; [|split].
    + intros k. simpl. case_bool_decide as Hk.
      * subst k. rewrite lookup_insert_eq, Hget. simpl. unfold begun. rewrite Hc. reflexivity.
      * apply lookup_insert_ne. congruence.
    + discriminate.
    + intros _. split; [reflexivity|]. intros mc' [= <-]. exact Hc.
  - eexists _, _. split; [reflexivity|]. split; [reflexivity|]. split; [|split].
    + intros k. case_bool_decide as Hk; [|reflexivity]. subst k. rewrite Hget. reflexivity.
    + discriminate.
    + intros _. split; [reflexivity|]. discriminate.
Qed.

Lemma close_attempted_begun k mc : close_attempted (begun k mc) = close_attempted mc.
Proof.
  unfold begun. destruct (close_attempted mc) eqn:Hc; [exact Hc|].
  apply close_attempted_disconnected.
Qed.

Lemma begun_begun k mc : begun k (begun k mc) = begun k mc.
Proof.
  unfold begun at 1. rewrite close_attempted_begun.
  unfold begun. destruct (close_attempted mc) eqn:Hc; [reflexivity|].
  reflexivity.
Qed.

Lemma begun_paused k mc c : close_attempted (begun k mc) = Some c -> begun k mc = mc.
Proof.
  rewrite close_attempted_begun. unfold begun. intros ->. reflexivity.
Qed.

(** Once every call of [disconnect] has been made: the records that are due
    no [close()] are disconnected, the others are as they were, with a
    paused call and a [close()] sent for each of them. *)
Lemma disconnect_begin_each_lookup serverIds : forall w,
  exists paused w1,
    disconnect_begin_each E serverIds w = (Normal paused, w1) /\
    allocated w1 = allocated w /\
    (forall k, clients w1 !! k =
       if bool_decide (k ∈ serverIds)
       then begun k <$> clients w !! k
       else clients w !! k) /\
    (forall p, p ∈ paused ->
       closing_id p ∈ serverIds /\ clients w !! closing_id p = Some (closing_record p) /\
       exists c, close_attempted (closing_record p) = Some c) /\
    (forall k mc c, k ∈ serverIds -> clients w !! k = Some mc -> close_attempted mc = Some c ->
       k ∈ closing_id <$> paused /\ EvClose c ∈ trace w1) /\
    (forall ev, ev ∈ trace w -> ev ∈ trace w1).
Proof.
  induction serverIds as [|serverId rest IH]; intros w.
  - exists [], w. split; [reflexivity|]. split; [reflexivity|]. split; [|split; [|split]].
    + intros k. rewrite bool_decide_eq_false_2; [reflexivity|]. apply not_elem_of_nil.
    + intros p Hp. apply not_elem_of_nil in Hp. contradiction.
    + intros k mc c Hk. apply not_elem_of_nil in Hk. contradiction.
    + auto.
  - destruct (disconnect_begin_lookup serverId w) as (p & w0 & Hb & Hal0 & Hl0 & Hsome & Hnone).
    destruct (IH w0) as (paused & w1 & He & Hal1 & Hl1 & Hin1 & Hout1 & Hmono1).
    assert (Hmono0 : forall ev, ev ∈ trace w -> ev ∈ trace w0).
    { intros ev Hev. destruct p as [q|].
      - destruct (Hsome q eq_refl) as (_ & _ & c & _ & ->). apply list_elem_of_further, Hev.
      - destruct (Hnone eq_refl) as [-> _]. exact Hev. }
    (* a record of [w0] that is due a [close()] is the one of [w] *)
    assert (Hdue : forall k mc c, clients w0 !! k = Some mc -> close_attempted mc = Some c ->
              clients w !! k = Some mc).
    { intros k mc c Hget Hc. rewrite Hl0 in Hget. case_bool_decide as Hk; [|exact Hget].
      destruct (clients w !! k) as [mc0|]; [|discriminate]. injection Hget as <-.
      rewrite (begun_paused _ _ _ Hc). reflexivity. }
    exists (match p with Some q => q :: paused | None => paused end), w1.
    split; [simpl; unfold bind; rewrite Hb, He; reflexivity|].
    split; [congruence|]. split; [|split; [|split]].
    + intros k. rewrite Hl1, Hl0.
      destruct (decide (k = serverId)) as [->|Hne].
      * rewrite (bool_decide_eq_true_2 (serverId = serverId)) by reflexivity.
        rewrite (bool_decide_eq_true_2 (serverId ∈ serverId :: rest)) by apply list_elem_of_here.
        case_bool_decide; [|reflexivity].
        destruct (clients w !! serverId); [|reflexivity]. simpl. rewrite begun_begun. reflexivity.
      * rewrite (bool_decide_eq_false_2 (k = serverId)) by exact Hne.
        apply (f_equal (fun b : bool => if b then _ else _)).
        apply bool_decide_ext. rewrite elem_of_cons. tauto.
    + assert (Hrest : forall q, q ∈ paused ->
                closing_id q ∈ serverId :: rest /\
                clients w !! closing_id q = Some (closing_record q) /\
                exists c, close_attempted (closing_record q) = Some c).
      { intros q Hq. destruct (Hin1 q Hq) as (Hid & Hget & c & Hc).
        split; [apply list_elem_of_further, Hid|]. split; [|eauto].
        exact (Hdue _ _ _ Hget Hc). }
      intros q Hq. destruct p as [q0|]; [|exact (Hrest q Hq)].
      apply elem_of_cons in Hq as [->|Hq]; [|exact (Hrest q Hq)].
      destruct (Hsome q0 eq_refl) as (-> & Hget0 & c & Hc & _).
      split; [apply list_elem_of_here|]. split; [exact Hget0|eauto].
    + intros k mc c Hk Hget Hc.
      destruct (decide (k = serverId)) as [->|Hne].
      * destruct p as [q|].
        -- destruct (Hsome q eq_refl) as (Hid & Hget0 & c0 & Hc0 & Htr).
           rewrite Hget in Hget0. injection Hget0 as Hrec. rewrite <- Hrec, Hc in Hc0.
           injection Hc0 as <-. split.
           ++ rewrite fmap_cons, Hid. apply list_elem_of_here.
           ++ apply Hmono1. rewrite Htr. apply list_elem_of_here.
        -- destruct (Hnone eq_refl) as [_ Hn]. rewrite (Hn mc Hget) in Hc. discriminate.
      * apply elem_of_cons in Hk as [Hk|Hk]; [contradiction|].
        assert (Hget0 : clients w0 !! k = Some mc)
          by (rewrite Hl0, bool_decide_eq_false_2 by exact Hne; exact Hget).
        destruct (Hout1 k mc c Hk Hget0 Hc) as [Hin Hev]. split; [|exact Hev].
        destruct p; [rewrite fmap_cons; apply list_elem_of_further|]; exact Hin.
    + intros ev Hev. apply Hmono1, Hmono0, Hev.
Qed.

(** Once the paused calls have gone on: their records are disconnected. *)
Lemma disconnect_finish_each_lookup (records : gmap string ManagedClient) paused : forall w1,
  (forall p, p ∈ paused -> records !! closing_id p = Some (closing_record p)) ->
  exists w',
    disconnect_finish_each paused w1 = (Normal tt, w') /\
    allocated w' = allocated w1 /\
    (forall k, clients w' !! k =
       if bool_decide (k ∈ closing_id <$> paused)
       then disconnected_entry k <$> records !! k
       else clients w1 !! k) /\
    (forall ev, ev ∈ trace w1 -> ev ∈ trace w').
Proof.
  induction paused as [|p rest IH]; intros w1 Hrec.
  - exists w1. split; [reflexivity|]. split; [reflexivity|]. split; [|auto].
    intros k. rewrite bool_decide_eq_false_2; [reflexivity|]. apply not_elem_of_nil.
  - destruct (disconnect_finish_cases p w1) as (w2 & Hf & Hcl & Hal & Htr).
    destruct (IH w2) as (w' & He & Hal' & Hl & Hmono).
    { intros q Hq. apply Hrec, list_elem_of_further, Hq. }
    exists w'. split; [simpl; unfold bind; rewrite Hf; exact He|].
    split; [congruence|]. split.
    + intros k. rewrite Hl, Hcl, fmap_cons.
      destruct (decide (k = closing_id p)) as [->|Hne].
      * rewrite (bool_decide_eq_true_2 (closing_id p ∈ closing_id p :: _))
          by apply list_elem_of_here.
        rewrite lookup_insert_eq, (Hrec p) by apply list_elem_of_here.
        case_bool_decide; reflexivity.
      * rewrite lookup_insert_ne by congruence.
        apply (f_equal (fun b : bool => if b then _ else _)).
        apply bool_decide_ext. rewrite elem_of_cons. tauto.
    + intros ev Hev. apply Hmono.
      destruct Htr as [->|(e & _ & ->)]; [|apply list_elem_of_further]; exact Hev.
Qed.

Lemma elem_of_clients_keys w k :
  k ∈ clients_keys w <-> is_Some (clients w !! k).
Proof.
  unfold clients_keys. rewrite list_elem_of_fmap. split.
  - intros ([k' mc] & -> & Hin). apply elem_of_map_to_list in Hin. eauto.
  - intros [mc Hget]. exists (k, mc). split; [reflexivity|].
    apply elem_of_map_to_list. exact Hget.
Qed.

(** What [disconnectAll] leaves: every record disconnected, and a [close()]
    sent to every handle that was due one. *)
Lemma disconnectAll_effect w :
  exists w',
    disconnectAll E w = (Normal tt, w') /\
    (forall k, clients w' !! k = disconnected_entry k <$> clients w !! k) /\
    (forall k mc c, clients w !! k = Some mc -> close_attempted mc = Some c ->
       EvClose c ∈ trace w').
Proof.
  unfold disconnectAll, bind.
  destruct (disconnect_begin_each_lookup (clients_keys w) w)
    as (paused & w1 & -> & _ & Hl1 & Hin & Hout & _).
  destruct (disconnect_finish_each_lookup (clients w) paused w1) as (w' & -> & _ & Hl & Hmono).
  { intros p Hp. apply (Hin p Hp). }
  exists w'. split; [reflexivity|]. split.
  - intros k. rewrite Hl, Hl1. case_bool_decide as Hp; [reflexivity|].
    destruct (clients w !! k) as [mc|] eqn:Hget.
    + rewrite bool_decide_eq_true_2 by (apply elem_of_clients_keys; eauto). simpl.
      unfold begun. destruct (close_attempted mc) as [c|] eqn:Hc; [|reflexivity].
      exfalso. apply Hp. refine (proj1 (Hout k mc c _ Hget Hc)).
      apply elem_of_clients_keys. eauto.
    + case_bool_decide; reflexivity.
  - intros k mc c Hget Hc. apply Hmono. refine (proj2 (Hout k mc c _ Hget Hc)).
    apply elem_of_clients_keys. eauto.
Qed.

Lemma disconnectAll_lookup w :
  exists w',
    disconnectAll E w = (Normal tt, w') /\
    (forall k, clients w' !! k = disconnected_entry k <$> clients w !! k).
Proof.
  destruct (disconnectAll_effect w) as (w' & Hd & Hl & _). eauto.
Qed.

(** The trace only grows under [disconnect], and a handle that was due a
    [close()] has got it. *)
Lemma disconnect_trace serverId w :
  (forall ev, ev ∈ trace w -> ev ∈ trace (snd (disconnect E serverId w))) /\
  (forall mc c, clients w !! serverId = Some mc -> close_attempted mc = Some c ->
     EvClose c ∈ trace (snd (disconnect E serverId w))).
Proof.
  destruct (clients w !! serverId) as [mc|] eqn:Hget.
  - destruct (disconnect_present _ _ _ Hget) as (w1 & Hq & _ & ->). simpl.
    destruct (close_attempted mc) as [c|] eqn:Hc.
    + destruct (close_quietly_some serverId _ _ w Hc) as (w1' & Hq' & _ & Htr).
      rewrite Hq in Hq'. injection Hq' as <-.
      split.
      * intros ev Hev. destruct Htr as [->|(e & _ & ->)];
          repeat apply list_elem_of_further; exact Hev.
      * intros mc' c' [= <-] Hc'. rewrite Hc in Hc'. injection Hc' as <-.
        destruct Htr as [->|(e & _ & ->)].
        -- apply list_elem_of_here.
        -- apply list_elem_of_further, list_elem_of_here.
    + rewrite (close_quietly_none _ _ w Hc) in Hq. injection Hq as <-.
      split; [auto|]. intros mc' c' [= <-]. congruence.
  - rewrite (disconnect_absent _ _ Hget). simpl. split; [auto|]. discriminate.
Qed.

Lemma disconnect_each_trace serverIds : forall w,
  (forall ev, ev ∈ trace w -> ev ∈ trace (snd (disconnect_each E serverIds w))) /\
  (forall k mc c, k ∈ serverIds -> clients w !! k = Some mc -> close_attempted mc = Some c ->
     EvClose c ∈ trace (snd (disconnect_each E serverIds w))).
Proof.
  induction serverIds as [|serverId rest IH]; intros w.
  - split; [auto|]. intros k mc c Hk. apply not_elem_of_nil in Hk. contradiction.
  - destruct (disconnect_lookup serverId w) as (w0 & Hd & H0).
    destruct (disconnect_trace serverId w) as [Hmono Hclose].
    rewrite Hd in Hmono, Hclose. simpl in Hmono, Hclose.
    destruct (IH w0) as [IHmono IHclose].
    assert (Heq : snd (disconnect_each E (serverId :: rest) w) = snd (disconnect_each E rest w0))
      by (simpl; unfold bind; rewrite Hd; reflexivity).
    rewrite Heq. split.
    + intros ev Hev. apply IHmono, Hmono, Hev.
    + intros k mc c Hk Hget Hc.
      destruct (decide (k = serverId)) as [->|Hne].
      * apply IHmono. eapply Hclose; eassumption.
      * apply elem_of_cons in Hk as [Hk|Hk]; [contradiction|].
        apply (IHclose k mc c Hk); [|exact Hc].
        rewrite H0, bool_decide_eq_false_2 by exact Hne. exact Hget.
Qed.

(** The registry that [disconnect_each] leaves does not depend on the order in
    which the ids are taken. *)
Lemma disconnect_each_any_order serverIds serverIds' w :
  serverIds ≡ₚ serverIds' ->
  clients (snd (disconnect_each E serverIds w))
    = clients (snd (disconnect_each E serverIds' w)).
Proof.
  intros Hperm.
  destruct (disconnect_each_lookup serverIds w) as (w1 & -> & H1).
  destruct (disconnect_each_lookup serverIds' w) as (w2 & -> & H2).
  apply map_eq. intros k. simpl. rewrite H1, H2.
  apply (f_equal (fun b : bool => if b then _ else _)).
  apply bool_decide_ext. rewrite Hperm. reflexivity.
Qed.

(** [C8] [disconnectAll] never throws and returns once every tracked id has
    been disconnected: each record is replaced by its disconnected form
    (whatever the order in which the disconnects run), every handle that was
    due a [close()] has got one, and no id is added or removed.  Afterwards
    every status [getAllStatuses] lists is ["disconnected"]; for an id that
    was ["connected"] the list contains its ["disconnected"] status and
    [getCapabilities] returns [null]. *)
Theorem disconnectAll_disconnects_everything w :
  exists w',
    disconnectAll E w = (Normal tt, w') /\
    (forall k, clients w' !! k = disconnected_entry k <$> clients w !! k) /\
    (forall order, order ≡ₚ clients_keys w ->
       clients (snd (disconnect_each E order w)) = clients w') /\
    (forall k mc c, clients w !! k = Some mc -> close_attempted mc = Some c ->
       EvClose c ∈ trace w') /\
    (forall st, st ∈ getAllStatuses w' -> status st = disconnected) /\
    (forall k mc, clients w !! k = Some mc -> status (mc_status mc) = connected ->
       disconnected_status k ∈ getAllStatuses w' /\
       getStatus w' k = disconnected_status k /\
       getCapabilities w' k = None).
Proof.
  destruct (disconnectAll_effect w) as (w' & Hd & Hl & Hclose).
  exists w'. split; [exact Hd|]. split; [exact Hl|]. split; [|split; [|split]].
  - intros order Hperm.
    destruct (disconnect_each_lookup order w) as (w1 & -> & H1).
    apply map_eq. intros k. simpl. rewrite H1, Hl.
    case_bool_decide as Hk; [reflexivity|].
    destruct (clients w !! k) as [mc|] eqn:Hget; [|reflexivity].
    exfalso. apply Hk. rewrite Hperm. apply elem_of_clients_keys. eauto.
  - exact Hclose.
  - intros st Hst. unfold getAllStatuses in Hst.
    apply list_elem_of_fmap in Hst as ([k mc'] & -> & Hin).
    apply elem_of_map_to_list in Hin. rewrite Hl in Hin.
    destruct (clients w !! k) as [mc|]; [|discriminate].
    injection Hin as <-. reflexivity.
  - intros k mc Hget _.
    assert (Hget' : clients w' !! k = Some (disconnected_entry k mc))
      by (rewrite Hl, Hget; reflexivity).
    split; [|split].
    + unfold getAllStatuses. apply list_elem_of_fmap.
      exists (k, disconnected_entry k mc). split; [reflexivity|].
      apply elem_of_map_to_list. exact Hget'.
    + unfold getStatus. rewrite Hget'. reflexivity.
    + unfold getCapabilities. rewrite Hget'. reflexivity.
Qed.

(** *** The registry invariant *)

(** What [connect] can do to the map: nothing, or one write under [config.id]
    of a record that is not ["connected"] unless it holds a handle. *)
Lemma connect_writes config w :
  clients (snd (connect E config w)) = clients w \/
  exists mc,
    clients (snd (connect E config w)) = <[cfg_id config := mc]> (clients w) /\
    (status (mc_status mc) = connected -> is_Some (mc_client mc)).
Proof.
  destruct (is_connected (clients w !! cfg_id config)) eqn:Hc.
  - unfold is_connected in Hc.
    destruct (clients w !! cfg_id config) as [mc|] eqn:Hget; [|discriminate].
    apply bool_decide_eq_true_1 in Hc.
    rewrite (connect_guarded _ _ _ Hget Hc). left. reflexivity.
  - rewrite (connect_unguarded _ _ Hc). right.
    destruct (establish E config w) as [[c|e] w1] eqn:He;
      pose proof (establish_clients _ _ _ _ He) as Hcl.
    + rewrite (connect_attempt_established _ _ _ _ He). simpl. rewrite Hcl.
      eexists. split; [reflexivity|]. simpl. eauto.
    + rewrite (connect_attempt_failed _ _ _ _ He). simpl. rewrite Hcl.
      eexists. split; [reflexivity|]. simpl. discriminate.
Qed.

Lemma step_preserves_handles c w :
  connected_has_handle w -> connected_has_handle (step E c w).
Proof.
  intros Hinv. destruct c as [config|serverId| | | | |serverId ? ?|serverId ? ?|serverId ?];
    simpl; try exact Hinv.
  - destruct (connect_writes config w) as [Heq|(mc & Heq & Hmc)];
      intros k mc' Hget Hst; rewrite Heq in Hget.
    + exact (Hinv _ _ Hget Hst).
    + destruct (decide (k = cfg_id config)) as [->|Hne].
      * rewrite lookup_insert_eq in Hget. injection Hget as <-. auto.
      * rewrite lookup_insert_ne in Hget by congruence. exact (Hinv _ _ Hget Hst).
  - destruct (disconnect_lookup serverId w) as (w' & -> & Hl).
    intros k mc' Hget Hst. simpl in Hget. rewrite Hl in Hget.
    case_bool_decide.
    + destruct (clients w !! k); [|discriminate]. injection Hget as <-. discriminate.
    + exact (Hinv _ _ Hget Hst).
  - destruct (disconnectAll_lookup w) as (w' & -> & Hl).
    intros k mc' Hget Hst. simpl in Hget. rewrite Hl in Hget.
    destruct (clients w !! k); [|discriminate]. injection Hget as <-. discriminate.
  - intros k mc Hget Hst. rewrite (proj1 (invocation_clients serverId w)) in Hget.
    exact (Hinv _ _ Hget Hst).
  - intros k mc Hget Hst. rewrite (proj1 (proj2 (invocation_clients serverId w))) in Hget.
    exact (Hinv _ _ Hget Hst).
  - intros k mc Hget Hst. rewrite (proj2 (proj2 (invocation_clients serverId w))) in Hget.
    exact (Hinv _ _ Hget Hst).
Qed.

Lemma run_calls_preserves_handles calls : forall w,
  connected_has_handle w -> connected_has_handle (run_calls E calls w).
Proof.
  induction calls as [|c calls IH]; intros w Hinv; [exact Hinv|].
  simpl. apply IH, step_preserves_handles, Hinv.
Qed.

Lemma initial_world_has_handles : connected_has_handle initial_world.
Proof. intros k mc Hget. simpl in Hget. rewrite lookup_empty in Hget. discriminate. Qed.

(** A call that is not a [connect] for the id does not create its record. *)
Lemma step_keeps_absent c w serverId :
  (forall config, c = CallConnect config -> cfg_id config <> serverId) ->
  clients w !! serverId = None ->
  clients (step E c w) !! serverId = None.
Proof.
  intros Hc Habs. destruct c as [config|k| | | | |k ? ?|k ? ?|k ?]; simpl; try exact Habs.
  - destruct (connect_writes config w) as [->|(mc & -> & _)]; [exact Habs|].
    rewrite lookup_insert_ne; [exact Habs|]. exact (Hc config eq_refl).
  - destruct (disconnect_lookup k w) as (w' & -> & Hl). simpl. rewrite Hl.
    case_bool_decide; rewrite Habs; reflexivity.
  - destruct (disconnectAll_lookup w) as (w' & -> & Hl). simpl. rewrite Hl, Habs.
    reflexivity.
  - rewrite (proj1 (invocation_clients k w)). exact Habs.
  - rewrite (proj1 (proj2 (invocation_clients k w))). exact Habs.
  - rewrite (proj2 (proj2 (invocation_clients k w))). exact Habs.
Qed.

Lemma run_calls_keeps_absent calls serverId : forall w,
  ~ connect_requested calls serverId ->
  clients w !! serverId = None ->
  clients (run_calls E calls w) !! serverId = None.
Proof.
  induction calls as [|c calls IH]; intros w Hreq Habs; [exact Habs|].
  simpl. apply IH.
  - intros (config & Hin & Hid). apply Hreq. exists config. split; [right; exact Hin|exact Hid].
  - apply step_keeps_absent; [|exact Habs].
    intros config -> Hid. apply Hreq. exists config. split; [left; reflexivity|exact Hid].
Qed.



(** [C2] (as amended) Every call of the manager keeps the invariant that a
    ["connected"] record holds a client handle, so it holds after any history
    of calls from the empty registry.  An id for which [connect] was never
    called has no record, and [getStatus] synthesizes ["disconnected"] for
    it.  A [connect] that fails does leave a record, with status ["error"]. *)
Theorem registry_invariant calls :
  (forall c w, connected_has_handle w -> connected_has_handle (step E c w)) /\
  connected_has_handle (run_calls E calls initial_world) /\
  (forall serverId,
     ~ connect_requested calls serverId ->
     clients (run_calls E calls initial_world) !! serverId = None /\
     getStatus (run_calls E calls initial_world) serverId = disconnected_status serverId) /\
  (forall config w e w1,
     is_connected (clients w !! cfg_id config) = false ->
     establish E config w = (Throw e, w1) ->
     clients (step E (CallConnect config) w) !! cfg_id config
       = Some (failed_record config e)).
Proof.
  split; [exact step_preserves_handles|]. split; [|split].
  - apply run_calls_preserves_handles, initial_world_has_handles.
  - intros serverId Hreq.
    assert (Habs : clients (run_calls E calls initial_world) !! serverId = None)
      by (apply run_calls_keeps_absent; [exact Hreq|apply lookup_empty]).
    split; [exact Habs|]. unfold getStatus. rewrite Habs. reflexivity.
  - intros config w e w1 Hc He. simpl.
    rewrite (connect_unguarded _ _ Hc), (connect_attempt_failed _ _ _ _ He). simpl.
    apply lookup_insert_eq.
Qed.

End ManagerFacts.

(** * Properties of the configuration store *)

Section StorageFacts.

Import mcpStorage.

Variable P : Platform.

Lemma getServers_stored b l :
  window_defined b = true ->
  localStorage b !! STORAGE_KEY = Some (JsonOf {| servers := l; version := STORAGE_VERSION |}) ->
  fst (getServers b) = l.
Proof. intros Hw Hs. unfold getServers. rewrite Hw, Hs. reflexivity. Qed.

(** [getServers] reads the window flag and the storage, nothing else. *)
Lemma getServers_reads b b' :
  window_defined b = window_defined b' ->
  localStorage b = localStorage b' ->
  fst (getServers b) = fst (getServers b').
Proof.
  intros Hw Hs. unfold getServers. rewrite Hw, Hs.
  destruct (window_defined b'); [|reflexivity]. simpl.
  destruct (localStorage b' !! STORAGE_KEY) as [[d| |[|a t]]|]; reflexivity.
Qed.

Lemma getServers_keeps b :
  window_defined (snd (getServers b)) = window_defined b /\
  localStorage (snd (getServers b)) = localStorage b /\
  quota_exceeded (snd (getServers b)) = quota_exceeded b.
Proof.
  unfold getServers. destruct (window_defined b) eqn:Hw; simpl; [|auto].
  destruct (localStorage b !! STORAGE_KEY) as [[d| |[|a t]]|]; simpl; auto.
Qed.

Lemma saveServers_then_get l b :
  window_defined b = true -> quota_exceeded b = false ->
  fst (getServers (saveServers l b)) = l.
Proof.
  intros Hw Hq. apply getServers_stored.
  - unfold saveServers. rewrite Hw, Hq. exact Hw.
  - unfold saveServers. rewrite Hw, Hq. simpl. apply lookup_insert_eq.
Qed.

(** A write that the storage does not take leaves the stored list as it
    was. *)
Lemma saveServers_lost l b :
  window_defined b = false \/ quota_exceeded b = true ->
  fst (getServers (saveServers l b)) = fst (getServers b).
Proof.
  intros H.
  assert (Hsame : window_defined (saveServers l b) = window_defined b /\
                  localStorage (saveServers l b) = localStorage b).
  { unfold saveServers. destruct (window_defined b) eqn:Hw; simpl; [|auto].
    destruct H as [H|H]; [discriminate|]. rewrite H. auto. }
  apply getServers_reads; apply Hsame.
Qed.

(** The [k]-th imported entry takes the [k]-th id generated by the call. *)
Lemma import_each_spec servers t : forall b,
  fst (import_each P servers t b)
    = imap (fun k server => imported_server server (generateId_nth P (ids_made b + k)) t) servers
  /\ window_defined (snd (import_each P servers t b)) = window_defined b
  /\ localStorage (snd (import_each P servers t b)) = localStorage b
  /\ quota_exceeded (snd (import_each P servers t b)) = quota_exceeded b.
Proof.
  induction servers as [|server rest IH]; intros b; [simpl; auto|].
  simpl. destruct (import_each P rest t _) as [imported b2] eqn:Hrest.
  specialize (IH (snd (generateId P b))). unfold generateId in IH at 1 2 3 4.
  unfold generateId in Hrest. simpl in IH. rewrite Hrest in IH. simpl in IH.
  destruct IH as (IH1 & IH2 & IH3 & IH4). simpl.
  repeat split; try assumption.
  rewrite IH1. f_equal; [f_equal; f_equal; lia|].
  apply imap_ext. intros k x _. simpl. f_equal. f_equal. lia.
Qed.

Lemma exportServers_servers (Q : Platform) b :
  exp_servers (fst (exportServers Q b))
    = List.map (fun s => {| exp_name := cfg_name s;
                            exp_transportType := transportType s;
                            exp_stdioConfig := stdioConfig s;
                            exp_httpConfig := httpConfig s;
                            exp_enabled := enabled s |}) (fst (getServers b)).
Proof. unfold exportServers. destruct (getServers b). reflexivity. Qed.

Lemma importServers_merge data merge b :
  default true merge = true ->
  let t := clock_nth P (clock_reads b) in
  let imported :=
    imap (fun k server => imported_server server (generateId_nth P (ids_made b + k)) t)
         (exp_servers data) in
  fst (importServers P data merge b) = (fst (getServers b) ++ imported)%list /\
  (window_defined b = true -> quota_exceeded b = false ->
   fst (getServers (snd (importServers P data merge b)))
     = (fst (getServers b) ++ imported)%list) /\
  (window_defined b = false \/ quota_exceeded b = true ->
   fst (getServers (snd (importServers P data merge b))) = fst (getServers b)).
Proof.
  intros Hm. unfold importServers. rewrite Hm. unfold Date_now.
  set (b1 := {| window_defined := _ |}).
  destruct (import_each_spec (exp_servers data) (clock_nth P (clock_reads b)) b1)
    as (H1 & H2 & H3 & H4).
  destruct (import_each P (exp_servers data) _ b1) as [imported b2]. simpl in *.
  destruct (getServers_keeps b2) as (K1 & K2 & K3).
  pose proof (getServers_reads b2 b (eq_trans H2 eq_refl) (eq_trans H3 eq_refl)) as Hr.
  pose proof (getServers_reads (snd (getServers b2)) b) as Hr3.
  destruct (getServers b2) as [existing b3]. simpl in *. subst imported existing.
  split; [reflexivity|]. split.
  - intros Hw Hq. apply saveServers_then_get; congruence.
  - intros Hlost. rewrite saveServers_lost by (rewrite K1, K3, H2, H4; exact Hlost).
    apply Hr3; congruence.
Qed.

(** [C9] (as amended) Importing with [merge] (given as [true] or left to its
    default) what was exported from [N] stored configurations, over [M]
    stored configurations, returns the [M] old entries followed by [N] new
    ones.  The [k]-th new entry has the fields of the [k]-th exported
    configuration, the [k]-th id that [generateId] produces during the call,
    and the time read at the start of the call as [createdAt] and
    [updatedAt]: nothing of the id or the timestamps the configuration had
    before the export enters it.  In a browser whose storage takes the write
    these [N+M] entries are the stored set afterwards; where the write is
    lost (no window, or [setItem] throws) the stored set is the [M] old
    entries.  With a [generateId] that never gives the same id twice, a new
    id is none of the ids made before the call, and no two new entries share
    one. *)
Theorem import_after_export_merges (P_src : Platform) (src dst : Browser) merge :
  default true merge = true ->
  let data := fst (exportServers P_src src) in
  let exported := fst (getServers src) in
  let existing := fst (getServers dst) in
  let result := fst (importServers P data merge dst) in
  let stored := fst (getServers (snd (importServers P data merge dst))) in
  length result = length exported + length existing /\
  (forall k s, existing !! k = Some s -> result !! k = Some s) /\
  (forall k s, exported !! k = Some s ->
     result !! (length existing + k) =
       Some {| cfg_id := generateId_nth P (ids_made dst + k);
               cfg_name := cfg_name s;
               transportType := transportType s;
               stdioConfig := stdioConfig s;
               httpConfig := httpConfig s;
               enabled := enabled s;
               createdAt := clock_nth P (clock_reads dst);
               updatedAt := clock_nth P (clock_reads dst) |}) /\
  (window_defined dst = true -> quota_exceeded dst = false -> stored = result) /\
  (window_defined dst = false \/ quota_exceeded dst = true -> stored = existing) /\
  ((forall i j, generateId_nth P i = generateId_nth P j -> i = j) ->
   forall k r,
     k < length exported -> result !! (length existing + k) = Some r ->
     (forall j, j < ids_made dst -> cfg_id r <> generateId_nth P j) /\
     (forall k' r',
        k' < length exported -> result !! (length existing + k') = Some r' ->
        cfg_id r' = cfg_id r -> k' = k)).
Proof.
  intros Hm. simpl.
  destruct (importServers_merge (fst (exportServers P_src src)) merge dst Hm)
    as (Hres & Hst & Hlost).
  rewrite Hres.
  rewrite (exportServers_servers P_src) in *.
  assert (Hmap : forall {A B} (f : A -> B) (l : list A), List.map f l = f <$> l)
    by (intros A B f l; induction l; simpl; f_equal; auto).
  assert (Hnew : forall k s, (getServers src).1 !! k = Some s ->
            ((getServers dst).1 ++
               imap (fun k server =>
                       imported_server server (generateId_nth P (ids_made dst + k))
                         (clock_nth P (clock_reads dst)))
                 (List.map (fun s => {| exp_name := cfg_name s;
                                        exp_transportType := transportType s;
                                        exp_stdioConfig := stdioConfig s;
                                        exp_httpConfig := httpConfig s;
                                        exp_enabled := enabled s |}) (getServers src).1))%list
              !! (length (getServers dst).1 + k)
            = Some {| cfg_id := generateId_nth P (ids_made dst + k);
                      cfg_name := cfg_name s;
                      transportType := transportType s;
                      stdioConfig := stdioConfig s;
                      httpConfig := httpConfig s;
                      enabled := enabled s;
                      createdAt := clock_nth P (clock_reads dst);
                      updatedAt := clock_nth P (clock_reads dst) |}).
  { intros k s Hk. rewrite lookup_app_r by lia.
    replace (length (getServers dst).1 + k - length (getServers dst).1) with k by lia.
    rewrite list_lookup_imap, Hmap, list_lookup_fmap, Hk. reflexivity. }
  split; [|split; [|split; [|split; [|split]]]].
  - rewrite length_app, length_imap, length_map. lia.
  - intros k s Hk. apply lookup_app_l_Some. exact Hk.
  - exact Hnew.
  - exact Hst.
  - exact Hlost.
  - intros Hinj k r Hk Hr.
    destruct (lookup_lt_is_Some_2 _ _ Hk) as [s Hs].
    rewrite (Hnew k s Hs) in Hr. injection Hr as <-. simpl. split.
    + intros j Hj Heq. apply Hinj in Heq. lia.
    + intros k' r' Hk' Hr' Heq.
      destruct (lookup_lt_is_Some_2 _ _ Hk') as [s' Hs'].
      rewrite (Hnew k' s' Hs') in Hr'. injection Hr' as <-. simpl in Heq.
      apply Hinj in Heq. lia.
Qed.

End StorageFacts.

(** * Properties of the JSON functions *)

#[local] Arguments String.append !_ _ : simpl nomatch.

Section JsonFacts.

Import JSON.

Lemma append_assoc (a b c : string) : (a ++ b) ++ c = a ++ (b ++ c).
Proof. induction a as [|x a IH]; simpl; [reflexivity|]. rewrite IH. reflexivity. Qed.




Lemma length_append (a b : string) :
  String.length (a ++ b) = String.length a + String.length b.
Proof. induction a as [|x a IH]; simpl; [reflexivity|]. rewrite IH. reflexivity. Qed.

(** *** Strings *)




(** *** Numbers *)



Lemma to_uint_nonzero_head p : nonzero_head (Pos.to_uint p) = true.
Proof.
  pose proof (DecimalPos.Unsigned.to_of (Pos.to_uint p)) as Hn.
  rewrite DecimalPos.Unsigned.of_to in Hn. simpl in Hn.
  pose proof (DecimalPos.Unsigned.to_uint_nonzero p) as Hz.
  destruct (Pos.to_uint p) as [|u| | | | | | | | |] eqn:Hu; try reflexivity.
  - exfalso. exact (DecimalPos.Unsigned.to_uint_nonnil p Hu).
  - exfalso. rewrite DecimalFacts.unorm_D0 in Hn. unfold Decimal.unorm in Hn.
    destruct (Decimal.nzhead u) eqn:Hh;
      try (symmetry in Hn; rewrite <- Hh in Hn; exact (DecimalFacts.nzhead_nonzero _ _ Hn)).
    apply Hz. exact Hn.
Qed.

Lemma of_uint_to_uint p : Z.of_uint (Pos.to_uint p) = Z.pos p.
Proof. unfold Z.of_uint. rewrite DecimalPos.Unsigned.of_to. reflexivity. Qed.

(** Texts of digits *)















(** Normal digits *)












(** The parts of a numeral *)




Lemma read_fraction_exponent rest : read_fraction (String "e" rest) = Ok "" (String "e" rest).
Proof. reflexivity. Qed.




(** Reading back the four shapes of [decimal_text]. *)











(** *** Values *)








(** *** The characters a value starts with *)





(** *** One step of [read_value] *)









(** *** Arrays *)





(** *** Objects *)

(** A key that is enumerated after all the keys of an object is added at
    its end. *)
Lemma define_property_last {A} k (v : A) props :
  keys_ordered (List.map fst props ++ [k]) = true ->
  define_property k v props = (props ++ [(k, v)])%list.
Proof.
  induction props as [|[k' v'] props IH]; simpl; [reflexivity|]. intros H.
  apply andb_true_iff in H as [Hall Hrest].
  rewrite forallb_app in Hall. apply andb_true_iff in Hall as [_ Hk].
  simpl in Hk. rewrite andb_true_r in Hk.
  apply andb_true_iff in Hk as [Hne Hbefore].
  apply negb_true_iff in Hne, Hbefore.
  rewrite String.eqb_sym, Hne, Hbefore, (IH Hrest). reflexivity.
Qed.

Lemma keys_ordered_prefix keys more :
  keys_ordered (keys ++ more) = true -> keys_ordered keys = true.
Proof.
  induction keys as [|k keys IH]; simpl; [reflexivity|]. intros H.
  apply andb_true_iff in H as [Hall Hrest].
  rewrite forallb_app in Hall. apply andb_true_iff in Hall as [Hall _].
  rewrite Hall, (IH Hrest). reflexivity.
Qed.


Lemma read_members_unfold fuel s props :
  read_members (S fuel) s props =
    match expect dq s with
    | Some rest =>
        match read_string rest with
        | Ok key rest1 =>
            match expect ":" rest1 with
            | Some rest2 =>
                match read_value fuel rest2 with
                | Ok item rest3 =>
                    let props' := define_property key item props in
                    match expect "," rest3 with
                    | Some rest4 => read_members fuel rest4 props'
                    | None =>
                        match expect "}" rest3 with
                        | Some rest4 => Ok props' rest4
                        | None => Bad
                        end
                    end
                | Bad => Bad
                | Unsup => Unsup
                end
            | None => Bad
            end
        | Bad => Bad
        | Unsup => Unsup
        end
    | None => Bad
    end.
Proof. reflexivity. Qed.










(** *** The fuel of [parse] *)

Lemma skip_ws_length s : String.length (skip_ws s) <= String.length s.
Proof.
  induction s as [|c s IH]; simpl; [lia|]. destruct (is_ws c); simpl; lia.
Qed.

Lemma expect_length c s r : expect c s = Some r -> String.length r < String.length s.
Proof.
  unfold expect. pose proof (skip_ws_length s) as H.
  destruct (skip_ws s) as [|c' r']; [discriminate|].
  destruct (Ascii.eqb c' c); [|discriminate]. intros [= <-]. simpl in H. lia.
Qed.

Lemma read_string_length_bounded n : forall s str rest,
  String.length s <= n ->
  read_string s = Ok str rest -> String.length rest < String.length s.
Proof.
  induction n as [|n IH]; intros s str rest Hn.
  { destruct s; [discriminate|simpl in Hn; lia]. }
  destruct s as [|c s]; [discriminate|]. simpl in Hn. simpl.
  assert (Hrest : forall c' s',
            String.length s' <= String.length s ->
            res_cons c' (read_string s') = Ok str rest ->
            String.length rest < S (String.length s)).
  { intros c' s' Hs' H.
    destruct (read_string s') as [str' rest'| |] eqn:Hr; try discriminate.
    injection H as <- <-. apply IH in Hr; lia. }
  destruct (Ascii.eqb c dq); [intros [= <- <-]; lia|].
  destruct (Ascii.eqb c backslash).
  - destruct s as [|e s]; [discriminate|]. simpl in Hrest.
    destruct (Ascii.eqb_spec e "u") as [->|Hne].
    + destruct s as [|h1 [|h2 [|h3 [|h4 s]]]]; try discriminate.
      destruct (hex4 h1 h2 h3 h4) as [k|]; [|discriminate].
      destruct (k <? 256)%N; [|discriminate].
      apply Hrest. simpl. lia.
    + intros H.
      assert (Hu : match unescape e with
                   | Some c' => res_cons c' (read_string s)
                   | None => Bad
                   end = Ok str rest).
      { destruct e as [[|] [|] [|] [|] [|] [|] [|] [|]];
          try exact H; exfalso; apply Hne; reflexivity. }
      destruct (unescape e); [|discriminate]. eapply Hrest; [|exact Hu]. lia.
  - destruct (N_of_ascii c <? 32)%N; [discriminate|]. apply Hrest. lia.
Qed.

Lemma read_string_length s str rest :
  read_string s = Ok str rest -> String.length rest < String.length s.
Proof. apply (read_string_length_bounded (String.length s)). lia. Qed.

Lemma read_digits_length s :
  String.length (snd (read_digits s)) <= String.length s.
Proof.
  induction s as [|c s IH]; simpl; [lia|].
  destruct (is_digit c); simpl; [|lia].
  destruct (read_digits s). simpl in *. lia.
Qed.

Lemma read_int_length s ds rest :
  read_int s = Ok ds rest -> String.length rest < String.length s.
Proof.
  unfold read_int. destruct s as [|c s]; [discriminate|].
  pose proof (read_digits_length s) as Hd.
  assert (Hzero : Ok "0" s = Ok ds rest -> String.length rest < String.length (String c s))
    by (intros [= _ <-]; simpl; lia).
  assert (Hmore : (if is_digit c
                   then let '(ds0, rest0) := read_digits (String c s) in Ok ds0 rest0
                   else Bad) = Ok ds rest ->
                  String.length rest < String.length (String c s)).
  { simpl. destruct (is_digit c); [|discriminate].
    destruct (read_digits s) as [ds0 rest0]. simpl in Hd.
    intros [= _ <-]. simpl. lia. }
  destruct c as [[|] [|] [|] [|] [|] [|] [|] [|]]; first [exact Hzero|exact Hmore].
Qed.

Lemma read_fraction_length s ds rest :
  read_fraction s = Ok ds rest -> String.length rest <= String.length s.
Proof.
  unfold read_fraction. destruct s as [|c s]; [intros [= _ <-]; lia|].
  pose proof (read_digits_length s) as Hd.
  assert (Hnone : Ok "" (String c s) = Ok ds rest ->
                  String.length rest <= String.length (String c s))
    by (intros [= _ <-]; lia).
  assert (Hsome : match read_digits s with
                  | ("", _) => Bad
                  | (String a t as ds0, rest') => Ok ds0 rest'
                  end = Ok ds rest -> String.length rest <= String.length (String c s)).
  { destruct (read_digits s) as [[|a t] rest0]; [discriminate|].
    simpl in Hd. intros [= _ <-]. simpl. lia. }
  destruct c as [[|] [|] [|] [|] [|] [|] [|] [|]]; first [exact Hsome|exact Hnone].
Qed.

Lemma read_sign_length s : String.length (snd (read_sign s)) <= String.length s.
Proof.
  destruct s as [|c s]; [simpl; lia|].
  destruct c as [[|] [|] [|] [|] [|] [|] [|] [|]]; simpl; lia.
Qed.

Lemma read_exponent_length s e rest :
  read_exponent s = Ok e rest -> String.length rest <= String.length s.
Proof.
  unfold read_exponent. destruct s as [|c s]; [intros [= _ <-]; lia|].
  destruct (Ascii.eqb c "e" || Ascii.eqb c "E"); [|intros [= _ <-]; lia].
  pose proof (read_sign_length s) as Hs.
  destruct (read_sign s) as [negative rest1]. simpl in Hs.
  pose proof (read_digits_length rest1) as Hd.
  destruct (read_digits rest1) as [[|a t] rest2]; [discriminate|].
  simpl in Hd. intros [= _ <-]. simpl. lia.
Qed.

Lemma read_unsigned_length negative s v rest :
  read_unsigned negative s = Ok v rest -> String.length rest < String.length s.
Proof.
  unfold read_unsigned.
  destruct (read_int s) as [int rest1| |] eqn:Hi; try discriminate.
  destruct (read_fraction rest1) as [frac rest2| |] eqn:Hf; try discriminate.
  destruct (read_exponent rest2) as [e rest3| |] eqn:He; try discriminate.
  intros [= _ <-].
  apply read_int_length in Hi. apply read_fraction_length in Hf.
  apply read_exponent_length in He. lia.
Qed.

Lemma read_number_length s v rest :
  read_number s = Ok v rest -> String.length rest < String.length s.
Proof.
  unfold read_number. destruct s as [|c s]; [apply read_unsigned_length|].
  assert (Hminus : read_unsigned true s = Ok v rest ->
                   String.length rest < String.length (String c s))
    by (intros H; apply read_unsigned_length in H; simpl; lia).
  destruct c as [[|] [|] [|] [|] [|] [|] [|] [|]];
    first [exact Hminus|apply read_unsigned_length].
Qed.

Lemma startsWith_slice p : forall s,
  startsWith s p = true ->
  String.length (slice (String.length p) s) + String.length p = String.length s.
Proof.
  induction p as [|c p IH]; intros s; simpl; [lia|].
  destruct s as [|c' s]; [discriminate|]. simpl.
  intros H. apply andb_true_iff in H as [_ H]. apply IH in H. lia.
Qed.

Lemma read_literal_length s v rest :
  read_literal s = Some (v, rest) -> String.length rest < String.length s.
Proof.
  unfold read_literal.
  destruct (startsWith s "null") eqn:H1;
    [intros [= _ <-]; apply startsWith_slice in H1; simpl in H1; lia|].
  destruct (startsWith s "true") eqn:H2;
    [intros [= _ <-]; apply startsWith_slice in H2; simpl in H2; lia|].
  destruct (startsWith s "false") eqn:H3;
    [intros [= _ <-]; apply startsWith_slice in H3; simpl in H3; lia|].
  discriminate.
Qed.

Lemma read_value_unfold fuel s :
  read_value (S fuel) s =
    match skip_ws s with
    | "" => Bad
    | String c rest =>
        if Ascii.eqb c dq then
          match read_string rest with
          | Ok str rest' => Ok (JsString str) rest'
          | Bad => Bad
          | Unsup => Unsup
          end
        else if Ascii.eqb c "[" then
          match expect "]" rest with
          | Some rest' => Ok (JsArray []) rest'
          | None =>
              match read_elements fuel rest with
              | Ok items rest' => Ok (JsArray items) rest'
              | Bad => Bad
              | Unsup => Unsup
              end
          end
        else if Ascii.eqb c "{" then
          match expect "}" rest with
          | Some rest' => Ok (JsObject []) rest'
          | None =>
              match read_members fuel rest [] with
              | Ok props rest' => Ok (JsObject props) rest'
              | Bad => Bad
              | Unsup => Unsup
              end
          end
        else
          match read_literal (String c rest) with
          | Some (v, rest') => Ok v rest'
          | None => read_number (String c rest)
          end
    end.
Proof. reflexivity. Qed.

Lemma read_elements_unfold fuel s :
  read_elements (S fuel) s =
    match read_value fuel s with
    | Ok item rest =>
        match expect "," rest with
        | Some rest' =>
            match read_elements fuel rest' with
            | Ok items rest'' => Ok (item :: items) rest''
            | Bad => Bad
            | Unsup => Unsup
            end
        | None =>
            match expect "]" rest with
            | Some rest' => Ok [item] rest'
            | None => Bad
            end
        end
    | Bad => Bad
    | Unsup => Unsup
    end.
Proof. reflexivity. Qed.

(** Every reader that succeeds has used up some of the text. *)
Lemma readers_consume fuel :
  (forall s v rest, read_value fuel s = Ok v rest -> String.length rest < String.length s) /\
  (forall s items rest,
     read_elements fuel s = Ok items rest -> String.length rest < String.length s) /\
  (forall s acc props rest,
     read_members fuel s acc = Ok props rest -> String.length rest < String.length s).
Proof.
  induction fuel as [|fuel (IHv & IHe & IHm)]; [repeat split; discriminate|].
  split; [|split].
  - intros s v rest. rewrite read_value_unfold.
    pose proof (skip_ws_length s) as Hws.
    destruct (skip_ws s) as [|c r]; [discriminate|]. simpl in Hws.
    destruct (Ascii.eqb c dq).
    { destruct (read_string r) as [str r'| |] eqn:Hr; try discriminate.
      intros [= _ <-]. apply read_string_length in Hr. lia. }
    destruct (Ascii.eqb c "[").
    { destruct (expect "]" r) as [r'|] eqn:Hx.
      - intros [= _ <-]. apply expect_length in Hx. lia.
      - destruct (read_elements fuel r) as [items r'| |] eqn:Hr; try discriminate.
        intros [= _ <-]. apply IHe in Hr. lia. }
    destruct (Ascii.eqb c "{").
    { destruct (expect "}" r) as [r'|] eqn:Hx.
      - intros [= _ <-]. apply expect_length in Hx. lia.
      - destruct (read_members fuel r []) as [props r'| |] eqn:Hr; try discriminate.
        intros [= _ <-]. apply IHm in Hr. lia. }
    destruct (read_literal (String c r)) as [[v' r']|] eqn:Hl.
    + intros [= _ <-]. apply read_literal_length in Hl. simpl in Hl. lia.
    + intros Hn. apply read_number_length in Hn. simpl in Hn. lia.
  - intros s items rest. rewrite read_elements_unfold.
    destruct (read_value fuel s) as [item r| |] eqn:Hv; try discriminate.
    apply IHv in Hv.
    destruct (expect "," r) as [r'|] eqn:Hx.
    + apply expect_length in Hx.
      destruct (read_elements fuel r') as [items' r''| |] eqn:Hr; try discriminate.
      intros [= _ <-]. apply IHe in Hr. lia.
    + destruct (expect "]" r) as [r'|] eqn:Hy; [|discriminate].
      intros [= _ <-]. apply expect_length in Hy. lia.
  - intros s acc props rest. rewrite read_members_unfold.
    destruct (expect dq s) as [r|] eqn:Hq; [|discriminate]. apply expect_length in Hq.
    destruct (read_string r) as [key r1| |] eqn:Hk; try discriminate.
    apply read_string_length in Hk.
    destruct (expect ":" r1) as [r2|] eqn:Hc; [|discriminate]. apply expect_length in Hc.
    destruct (read_value fuel r2) as [item r3| |] eqn:Hv; try discriminate.
    apply IHv in Hv. simpl.
    destruct (expect "," r3) as [r4|] eqn:Hx.
    + apply expect_length in Hx. intros Hr. apply IHm in Hr. lia.
    + destruct (expect "}" r3) as [r4|] eqn:Hy; [|discriminate].
      intros [= _ <-]. apply expect_length in Hy. lia.
Qed.

(** With two units of fuel for each character the readers give the answer
    they give with any larger amount. *)
Lemma readers_stable fuel1 : forall fuel2,
  (forall s, 2 * String.length s + 1 <= fuel1 -> 2 * String.length s + 1 <= fuel2 ->
     read_value fuel1 s = read_value fuel2 s) /\
  (forall s, 2 * String.length s + 2 <= fuel1 -> 2 * String.length s + 2 <= fuel2 ->
     read_elements fuel1 s = read_elements fuel2 s) /\
  (forall s acc, 2 * String.length s + 2 <= fuel1 -> 2 * String.length s + 2 <= fuel2 ->
     read_members fuel1 s acc = read_members fuel2 s acc).
Proof.
  induction fuel1 as [|fuel1 IH]; intros fuel2; [repeat split; intros; lia|].
  destruct fuel2 as [|fuel2]; [repeat split; intros; lia|].
  destruct (IH fuel2) as (IHv & IHe & IHm).
  destruct (readers_consume fuel1) as (Cv & _ & _).
  split; [|split].
  - intros s H1 H2. rewrite !read_value_unfold.
    pose proof (skip_ws_length s) as Hws.
    destruct (skip_ws s) as [|c r]; [reflexivity|]. simpl in Hws.
    rewrite (IHe r), (IHm r) by lia. reflexivity.
  - intros s H1 H2. rewrite !read_elements_unfold.
    rewrite (IHv s) by lia.
    destruct (read_value fuel2 s) as [item r| |] eqn:Hv; try reflexivity.
    rewrite <- (IHv s) in Hv by lia. apply Cv in Hv.
    destruct (expect "," r) as [r'|] eqn:Hx; [|reflexivity].
    apply expect_length in Hx. rewrite (IHe r') by lia. reflexivity.
  - intros s acc H1 H2. rewrite !read_members_unfold.
    destruct (expect dq s) as [r|] eqn:Hq; [|reflexivity]. apply expect_length in Hq.
    destruct (read_string r) as [key r1| |] eqn:Hk; try reflexivity.
    apply read_string_length in Hk.
    destruct (expect ":" r1) as [r2|] eqn:Hc; [|reflexivity]. apply expect_length in Hc.
    rewrite (IHv r2) by lia.
    destruct (read_value fuel2 r2) as [item r3| |] eqn:Hv; try reflexivity.
    rewrite <- (IHv r2) in Hv by lia. apply Cv in Hv. simpl.
    destruct (expect "," r3) as [r4|] eqn:Hx; [|reflexivity].
    apply expect_length in Hx. apply IHm; lia.
Qed.

(** [parse] does not depend on its fuel. *)
Theorem parse_fuel text fuel :
  2 * String.length text + 2 <= fuel -> parse_with fuel text = parse text.
Proof.
  intros H. unfold parse, parse_with.
  destruct (readers_stable fuel (2 * String.length text + 2)) as (Hv & _ & _).
  rewrite (Hv text) by lia. reflexivity.
Qed.

End JsonFacts.

(** * Properties of the extended-message codec *)

Section CodecFacts.
Import JSON.

Lemma slice_append p s : slice (String.length p) (p ++ s) = s.
Proof. induction p as [|c p IH]; [reflexivity|]. exact IH. Qed.




End CodecFacts.

(** * More properties of the configuration store *)

Section StoreFacts.

Import mcpStorage.

Variable P : Platform.

Lemma getServers_counters b :
  ids_made (snd (getServers b)) = ids_made b /\
  clock_reads (snd (getServers b)) = clock_reads b.
Proof.
  unfold getServers. destruct (window_defined b); simpl; [|auto].
  destruct (localStorage b !! STORAGE_KEY) as [[d| |[|a t]]|]; simpl; auto.
Qed.

Lemma getServer_find id b :
  fst (getServer id b) = List.find (fun s => String.eqb (cfg_id s) id) (fst (getServers b)).
Proof. unfold getServer. destruct (getServers b). reflexivity. Qed.

(** What [getServers] returns after a [saveServers] on top of a reading. *)
Lemma saved_after_reading l b :
  window_defined b = true -> quota_exceeded b = false ->
  fst (getServers (saveServers l (snd (getServers b)))) = l.
Proof.
  intros Hw Hq. destruct (getServers_keeps b) as (K1 & _ & K3).
  apply saveServers_then_get; congruence.
Qed.

Lemma saveServers_refused l b :
  window_defined b = false \/ quota_exceeded b = true ->
  window_defined (saveServers l b) = window_defined b /\
  localStorage (saveServers l b) = localStorage b.
Proof.
  unfold saveServers. destruct (window_defined b) eqn:Hw; simpl; [|auto].
  intros [H|Hq]; [discriminate|]. rewrite Hq. auto.
Qed.

Lemma find_app_l {A} (p : A -> bool) l1 l2 x :
  List.find p l1 = Some x -> List.find p (l1 ++ l2)%list = Some x.
Proof.
  induction l1 as [|a l1 IH]; simpl; [discriminate|].
  destruct (p a); [auto|exact IH].
Qed.

Lemma find_app_fresh {A} (p : A -> bool) l1 x :
  (forall a, a ∈ l1 -> p a = false) -> p x = true ->
  List.find p (l1 ++ [x])%list = Some x.
Proof.
  intros Hl Hx. induction l1 as [|a l1 IH]; simpl; [rewrite Hx; reflexivity|].
  rewrite (Hl a) by apply list_elem_of_here.
  apply IH. intros a' Ha'. apply Hl, list_elem_of_further, Ha'.
Qed.

Lemma filter_length_all {A} (p : A -> bool) l :
  length (List.filter p l) = length l -> List.filter p l = l.
Proof.
  induction l as [|a l IH]; simpl; [reflexivity|].
  destruct (p a); simpl.
  - intros [= H]. f_equal. apply IH, H.
  - intros H. pose proof (List.filter_length_le p l). lia.
Qed.

Lemma filter_same_none {A} (p : A -> bool) l :
  List.filter (fun a => negb (p a)) l = l -> List.find p l = None.
Proof.
  induction l as [|a l IH]; simpl; [reflexivity|].
  destruct (p a) eqn:Hp; simpl.
  - intros H. pose proof (List.filter_length_le (fun a => negb (p a)) l) as Hle.
    rewrite H in Hle. simpl in Hle. lia.
  - intros [= H]. apply IH, H.
Qed.

Lemma find_filter_out id (l : list MCPServerConfig) :
  List.find (fun s => String.eqb (cfg_id s) id)
            (List.filter (fun s => negb (String.eqb (cfg_id s) id)) l) = None.
Proof.
  induction l as [|a l IH]; simpl; [reflexivity|].
  destruct (String.eqb (cfg_id a) id) eqn:Ha; simpl; [exact IH|].
  rewrite Ha. exact IH.
Qed.

Lemma find_filter_other id id' (l : list MCPServerConfig) :
  id' <> id ->
  List.find (fun s => String.eqb (cfg_id s) id')
            (List.filter (fun s => negb (String.eqb (cfg_id s) id)) l)
  = List.find (fun s => String.eqb (cfg_id s) id') l.
Proof.
  intros Hne. induction l as [|a l IH]; simpl; [reflexivity|].
  destruct (String.eqb (cfg_id a) id) eqn:Ha; simpl.
  - apply String.eqb_eq in Ha.
    destruct (String.eqb (cfg_id a) id') eqn:Ha'; [|exact IH].
    apply String.eqb_eq in Ha'. congruence.
  - destruct (String.eqb (cfg_id a) id'); [reflexivity|exact IH].
Qed.

Lemma filter_is_stored id (l : list MCPServerConfig) :
  Nat.eqb (length (List.filter (fun s => negb (String.eqb (cfg_id s) id)) l)) (length l)
  = negb (bool_decide (id ∈ cfg_id <$> l)).
Proof.
  induction l as [|a l IH]; [reflexivity|].
  pose proof (List.filter_length_le (fun s => negb (String.eqb (cfg_id s) id)) l) as Hle.
  simpl. destruct (String.eqb (cfg_id a) id) eqn:Ha; simpl.
  - apply String.eqb_eq in Ha. subst id.
    rewrite bool_decide_eq_true_2 by apply list_elem_of_here. simpl.
    apply Nat.eqb_neq. lia.
  - apply String.eqb_neq in Ha. rewrite IH. f_equal.
    apply bool_decide_ext. rewrite elem_of_cons. intuition congruence.
Qed.

(** The index that [findIndex] returns is the first one whose element
    satisfies the test, and [find] returns that element. *)
Lemma findIndex_find {A} (p : A -> bool) l :
  match findIndex p l with
  | None => List.find p l = None
  | Some index =>
      exists x, l !! index = Some x /\ List.find p l = Some x /\ p x = true /\
        (forall j y, j < index -> l !! j = Some y -> p y = false)
  end.
Proof.
  induction l as [|a l IH]; simpl; [reflexivity|].
  destruct (p a) eqn:Hp.
  - exists a. repeat split; try reflexivity; [exact Hp|]. intros j y Hj. lia.
  - destruct (findIndex p l) as [index|]; simpl; [|exact IH].
    destruct IH as (x & Hl & Hf & Hx & Hfirst). exists x. repeat split; try assumption.
    intros [|j] y Hj; simpl; [intros [= <-]; exact Hp|].
    apply Hfirst. lia.
Qed.

Lemma find_insert_first id (l : list MCPServerConfig) index x :
  cfg_id x = id ->
  index < length l ->
  (forall j y, j < index -> l !! j = Some y -> String.eqb (cfg_id y) id = false) ->
  List.find (fun s => String.eqb (cfg_id s) id) (<[index := x]> l) = Some x.
Proof.
  intros Hx. revert index. induction l as [|a l IH]; intros index Hlt Hfirst; simpl in Hlt; [lia|].
  destruct index as [|index]; simpl.
  - rewrite Hx, String.eqb_refl. reflexivity.
  - rewrite (Hfirst 0 a) by (first [lia|reflexivity]).
    apply IH; [lia|]. intros j y Hj Hy. apply (Hfirst (S j) y); [lia|exact Hy].
Qed.

Lemma find_insert_other id id' (l : list MCPServerConfig) index x y :
  id' <> id -> cfg_id x = id -> cfg_id y = id -> l !! index = Some y ->
  List.find (fun s => String.eqb (cfg_id s) id') (<[index := x]> l)
  = List.find (fun s => String.eqb (cfg_id s) id') l.
Proof.
  intros Hne Hx Hy. revert index. induction l as [|a l IH]; intros index Hl; [reflexivity|].
  destruct index as [|index]; simpl in *.
  - injection Hl as ->.
    assert (Hfx : String.eqb (cfg_id x) id' = false) by (apply String.eqb_neq; congruence).
    assert (Hfy : String.eqb (cfg_id y) id' = false) by (apply String.eqb_neq; congruence).
    rewrite Hfx, Hfy. reflexivity.
  - destruct (String.eqb (cfg_id a) id'); [reflexivity|]. apply IH, Hl.
Qed.

(** [X1] In a browser whose storage takes the write, [addServer] returns the
    given fields under the id [generateId] makes and the time read at the
    start of the call as both timestamps, and stores the previous list
    followed by that server.  Every lookup by id that succeeded before gives
    the same configuration afterwards, and the new id resolves to the new
    server when no stored configuration carried it already. *)
Theorem addServer_stores config b :
  window_defined b = true ->
  quota_exceeded b = false ->
  let newServer := fst (addServer P config b) in
  let b' := snd (addServer P config b) in
  newServer = imported_server config (generateId_nth P (ids_made b)) (clock_nth P (clock_reads b)) /\
  fst (getServers b') = (fst (getServers b) ++ [newServer])%list /\
  (forall id s, fst (getServer id b) = Some s -> fst (getServer id b') = Some s) /\
  ((forall s, s ∈ fst (getServers b) -> cfg_id s <> cfg_id newServer) ->
   fst (getServer (cfg_id newServer) b') = Some newServer).
Proof.
  intros Hw Hq. simpl.
  assert (Hadd : exists b2,
    addServer P config b =
      (imported_server config (generateId_nth P (ids_made b)) (clock_nth P (clock_reads b)),
       saveServers (fst (getServers b) ++
                    [imported_server config (generateId_nth P (ids_made b))
                                     (clock_nth P (clock_reads b))])%list (snd (getServers b2)))
    /\ window_defined b2 = window_defined b /\ localStorage b2 = localStorage b
    /\ quota_exceeded b2 = quota_exceeded b).
  { unfold addServer, Date_now, generateId. simpl.
    set (b2 := {| window_defined := _ |}).
    exists b2. rewrite (getServers_reads b b2 eq_refl eq_refl).
    destruct (getServers b2). simpl. repeat split. }
  destruct Hadd as (b2 & -> & H1 & H2 & H3). simpl.
  assert (Hst : fst (getServers (saveServers (fst (getServers b) ++
                    [imported_server config (generateId_nth P (ids_made b))
                                     (clock_nth P (clock_reads b))])%list (snd (getServers b2))))
                = (fst (getServers b) ++
                    [imported_server config (generateId_nth P (ids_made b))
                                     (clock_nth P (clock_reads b))])%list)
    by (apply saved_after_reading; congruence).
  split; [reflexivity|]. split; [exact Hst|]. split.
  - intros id s. rewrite !getServer_find, Hst. apply find_app_l.
  - intros Hfresh. rewrite getServer_find, Hst.
    apply find_app_fresh; [|apply String.eqb_refl].
    intros a Ha. apply String.eqb_neq. exact (Hfresh a Ha).
Qed.

(** [X2] When the storage does not take the write (the module runs without a
    window, or [setItem] throws), [addServer] still returns a new server as if
    it had been stored: nothing is thrown, the storage is as it was, and the
    list read afterwards is the list read before. *)
Theorem addServer_write_lost config b :
  window_defined b = false \/ quota_exceeded b = true ->
  fst (addServer P config b)
    = imported_server config (generateId_nth P (ids_made b)) (clock_nth P (clock_reads b)) /\
  localStorage (snd (addServer P config b)) = localStorage b /\
  fst (getServers (snd (addServer P config b))) = fst (getServers b).
Proof.
  intros Hlost. unfold addServer, Date_now, generateId. simpl.
  set (b2 := {| window_defined := _ |}).
  pose proof (getServers_reads b b2 eq_refl eq_refl) as Hr.
  destruct (getServers_keeps b2) as (K1 & K2 & K3).
  destruct (getServers b2) as [l b3]. simpl in *.
  destruct (saveServers_refused (l ++ [imported_server config (generateId_nth P (ids_made b))
                                        (clock_nth P (clock_reads b))])%list b3) as [S1 S2].
  { rewrite K1, K3. exact Hlost. }
  split; [reflexivity|]. split; [rewrite S2; exact K2|].
  symmetry. apply getServers_reads; [rewrite S1|rewrite S2]; congruence.
Qed.

(** [X3] [deleteServer] returns [true] exactly when a stored configuration
    carries the id.  In a browser whose storage takes the write, the list
    read afterwards is the stored list without the configurations of that id,
    in their order; the id no longer resolves, and every other id resolves as
    before. *)
Theorem deleteServer_removes id b :
  window_defined b = true ->
  quota_exceeded b = false ->
  let stored := fst (getServers b) in
  let b' := snd (deleteServer id b) in
  fst (deleteServer id b) = bool_decide (id ∈ cfg_id <$> stored) /\
  fst (getServers b') = List.filter (fun s => negb (String.eqb (cfg_id s) id)) stored /\
  fst (getServer id b') = None /\
  (forall id', id' <> id -> fst (getServer id' b') = fst (getServer id' b)).
Proof.
  intros Hw Hq. simpl.
  pose proof (saved_after_reading
                (List.filter (fun s => negb (String.eqb (cfg_id s) id)) (fst (getServers b)))
                b Hw Hq) as Hsaved.
  pose proof (getServers_reads (snd (getServers b)) b
                (proj1 (getServers_keeps b)) (proj1 (proj2 (getServers_keeps b)))) as Hagain.
  unfold deleteServer. destruct (getServers b) as [l b1] eqn:Hg. simpl in *.
  rewrite filter_is_stored.
  assert (Hafter : fst (getServers
            (if negb (bool_decide (id ∈ cfg_id <$> l)) then (false, b1)
             else (true, saveServers (List.filter (fun s => negb (String.eqb (cfg_id s) id)) l) b1)).2)
          = List.filter (fun s => negb (String.eqb (cfg_id s) id)) l).
  { pose proof (filter_is_stored id l) as Hlen.
    destruct (bool_decide (id ∈ cfg_id <$> l)); simpl in *; [exact Hsaved|].
    rewrite Hagain. symmetry. apply filter_length_all, Nat.eqb_eq, Hlen. }
  split; [destruct (bool_decide _); reflexivity|].
  split; [exact Hafter|]. split.
  - rewrite getServer_find, Hafter. apply find_filter_out.
  - intros id' Hne. rewrite !getServer_find, Hafter, Hg. simpl.
    apply find_filter_other, Hne.
Qed.

(** [X4] [updateServer] on an id that no stored configuration carries returns
    [null] and leaves the storage as it was.  Otherwise, in a browser whose
    storage takes the write, the first configuration of that id is replaced
    in place by the merge of it and the updates: the id and [createdAt] are
    kept, [updatedAt] is the time of the call whatever the updates say, the
    list keeps its length, the id resolves to the merged configuration and
    every other id resolves as before. *)
Theorem updateServer_replaces id updates b :
  window_defined b = true ->
  quota_exceeded b = false ->
  let stored := fst (getServers b) in
  let b' := snd (updateServer P id updates b) in
  (fst (getServer id b) = None ->
     fst (updateServer P id updates b) = None /\ localStorage b' = localStorage b) /\
  (forall current, fst (getServer id b) = Some current ->
     let updated := updated_server current updates (clock_nth P (clock_reads b)) in
     fst (updateServer P id updates b) = Some updated /\
     cfg_id updated = id /\
     createdAt updated = createdAt current /\
     updatedAt updated = clock_nth P (clock_reads b) /\
     (exists index, stored !! index = Some current /\
        fst (getServers b') = <[index := updated]> stored) /\
     length (fst (getServers b')) = length stored /\
     fst (getServer id b') = Some updated /\
     (forall id', id' <> id -> fst (getServer id' b') = fst (getServer id' b))).
Proof.
  intros Hw Hq. simpl. rewrite getServer_find.
  destruct (getServers_keeps b) as (K1 & K2 & K3).
  destruct (getServers_counters b) as (_ & C2).
  pose proof (fun l => saved_after_reading l b Hw Hq) as Hsaved.
  unfold updateServer. unfold getServer.
  destruct (getServers b) as [l b1] eqn:Hg. simpl in *.
  pose proof (findIndex_find (fun s => String.eqb (cfg_id s) id) l) as Hfi.
  destruct (findIndex (fun s => String.eqb (cfg_id s) id) l) as [index|].
  - destruct Hfi as (x & Hl & Hf & Hx & Hfirst). rewrite Hl, Hf.
    split; [discriminate|]. intros current [= <-].
    apply String.eqb_eq in Hx.
    unfold Date_now. rewrite C2. simpl.
    set (updated := updated_server x updates (clock_nth P (clock_reads b))).
    set (b2 := {| window_defined := window_defined b1 |}).
    assert (Hst : fst (getServers (saveServers (<[index := updated]> l) b2))
                  = <[index := updated]> l).
    { apply saveServers_then_get; simpl; congruence. }
    split; [reflexivity|]. split; [exact Hx|]. split; [reflexivity|]. split; [reflexivity|].
    split; [exists index; split; [exact Hl|exact Hst]|].
    split; [rewrite Hst; apply length_insert|].
    destruct (getServers (saveServers (<[index := updated]> l) b2)) as [l' b3]. simpl in *.
    subst l'. split.
    + apply find_insert_first; [exact Hx| |exact Hfirst].
      apply lookup_lt_Some in Hl. exact Hl.
    + intros id' Hne. apply (find_insert_other id id' l index updated x Hne Hx Hx Hl).
  - rewrite Hfi. split; [|discriminate]. intros _. split; [reflexivity|exact K2].
Qed.

(** What an import with [merge: false] returns: the new entries. *)
Lemma importServers_replace data b :
  fst (importServers P data (Some false) b)
    = imap (fun k server => imported_server server (generateId_nth P (ids_made b + k))
                              (clock_nth P (clock_reads b))) (exp_servers data)
  /\ (window_defined b = true -> quota_exceeded b = false ->
      fst (getServers (snd (importServers P data (Some false) b)))
        = fst (importServers P data (Some false) b))
  /\ (window_defined b = false \/ quota_exceeded b = true ->
      fst (getServers (snd (importServers P data (Some false) b))) = fst (getServers b)).
Proof.
  unfold importServers, Date_now. simpl.
  set (b1 := {| window_defined := _ |}).
  destruct (import_each_spec P (exp_servers data) (clock_nth P (clock_reads b)) b1)
    as (H1 & H2 & H3 & H4).
  pose proof (getServers_reads (snd (import_each P (exp_servers data)
                                       (clock_nth P (clock_reads b)) b1)) b) as Hr.
  destruct (import_each P (exp_servers data) _ b1) as [imported b2]. simpl in *.
  split; [exact H1|]. split.
  - intros Hw Hq. apply saveServers_then_get; congruence.
  - intros Hlost. rewrite saveServers_lost by (rewrite H2, H4; exact Hlost).
    apply Hr; congruence.
Qed.

Lemma clearAll_keeps b :
  window_defined (clearAll b) = window_defined b /\
  quota_exceeded (clearAll b) = quota_exceeded b /\
  ids_made (clearAll b) = ids_made b /\
  clock_reads (clearAll b) = clock_reads b /\
  fst (getServers (clearAll b)) = [].
Proof.
  unfold clearAll, getServers. destruct (window_defined b) eqn:Hw; simpl; rewrite ?Hw; simpl.
  - rewrite lookup_delete_eq. auto.
  - auto.
Qed.

(** [X5] Importing over a store that [clearAll] has emptied is importing in
    place of it: whatever the [merge] option, the call returns exactly what
    the import with [merge: false] returns on the store before the clearing.
    In a browser whose storage takes the write, that is also the stored set
    afterwards; where the write is lost (no window, or [setItem] throws) the
    store stays empty. *)
Theorem import_over_cleared_store data merge b :
  fst (getServers (clearAll b)) = [] /\
  fst (importServers P data merge (clearAll b)) = fst (importServers P data (Some false) b) /\
  (window_defined b = true -> quota_exceeded b = false ->
   fst (getServers (snd (importServers P data merge (clearAll b))))
     = fst (importServers P data (Some false) b)) /\
  (window_defined b = false \/ quota_exceeded b = true ->
   fst (getServers (snd (importServers P data merge (clearAll b)))) = []).
Proof.
  destruct (clearAll_keeps b) as (Hcw & Hcq & Hci & Hcc & Hclear).
  destruct (importServers_replace data b) as (Hreplace & _ & _).
  split; [exact Hclear|].
  destruct (default true merge) eqn:Hm.
  - destruct (importServers_merge P data merge (clearAll b) Hm) as (Hres & Hst & Hlost).
    rewrite Hcw, Hcq in Hst, Hlost. rewrite Hclear, Hci, Hcc in *.
    split; [rewrite Hres, Hreplace; reflexivity|]. split.
    + intros Hw Hq. rewrite (Hst Hw Hq), Hreplace. reflexivity.
    + exact Hlost.
  - assert (merge = Some false) as -> by (destruct merge as [[|]|]; simpl in Hm; congruence).
    destruct (importServers_replace data (clearAll b)) as (Hreplace' & Hst & Hlost).
    rewrite Hcw, Hcq in Hst, Hlost. rewrite Hci, Hcc in Hreplace'. rewrite Hclear in Hlost.
    split; [rewrite Hreplace', Hreplace; reflexivity|]. split.
    + intros Hw Hq. rewrite (Hst Hw Hq), Hreplace', Hreplace. reflexivity.
    + exact Hlost.
Qed.

(** Exporting drops what the import added. *)
Lemma export_imported (ids : nat -> string) t (l : list ExportedServer) :
  List.map (fun s => {| exp_name := cfg_name s;
                        exp_transportType := transportType s;
                        exp_stdioConfig := stdioConfig s;
                        exp_httpConfig := httpConfig s;
                        exp_enabled := enabled s |})
           (imap (fun k server => imported_server server (ids k) t) l) = l.
Proof.
  revert ids. induction l as [|server rest IH]; intros ids; [reflexivity|].
  simpl. f_equal; [destruct server; reflexivity|]. apply (IH (fun k => ids (S k))).
Qed.

(** [X6] In a browser whose storage takes the write, exporting right after
    an import with [merge: false] gives back the imported entries, field for
    field and in their order: the ids and the timestamps that the import
    added do not show in the export.  Where the write is lost (no window, or
    [setItem] throws), the export is that of the entries stored before the
    import. *)
Theorem export_after_replacing_import (Q : Platform) data b :
  (window_defined b = true -> quota_exceeded b = false ->
   exp_servers (fst (exportServers Q (snd (importServers P data (Some false) b))))
     = exp_servers data) /\
  (window_defined b = false \/ quota_exceeded b = true ->
   exp_servers (fst (exportServers Q (snd (importServers P data (Some false) b))))
     = exp_servers (fst (exportServers Q b))).
Proof.
  destruct (importServers_replace data b) as (Hreplace & Hst & Hlost).
  rewrite !exportServers_servers. split.
  - intros Hw Hq. rewrite (Hst Hw Hq), Hreplace. apply export_imported.
  - intros H. rewrite (Hlost H). reflexivity.
Qed.

End StoreFacts.

(** * More properties of the connection manager, and the routes over it *)

Section RegistryFacts.

Variable E : Environment.

(** The two ways a [connect] ends: the guard returns the stored status of a
    ["connected"] record and nothing changes, or one record is written under
    [config.id], which is the record of an established connection or the
    record of a failure, and the status returned is the record's. *)
Lemma connect_cases config w :
  (exists existing,
     clients w !! cfg_id config = Some existing /\
     status (mc_status existing) = connected /\
     connect E config w = (Normal (mc_status existing), w)) \/
  (exists mc w',
     connect E config w = (Normal (mc_status mc), w') /\
     clients w' = <[cfg_id config := mc]> (clients w) /\
     ((exists c caps t, mc = connected_record config c caps t) \/
      (exists e, mc = failed_record config e))).
Proof.
  destruct (is_connected (clients w !! cfg_id config)) eqn:Hc.
  - unfold is_connected in Hc.
    destruct (clients w !! cfg_id config) as [mc|] eqn:Hget; [|discriminate].
    apply bool_decide_eq_true_1 in Hc.
    left. exists mc. repeat split; [exact Hc|]. apply (connect_guarded _ _ _ _ Hget Hc).
  - right. rewrite (connect_unguarded _ _ _ Hc).
    destruct (establish E config w) as [[c|e] w1] eqn:He;
      pose proof (establish_clients _ _ _ _ _ He) as Hcl.
    + rewrite (connect_attempt_established _ _ _ _ _ He).
      eexists (connected_record config c _ _), _. split; [reflexivity|].
      split; [simpl; rewrite Hcl; reflexivity|]. left. eauto.
    + rewrite (connect_attempt_failed _ _ _ _ _ He).
      eexists (failed_record config e), _. split; [reflexivity|].
      split; [simpl; rewrite Hcl; reflexivity|]. right. eauto.
Qed.

Lemma connect_normal config w :
  exists st w', connect E config w = (Normal st, w').
Proof.
  destruct (connect_cases config w) as [(existing & _ & _ & ->)|(mc & w' & -> & _)]; eauto.
Qed.

Lemma connected_record_wellformed config c caps t :
  record_wellformed (cfg_id config) (connected_record config c caps t) = true.
Proof. unfold record_wellformed. simpl. rewrite String.eqb_refl. reflexivity. Qed.

Lemma failed_record_wellformed config e :
  record_wellformed (cfg_id config) (failed_record config e) = true.
Proof. unfold record_wellformed. simpl. rewrite String.eqb_refl. reflexivity. Qed.

Lemma disconnected_entry_wellformed key mc :
  record_wellformed key mc = true ->
  record_wellformed key (disconnected_entry key mc) = true.
Proof.
  unfold record_wellformed. simpl. rewrite String.eqb_refl. simpl.
  intros H. apply andb_prop in H as [H _]. apply andb_prop in H as [_ H].
  rewrite H. destruct (mc_client mc); reflexivity.
Qed.

Lemma step_preserves_wellformed c w :
  registry_wellformed w -> registry_wellformed (step E c w).
Proof.
  intros Hinv. destruct c as [config|serverId| | | | |serverId ? ?|serverId ? ?|serverId ?];
    simpl; try exact Hinv.
  - destruct (connect_cases config w) as [(existing & _ & _ & ->)|(mc & w' & -> & Hcl & Hmc)];
      [exact Hinv|].
    intros k mc' Hget. simpl in Hget. rewrite Hcl in Hget.
    destruct (decide (k = cfg_id config)) as [->|Hne].
    + rewrite lookup_insert_eq in Hget. injection Hget as <-.
      destruct Hmc as [(c & caps & t & ->)|(e & ->)];
        [apply connected_record_wellformed|apply failed_record_wellformed].
    + rewrite lookup_insert_ne in Hget by congruence. exact (Hinv _ _ Hget).
  - destruct (disconnect_lookup E serverId w) as (w' & -> & Hl).
    intros k mc' Hget. simpl in Hget. rewrite Hl in Hget.
    case_bool_decide.
    + destruct (clients w !! k) as [mc|] eqn:Hk; [|discriminate]. injection Hget as <-.
      apply disconnected_entry_wellformed, (Hinv _ _ Hk).
    + exact (Hinv _ _ Hget).
  - destruct (disconnectAll_lookup E w) as (w' & -> & Hl).
    intros k mc' Hget. simpl in Hget. rewrite Hl in Hget.
    destruct (clients w !! k) as [mc|] eqn:Hk; [|discriminate]. injection Hget as <-.
    apply disconnected_entry_wellformed, (Hinv _ _ Hk).
  - intros k mc Hget. rewrite (proj1 (invocation_clients E serverId w)) in Hget.
    exact (Hinv _ _ Hget).
  - intros k mc Hget. rewrite (proj1 (proj2 (invocation_clients E serverId w))) in Hget.
    exact (Hinv _ _ Hget).
  - intros k mc Hget. rewrite (proj2 (proj2 (invocation_clients E serverId w))) in Hget.
    exact (Hinv _ _ Hget).
Qed.

Lemma run_calls_wellformed calls : forall w,
  registry_wellformed w -> registry_wellformed (run_calls E calls w).
Proof.
  induction calls as [|c calls IH]; intros w Hinv; [exact Hinv|].
  simpl. apply IH, step_preserves_wellformed, Hinv.
Qed.

Lemma reachable_wellformed calls : registry_wellformed (run_calls E calls initial_world).
Proof.
  apply run_calls_wellformed. intros k mc Hget. simpl in Hget.
  rewrite lookup_empty in Hget. discriminate.
Qed.

Lemma reachable_has_handles calls : connected_has_handle (run_calls E calls initial_world).
Proof. apply run_calls_preserves_handles, initial_world_has_handles. Qed.

Lemma is_connected_getStatus w serverId :
  is_connected (clients w !! serverId) = bool_decide (status (getStatus w serverId) = connected).
Proof.
  unfold is_connected, getStatus. destruct (clients w !! serverId); reflexivity.
Qed.

(** In a well-formed registry the snapshot is there exactly for the
    ["connected"] records. *)
Lemma wellformed_capabilities w serverId :
  registry_wellformed w ->
  (status (getStatus w serverId) = connected <-> is_Some (getCapabilities w serverId)).
Proof.
  intros Hinv. unfold getStatus, getCapabilities.
  destruct (clients w !! serverId) as [mc|] eqn:Hget.
  - specialize (Hinv _ _ Hget). unfold record_wellformed in Hinv.
    apply andb_prop in Hinv as [_ Hinv].
    destruct (status (mc_status mc)), (mc_client mc), (mc_capabilities mc),
      (error_message (mc_status mc)), (lastConnected (mc_status mc));
      try discriminate; split; intros H; try discriminate; eauto;
      destruct H; discriminate.
  - simpl. split; [discriminate|]. intros [? H]. discriminate.
Qed.

(** [X7] After any history of calls from the empty registry, every record
    sits under the id that its status and its configuration carry, and has
    the shape of its status: ["connected"] comes with a client, a capability
    snapshot, the time of the connection and no message; ["error"] with a
    message and none of them; ["disconnected"] with no snapshot, message or
    time; and no record is ever ["connecting"]. *)
Theorem registry_records_wellformed calls key mc :
  clients (run_calls E calls initial_world) !! key = Some mc ->
  record_wellformed key mc = true /\
  serverId (mc_status mc) = key /\
  cfg_id (mc_config mc) = key /\
  status (mc_status mc) <> connecting /\
  (status (mc_status mc) = connected <-> is_Some (mc_capabilities mc)) /\
  (status (mc_status mc) = error <-> is_Some (error_message (mc_status mc))).
Proof.
  intros Hget. pose proof (reachable_wellformed calls _ _ Hget) as Hwf.
  split; [exact Hwf|]. unfold record_wellformed in Hwf.
  apply andb_prop in Hwf as [Hwf Hshape]. apply andb_prop in Hwf as [Hk1 Hk2].
  apply String.eqb_eq in Hk1, Hk2. split; [exact Hk1|]. split; [exact Hk2|].
  destruct (status (mc_status mc)), (mc_client mc), (mc_capabilities mc),
    (error_message (mc_status mc)), (lastConnected (mc_status mc));
    try discriminate; repeat split; try discriminate; eauto;
    intros H; try discriminate; destruct H; discriminate.
Qed.

(** [X8] [connect] returns the status that [getStatus] then reports for the
    id, and touches the record of no other id. *)
Theorem connect_then_getStatus config w :
  exists st w',
    connect E config w = (Normal st, w') /\
    getStatus w' (cfg_id config) = st /\
    (forall key, key <> cfg_id config ->
       clients w' !! key = clients w !! key /\ getStatus w' key = getStatus w key).
Proof.
  destruct (connect_cases config w) as [(existing & Hget & _ & ->)|(mc & w' & -> & Hcl & _)].
  - eexists _, _. split; [reflexivity|]. split.
    + unfold getStatus. rewrite Hget. reflexivity.
    + auto.
  - eexists _, _. split; [reflexivity|]. split.
    + unfold getStatus. rewrite Hcl, lookup_insert_eq. reflexivity.
    + intros key Hne. unfold getStatus. rewrite Hcl, lookup_insert_ne by congruence. auto.
Qed.

(** [X9] After [disconnect(id)], whatever the record was: [getStatus] reports
    the ["disconnected"] status that the call returned, [getCapabilities]
    returns [null], and [callTool], [getPrompt] and [readResource] on the id
    throw the "is not connected" error without sending anything.  The record
    of every other id is as it was. *)
Theorem disconnect_then_refused serverId w :
  exists w',
    disconnect E serverId w = (Normal (disconnected_status serverId), w') /\
    getStatus w' serverId = disconnected_status serverId /\
    getCapabilities w' serverId = None /\
    (forall toolName args,
       callTool E serverId toolName args w' = (Throw (not_connected_error serverId), w')) /\
    (forall promptName args,
       getPrompt E serverId promptName args w' = (Throw (not_connected_error serverId), w')) /\
    (forall uri,
       readResource E serverId uri w' = (Throw (not_connected_error serverId), w')) /\
    (forall key, key <> serverId -> clients w' !! key = clients w !! key).
Proof.
  destruct (disconnect_lookup E serverId w) as (w' & Hd & Hl).
  exists w'. split; [exact Hd|].
  assert (Hme : clients w' !! serverId = disconnected_entry serverId <$> clients w !! serverId)
    by (rewrite Hl, bool_decide_eq_true_2 by reflexivity; reflexivity).
  assert (Hc : is_connected (clients w' !! serverId) = false)
    by (rewrite Hme; destruct (clients w !! serverId); reflexivity).
  split; [|split; [|split; [|split; [|split]]]].
  - unfold getStatus. rewrite Hme. destruct (clients w !! serverId); reflexivity.
  - unfold getCapabilities. rewrite Hme. destruct (clients w !! serverId); reflexivity.
  - intros toolName args. unfold callTool, bind, clients_get. rewrite Hc. reflexivity.
  - intros promptName args. unfold getPrompt, bind, clients_get. rewrite Hc. reflexivity.
  - intros uri. unfold readResource, bind, clients_get. rewrite Hc. reflexivity.
  - intros key Hne. rewrite Hl, bool_decide_eq_false_2 by exact Hne. reflexivity.
Qed.

(** [X28] On an id that is not ["connected"], what [connect] reports is
    decided by the client, the transport and the handshake alone: when they
    succeed the status is ["connected"] whatever the three capability queries
    answer, and the snapshot holds, for each query, the mapped list of its
    answer or the empty list if it was rejected; when they fail the status
    is ["error"] and there is no snapshot. *)
Theorem connect_reports_handshake config w :
  is_connected (clients w !! cfg_id config) = false ->
  exists st w',
    connect E config w = (Normal st, w') /\
    getStatus w' (cfg_id config) = st /\
    match establish E config w with
    | (Normal c, w1) =>
        status st = connected /\
        getCapabilities w' (cfg_id config)
          = Some {| tools := settled_map toMCPTool (toolsResult_at E (trace w1) c);
                    prompts := settled_map toMCPPrompt (promptsResult_at E (trace w1) c);
                    resources := settled_map toMCPResource (resourcesResult_at E (trace w1) c) |}
    | (Throw e, _) =>
        status st = error /\
        error_message st = Some (message_of e) /\
        getCapabilities w' (cfg_id config) = None
    end.
Proof.
  intros Hc. rewrite (connect_unguarded _ _ _ Hc).
  destruct (establish E config w) as [[c|e] w1] eqn:He.
  - rewrite (connect_attempt_established _ _ _ _ _ He).
    eexists _, _. split; [reflexivity|].
    unfold getStatus, getCapabilities. simpl. rewrite lookup_insert_eq. auto.
  - rewrite (connect_attempt_failed _ _ _ _ _ He).
    eexists _, _. split; [reflexivity|].
    unfold getStatus, getCapabilities. simpl. rewrite lookup_insert_eq. auto.
Qed.

(** *** The routes *)

(** The status that [connect] returns in a well-formed registry is
    ["connected"] without a message or ["error"] with one. *)
Lemma connect_status_shape config w st w' :
  registry_wellformed w ->
  connect E config w = (Normal st, w') ->
  (status st = connected /\ error_message st = None) \/
  (status st = error /\ is_Some (error_message st)).
Proof.
  intros Hinv Hconn.
  destruct (connect_cases config w) as [(existing & Hget & Hst & Heq)|(mc & w1 & Heq & _ & Hmc)];
    rewrite Heq in Hconn; injection Hconn as <- <-.
  - left. split; [exact Hst|]. specialize (Hinv _ _ Hget).
    unfold record_wellformed in Hinv. apply andb_prop in Hinv as [_ Hinv].
    rewrite Hst in Hinv.
    destruct (mc_client existing), (mc_capabilities existing),
      (error_message (mc_status existing)); try discriminate; reflexivity.
  - destruct Hmc as [(c & caps & t & ->)|(e & ->)]; [left|right]; simpl; eauto.
Qed.

(** [X10] [POST /api/mcp/connect] with a configuration that has an id never
    answers with an error status: the answer is 200 and carries the status
    that [connect] returned, [success] telling whether it is ["connected"].
    After any history of calls, [success] is true exactly when the answer has
    no [error] message: a connection that could not be made is reported in
    the body, with the message of the failure. *)
Theorem connect_POST_reports calls config :
  cfg_id config <> "" ->
  let w := run_calls E calls initial_world in
  exists st w',
    connect E config w = (Normal st, w') /\
    connect_POST E (fulfilled (Some config)) w =
      (Normal {| http_status := 200;
                 json_body := {| api_success := bool_decide (status st = connected);
                                 api_data := Some st;
                                 api_error := error_message st |} |}, w') /\
    (bool_decide (status st = connected) = true <-> error_message st = None).
Proof.
  intros Hid w.
  destruct (connect_normal config w) as (st & w' & Hconn).
  exists st, w'. split; [exact Hconn|]. split.
  - unfold connect_POST, try_catch, bind, await. simpl.
    apply String.eqb_neq in Hid. rewrite Hid. rewrite Hconn. reflexivity.
  - destruct (connect_status_shape config w st w' (reachable_wellformed calls) Hconn)
      as [[H1 H2]|[H1 [m H2]]]; rewrite H1, H2; split; intros H; try reflexivity; discriminate.
Qed.

Lemma getStatus_not_connected w serverId :
  status (getStatus w serverId) <> connected ->
  is_connected (clients w !! serverId) = false.
Proof.
  intros H. rewrite is_connected_getStatus. apply bool_decide_eq_false_2, H.
Qed.

Lemma getStatus_connected w serverId :
  status (getStatus w serverId) = connected ->
  is_connected (clients w !! serverId) = true.
Proof.
  intros H. rewrite is_connected_getStatus. apply bool_decide_eq_true_2, H.
Qed.

Lemma truthy_Some field s : truthy field = Some s -> field = Some s /\ s <> "".
Proof.
  unfold truthy. destruct field as [s'|]; [|discriminate].
  destruct (String.eqb s' "") eqn:He; [discriminate|].
  intros [= ->]. split; [reflexivity|]. apply String.eqb_neq, He.
Qed.

(** [X11] [POST /api/mcp/tools/call], after any history of calls.  With the
    server id or the tool name missing or empty the answer is 400 and the
    manager is not called.  For a server that is not ["connected"] the answer
    is 500 with the message "Server <id> is not connected"; the error is
    logged and nothing is sent to any server.  For a ["connected"] server the
    tool is called once on its client, with the arguments of the request as
    they are, or with [{}] where the request has none (the key is absent or
    holds [null]): what the call resolves to is answered with 200, and a
    rejection with 500 and the message of the error (or "Failed to call
    tool"). *)
Theorem tools_call_POST_outcomes calls request :
  let w := run_calls E calls initial_world in
  (truthy (request_serverId request) = None \/ truthy (request_toolName request) = None ->
     tools_call_POST E (fulfilled request) w
       = (Normal (failure_response 400 "Server ID and tool name are required"), w)) /\
  (forall serverId toolName,
     truthy (request_serverId request) = Some serverId ->
     truthy (request_toolName request) = Some toolName ->
     (status (getStatus w serverId) <> connected ->
        tools_call_POST E (fulfilled request) w
          = (Normal (failure_response 500 ("Server " ++ serverId ++ " is not connected")),
             log_event (EvConsoleError "MCP tool call error:" (not_connected_error serverId)) w)) /\
     (status (getStatus w serverId) = connected ->
        exists mc c sent,
          clients w !! serverId = Some mc /\ mc_client mc = Some c /\
          (forall a, request_arguments request = Some a ->
                     a <> JsUndefined -> a <> JsNull -> sent = a) /\
          (request_arguments request = None \/
           request_arguments request = Some JsUndefined \/
           request_arguments request = Some JsNull -> sent = JsObject []) /\
          let p := {| call_name := toolName; call_arguments := sent |} in
          let w1 := log_event (EvCallTool c p) w in
          tools_call_POST E (fulfilled request) w =
            match client_callTool E (trace w) c p with
            | fulfilled result => (Normal (success_response result), w1)
            | rejected e =>
                (Normal (failure_response 500 (message_or "Failed to call tool" e)),
                 log_event (EvConsoleError "MCP tool call error:" e) w1)
            end)).
Proof.
  intros w. split.
  - intros H. unfold tools_call_POST, try_catch, bind, await. simpl.
    destruct H as [-> | H]; [reflexivity|]. rewrite H.
    destruct (truthy (request_serverId request)); reflexivity.
  - intros serverId toolName Hs Ht.
    destruct (invocation_on_registry E serverId w (reachable_has_handles calls)) as [Hno Hyes].
    split.
    + intros Hst. destruct (Hno (getStatus_not_connected _ _ Hst)) as (Hcall & _).
      unfold tools_call_POST, try_catch, bind, await. simpl. rewrite Hs, Ht, Hcall.
      reflexivity.
    + intros Hst.
      destruct (Hyes (getStatus_connected _ _ Hst)) as (mc & c & Hget & Hcl & Hcall & _).
      exists mc, c, (args_or_empty (request_arguments request)).
      split; [exact Hget|]. split; [exact Hcl|].
      split; [|split].
      * intros a Ha Hu Hn. rewrite Ha. destruct a; try reflexivity; contradiction.
      * intros [->|[->| ->]]; reflexivity.
      * simpl. unfold tools_call_POST, try_catch, bind, await. simpl. rewrite Hs, Ht, Hcall.
        destruct (client_callTool E (trace w) c _); reflexivity.
Qed.

(** [X12] [POST /api/mcp/prompts/get] and [POST /api/mcp/resources/read],
    after any history of calls, for a request that names a server and a
    prompt or a uri.  For a server that is not ["connected"] the answer is
    500 with the message "Server <id> is not connected" and nothing is sent.
    For a ["connected"] server the one call is made on its client: its
    result is answered with 200, a rejection with 500 and the message of the
    error. *)
Theorem prompt_and_resource_routes calls serverId name :
  serverId <> "" ->
  name <> "" ->
  let w := run_calls E calls initial_world in
  (status (getStatus w serverId) <> connected ->
     (forall args,
        prompts_get_POST E (fulfilled {| prompt_serverId := Some serverId;
                                         prompt_promptName := Some name;
                                         prompt_request_arguments := args |}) w
          = (Normal (failure_response 500 ("Server " ++ serverId ++ " is not connected")),
             log_event (EvConsoleError "MCP get prompt error:" (not_connected_error serverId)) w)) /\
     resources_read_POST E (fulfilled {| resource_serverId := Some serverId;
                                         resource_request_uri := Some name |}) w
       = (Normal (failure_response 500 ("Server " ++ serverId ++ " is not connected")),
          log_event (EvConsoleError "MCP read resource error:" (not_connected_error serverId)) w)) /\
  (status (getStatus w serverId) = connected ->
     exists mc c,
       clients w !! serverId = Some mc /\ mc_client mc = Some c /\
       (forall args,
          let p := {| get_name := name; get_arguments := args |} in
          let w1 := log_event (EvGetPrompt c p) w in
          prompts_get_POST E (fulfilled {| prompt_serverId := Some serverId;
                                           prompt_promptName := Some name;
                                           prompt_request_arguments := args |}) w =
            match client_getPrompt E (trace w) c p with
            | fulfilled result => (Normal (success_response result), w1)
            | rejected e =>
                (Normal (failure_response 500 (message_or "Failed to get prompt" e)),
                 log_event (EvConsoleError "MCP get prompt error:" e) w1)
            end) /\
       (let p := {| read_uri := name |} in
        let w1 := log_event (EvReadResource c p) w in
        resources_read_POST E (fulfilled {| resource_serverId := Some serverId;
                                            resource_request_uri := Some name |}) w =
          match client_readResource E (trace w) c p with
          | fulfilled result => (Normal (success_response result), w1)
          | rejected e =>
              (Normal (failure_response 500 (message_or "Failed to read resource" e)),
               log_event (EvConsoleError "MCP read resource error:" e) w1)
          end)).
Proof.
  intros Hs Hn w.
  apply String.eqb_neq in Hs, Hn.
  destruct (invocation_on_registry E serverId w (reachable_has_handles calls)) as [Hno Hyes].
  split.
  - intros Hst. destruct (Hno (getStatus_not_connected _ _ Hst)) as (_ & Hprompt & Hread).
    split.
    + intros args. unfold prompts_get_POST, try_catch, bind, await. simpl.
      rewrite Hs, Hn, Hprompt. reflexivity.
    + unfold resources_read_POST, try_catch, bind, await. simpl.
      rewrite Hs, Hn, Hread. reflexivity.
  - intros Hst.
    destruct (Hyes (getStatus_connected _ _ Hst)) as (mc & c & Hget & Hcl & _ & Hprompt & Hread).
    exists mc, c. split; [exact Hget|]. split; [exact Hcl|]. split.
    + intros args. simpl. unfold prompts_get_POST, try_catch, bind, await. simpl.
      rewrite Hs, Hn, Hprompt. destruct (client_getPrompt E (trace w) c _); reflexivity.
    + simpl. unfold resources_read_POST, try_catch, bind, await. simpl.
      rewrite Hs, Hn, Hread. destruct (client_readResource E (trace w) c _); reflexivity.
Qed.

(** [X13] [GET /api/mcp/capabilities], after any history of calls, for a
    given server id: the answer is 200 with the capability snapshot exactly
    when the server is ["connected"], and 404 otherwise; the registry is not
    changed and nothing is logged.  Without a server id the answer is 400. *)
Theorem capabilities_GET_by_status calls :
  let w := run_calls E calls initial_world in
  (forall serverId, truthy serverId = None ->
     capabilities_GET serverId w = (Normal (failure_response 400 "Server ID is required"), w)) /\
  (forall serverId, serverId <> "" ->
     (status (getStatus w serverId) = connected ->
        exists capabilities,
          getCapabilities w serverId = Some capabilities /\
          capabilities_GET (Some serverId) w = (Normal (success_response capabilities), w)) /\
     (status (getStatus w serverId) <> connected ->
        capabilities_GET (Some serverId) w
          = (Normal (failure_response 404 "Server not connected or capabilities not available"),
             w))).
Proof.
  intros w. split.
  - intros serverId H. unfold capabilities_GET, try_catch. rewrite H. reflexivity.
  - intros serverId Hs. apply String.eqb_neq in Hs.
    pose proof (wellformed_capabilities w serverId (reachable_wellformed calls)) as Hcaps.
    split.
    + intros Hst. apply Hcaps in Hst as [capabilities Hc]. exists capabilities.
      split; [exact Hc|]. unfold capabilities_GET, try_catch. simpl. rewrite Hs, Hc.
      reflexivity.
    + intros Hst. unfold capabilities_GET, try_catch. simpl. rewrite Hs.
      destruct (getCapabilities w serverId) eqn:Hc; [|reflexivity].
      exfalso. apply Hst, Hcaps. eauto.
Qed.

(** [X14] [POST /api/mcp/disconnect] with a server id always answers 200 with
    the ["disconnected"] status, whatever the registry held and whatever the
    closing of the connection did.  Right after it, the capabilities route
    answers 404 for the id and the tool route answers 500 with "Server <id>
    is not connected". *)
Theorem disconnect_POST_then_routes serverId w :
  serverId <> "" ->
  exists w',
    disconnect_POST E (fulfilled {| disconnect_serverId := Some serverId |}) w
      = (Normal (success_response (disconnected_status serverId)), w') /\
    capabilities_GET (Some serverId) w'
      = (Normal (failure_response 404 "Server not connected or capabilities not available"), w') /\
    (forall toolName args, toolName <> "" ->
       tools_call_POST E (fulfilled {| request_serverId := Some serverId;
                                       request_toolName := Some toolName;
                                       request_arguments := args |}) w'
         = (Normal (failure_response 500 ("Server " ++ serverId ++ " is not connected")),
            log_event (EvConsoleError "MCP tool call error:" (not_connected_error serverId)) w')).
Proof.
  intros Hs. apply String.eqb_neq in Hs.
  destruct (disconnect_lookup E serverId w) as (w' & Hd & Hl).
  exists w'.
  assert (Hme : clients w' !! serverId = disconnected_entry serverId <$> clients w !! serverId)
    by (rewrite Hl, bool_decide_eq_true_2 by reflexivity; reflexivity).
  split; [|split].
  - unfold disconnect_POST, try_catch, bind, await. simpl. rewrite Hs, Hd. reflexivity.
  - unfold capabilities_GET, try_catch. simpl. rewrite Hs.
    unfold getCapabilities. rewrite Hme. destruct (clients w !! serverId); reflexivity.
  - intros toolName args Ht. apply String.eqb_neq in Ht.
    unfold tools_call_POST, try_catch, bind, await. simpl. rewrite Hs, Ht.
    unfold callTool, bind, clients_get. rewrite Hme.
    destruct (clients w !! serverId); reflexivity.
Qed.

(** Membership in the list that the loop over the connected servers builds. *)
Lemma tools_of_connected_spec {T} (tag : MCPServerStatus -> MCPTool -> T) w x :
  In x (tools_of_connected tag w) <->
  exists key mc capabilities tool,
    clients w !! key = Some mc /\
    status (mc_status mc) = connected /\
    getCapabilities w (serverId (mc_status mc)) = Some capabilities /\
    In tool (tools capabilities) /\
    x = tag (mc_status mc) tool.
Proof.
  unfold tools_of_connected. rewrite in_flat_map. split.
  - intros (st & Hst & Hx). apply filter_In in Hst as [Hst Hc].
    apply bool_decide_eq_true_1 in Hc.
    unfold getAllStatuses in Hst. apply list_elem_of_In, list_elem_of_fmap in Hst
      as ([key mc] & -> & Hin).
    apply elem_of_map_to_list in Hin. simpl in *.
    destruct (getCapabilities w (serverId (mc_status mc))) as [capabilities|] eqn:Hcaps;
      [|destruct Hx].
    apply in_map_iff in Hx as (tool & <- & Htool).
    exists key, mc, capabilities, tool. auto.
  - intros (key & mc & capabilities & tool & Hget & Hc & Hcaps & Htool & ->).
    exists (mc_status mc). split.
    + apply filter_In. split; [|apply bool_decide_eq_true_2, Hc].
      apply list_elem_of_In. unfold getAllStatuses. apply list_elem_of_fmap.
      exists (key, mc). split; [reflexivity|]. apply elem_of_map_to_list, Hget.
    + rewrite Hcaps. apply in_map, Htool.
Qed.

(** [X15] After any history of calls, the tools that [getConnectedMCPTools]
    hands to the chat are exactly the tools in the capability snapshots of
    the ["connected"] records, each under the id of its server; and the
    [GET] of [/api/mcp/tools] answers 200 with the same tools, the server id
    standing for the server name as well. *)
Theorem connected_tools_listed calls :
  let w := run_calls E calls initial_world in
  (forall tool serverId,
     In {| tos_tool := tool; tos_serverId := serverId |} (getConnectedMCPTools w) <->
     exists capabilities,
       status (getStatus w serverId) = connected /\
       getCapabilities w serverId = Some capabilities /\
       In tool (tools capabilities)) /\
  exists allTools,
    tools_GET w = (Normal (success_response allTools), w) /\
    List.map (fun t => {| tos_tool := tws_tool t; tos_serverId := tws_serverId t |}) allTools
      = getConnectedMCPTools w /\
    Forall (fun t => tws_serverName t = tws_serverId t) allTools.
Proof.
  intros w. split.
  - intros tool serverId. unfold getConnectedMCPTools. rewrite tools_of_connected_spec.
    split.
    + intros (key & mc & capabilities & tool' & Hget & Hc & Hcaps & Htool & [= -> ->]).
      pose proof (reachable_wellformed calls _ _ Hget) as Hwf.
      unfold record_wellformed in Hwf. apply andb_prop in Hwf as [Hwf _].
      apply andb_prop in Hwf as [Hk _]. apply String.eqb_eq in Hk.
      exists capabilities. rewrite Hk in *. unfold getStatus. rewrite Hget. auto.
    + intros (capabilities & Hst & Hcaps & Htool). unfold getStatus in Hst.
      destruct (clients w !! serverId) as [mc|] eqn:Hget; [|discriminate].
      pose proof (reachable_wellformed calls _ _ Hget) as Hwf.
      unfold record_wellformed in Hwf. apply andb_prop in Hwf as [Hwf _].
      apply andb_prop in Hwf as [Hk _]. apply String.eqb_eq in Hk.
      exists serverId, mc, capabilities, tool. rewrite Hk. auto.
  - eexists. split; [reflexivity|]. unfold getConnectedMCPTools, tools_of_connected.
    split.
    + induction (List.filter _ (getAllStatuses w)) as [|st l IH]; [reflexivity|].
      simpl. rewrite List.map_app, IH. f_equal.
      destruct (getCapabilities w (serverId st)); [|reflexivity].
      rewrite List.map_map. reflexivity.
    + apply Forall_forall. intros t Ht. apply list_elem_of_In in Ht.
      apply in_flat_map in Ht as (st & _ & Ht).
      destruct (getCapabilities w (serverId st)); [|destruct Ht].
      apply in_map_iff in Ht as (tool & <- & _). reflexivity.
Qed.

(** [X16] After [disconnectAll], no tool is handed to the chat, whatever was
    connected before. *)
Theorem no_tools_after_disconnectAll w :
  exists w',
    disconnectAll E w = (Normal tt, w') /\
    getConnectedMCPTools w' = [].
Proof.
  destruct (disconnectAll_lookup E w) as (w' & Hd & Hl).
  exists w'. split; [exact Hd|].
  destruct (getConnectedMCPTools w') as [|x l] eqn:Hx; [reflexivity|].
  assert (Hin : In x (getConnectedMCPTools w')) by (rewrite Hx; left; reflexivity).
  unfold getConnectedMCPTools in Hin. apply tools_of_connected_spec in Hin
    as (key & mc & _ & _ & Hget & Hc & _).
  rewrite Hl in Hget. destruct (clients w !! key); [|discriminate].
  injection Hget as <-. discriminate.
Qed.

End RegistryFacts.

(** * The life of a client object *)

Section ClientFacts.

Variable E : Environment.

Lemma handshaken_later c ev tr : handshaken E c tr -> handshaken E c (ev :: tr).
Proof.
  intros (t & newer & older & -> & Hok). exists t, (ev :: newer), older. auto.
Qed.

Lemma handshaken_app c events tr : handshaken E c tr -> handshaken E c (events ++ tr)%list.
Proof.
  induction events as [|ev events IH]; simpl; [auto|].
  intros H. apply handshaken_later, IH, H.
Qed.

(** Events that are no request leave a safe trace safe. *)
Lemma trace_safe_quiet events tr :
  Forall (fun ev => used_by ev = None) events ->
  trace_safe E tr -> trace_safe E (events ++ tr)%list.
Proof.
  induction 1 as [|ev events Hev _ IH]; simpl; [auto|].
  intros Htr. split; [apply IH, Htr|]. intros c Hc. congruence.
Qed.

(** [establish], step by step. *)
Lemma establish_unfold config w :
  establish E config w =
    let c := {| client_name := "mcp-client-" ++ cfg_id config; client_version := "1.0.0";
                client_uid := allocated w |} in
    let w0 := {| clients := clients w; trace := EvNewClient c :: trace w;
                 allocated := S (allocated w) |} in
    match createTransport E config w0 with
    | (Normal t, w1) =>
        match client_connect E (trace w1) c t with
        | fulfilled _ => (Normal c, log_event (EvConnect c t) w1)
        | rejected e => (Throw e, log_event (EvConnect c t) w1)
        end
    | (Throw e, w1) => (Throw e, w1)
    end.
Proof.
  unfold establish, new_Client, Client_connect, bind, emit, await, ret. cbv zeta.
  destruct (createTransport E config _) as [[t|e] w1]; [|reflexivity].
  destruct (client_connect E (trace w1) _ t) as [[]|e]; reflexivity.
Qed.

Lemma trace_safe_cons_quiet ev tr :
  used_by ev = None -> trace_safe E tr -> trace_safe E (ev :: tr).
Proof. intros Hev Htr. split; [exact Htr|]. intros c Hc. congruence. Qed.

Lemma trace_safe_request ev c tr :
  trace_safe E tr -> used_by ev = Some c -> handshaken E c tr -> EvClose c ∉ tr ->
  trace_safe E (ev :: tr).
Proof.
  intros Htr Hev Hs Hc. split; [exact Htr|]. intros c' Hc'.
  rewrite Hev in Hc'. injection Hc' as <-. auto.
Qed.

Lemma not_closed_later c ev tr : ev <> EvClose c -> EvClose c ∉ tr -> EvClose c ∉ ev :: tr.
Proof. intros Hne Hc Hin. apply elem_of_cons in Hin as [Hin|Hin]; auto. Qed.

(** The three ways [establish] ends, with the world each one leaves. *)
Lemma establish_cases config w :
  let c := {| client_name := "mcp-client-" ++ cfg_id config; client_version := "1.0.0";
              client_uid := allocated w |} in
  let w0 := {| clients := clients w; trace := EvNewClient c :: trace w;
               allocated := S (allocated w) |} in
  (exists e, establish E config w = (Throw e, w0)) \/
  (exists e t,
     establish E config w
       = (Throw e, log_event (EvConnect c t) (log_event (EvNewTransport t) w0))) \/
  (exists t,
     establish E config w
       = (Normal c, log_event (EvConnect c t) (log_event (EvNewTransport t) w0)) /\
     client_connect E (EvNewTransport t :: EvNewClient c :: trace w) c t = fulfilled tt).
Proof.
  intros c w0. rewrite establish_unfold. cbv zeta. fold c. fold w0.
  destruct (createTransport_cases E config w0) as [[t ->]|[e ->]]; [|left; eauto].
  right.
  change (trace (log_event (EvNewTransport t) w0))
    with (EvNewTransport t :: EvNewClient c :: trace w).
  destruct (client_connect E (EvNewTransport t :: EvNewClient c :: trace w) c t) as [[]|e] eqn:Hc.
  - right. exists t. split; [reflexivity|exact Hc].
  - left. exists e, t. reflexivity.
Qed.

(** What a [connect] does to the world: nothing, or a failed attempt that
    sends no request, or an established connection on a new client. *)
Lemma connect_effect config w :
  let c := {| client_name := "mcp-client-" ++ cfg_id config; client_version := "1.0.0";
              client_uid := allocated w |} in
  let w' := snd (connect E config w) in
  w' = w \/
  (exists mc events,
     clients w' = <[cfg_id config := mc]> (clients w) /\
     allocated w' = S (allocated w) /\
     trace w' = (events ++ trace w)%list /\
     mc_client mc = None /\
     Forall (fun ev => used_by ev = None) events) \/
  (exists mc t,
     clients w' = <[cfg_id config := mc]> (clients w) /\
     allocated w' = S (allocated w) /\
     trace w' = ([EvListResources c; EvListPrompts c; EvListTools c; EvConnect c t;
                  EvNewTransport t; EvNewClient c] ++ trace w)%list /\
     mc_client mc = Some c /\
     client_connect E (EvNewTransport t :: EvNewClient c :: trace w) c t = fulfilled tt).
Proof.
  intros c w'. subst w'.
  destruct (is_connected (clients w !! cfg_id config)) eqn:Hc.
  - unfold is_connected in Hc.
    destruct (clients w !! cfg_id config) as [mc|] eqn:Hget; [|discriminate].
    apply bool_decide_eq_true_1 in Hc.
    rewrite (connect_guarded _ _ _ _ Hget Hc). left. reflexivity.
  - right. rewrite (connect_unguarded _ _ _ Hc).
    destruct (establish_cases config w) as [[e He]|[(e & t & He)|(t & He & Hok)]]; fold c in He.
    + left. rewrite (connect_attempt_failed _ _ _ _ _ He).
      exists (failed_record config e), [EvNewClient c]. repeat split.
      repeat constructor.
    + left. rewrite (connect_attempt_failed _ _ _ _ _ He).
      exists (failed_record config e), [EvConnect c t; EvNewTransport t; EvNewClient c].
      repeat split. repeat constructor.
    + right. rewrite (connect_attempt_established _ _ _ _ _ He).
      eexists (connected_record config c _ _), t. repeat split. exact Hok.
Qed.

(** What a [disconnect] does to the world. *)
Lemma disconnect_effect serverId w :
  let w' := snd (disconnect E serverId w) in
  allocated w' = allocated w /\
  (forall k, clients w' !! k =
     if bool_decide (k = serverId)
     then disconnected_entry k <$> clients w !! k
     else clients w !! k) /\
  match clients w !! serverId with
  | Some mc =>
      match close_attempted mc with
      | Some c =>
          exists events,
            trace w' = (events ++ EvClose c :: trace w)%list /\
            Forall (fun ev => used_by ev = None) events
      | None => trace w' = trace w
      end
  | None => trace w' = trace w
  end.
Proof.
  intros w'. subst w'.
  destruct (disconnect_lookup E serverId w) as (w' & Hd & Hl).
  split; [|split; [rewrite Hd; exact Hl|]].
  - unfold disconnect, bind, clients_get.
    destruct (clients w !! serverId) as [mc|]; [|reflexivity].
    unfold close_quietly, try_catch, Client_close, bind, emit, await, console_error, emit.
    destruct (mc_client mc) as [c|]; [|reflexivity].
    destruct (bool_decide _); [|reflexivity].
    destruct (client_close E (trace w) c) as [[]|e]; reflexivity.
  - destruct (clients w !! serverId) as [mc|] eqn:Hget.
    + destruct (disconnect_present E _ _ _ Hget) as (w1 & Hq & _ & ->). simpl.
      destruct (close_attempted mc) as [c|] eqn:Hc.
      * destruct (close_quietly_some E serverId _ _ w Hc) as (w1' & Hq' & _ & Htr).
        rewrite Hq in Hq'. injection Hq' as <-.
        destruct Htr as [->|(e & _ & ->)].
        -- exists []. split; [reflexivity|constructor].
        -- eexists [_]. split; [reflexivity|]. repeat constructor.
      * rewrite (close_quietly_none E _ _ w Hc) in Hq. injection Hq as <-. reflexivity.
    + rewrite (disconnect_absent E _ _ Hget). reflexivity.
Qed.

(** What an invocation does to the world: nothing, or one request on the
    handle of the ["connected"] record. *)
Lemma invocation_effect serverId w :
  forall w',
    (exists toolName args, w' = snd (callTool E serverId toolName args w)) \/
    (exists promptName args, w' = snd (getPrompt E serverId promptName args w)) \/
    (exists uri, w' = snd (readResource E serverId uri w)) ->
    w' = w \/
    exists mc c ev,
      clients w !! serverId = Some mc /\ status (mc_status mc) = connected /\
      mc_client mc = Some c /\ used_by ev = Some c /\ w' = log_event ev w /\
      (forall c', ev <> EvClose c').
Proof.
  intros w' H.
  unfold callTool, getPrompt, readResource, bind, clients_get, with_client in H.
  unfold is_connected in H.
  destruct (clients w !! serverId) as [mc|] eqn:Hget; simpl in H;
    [|left; destruct H as [(? & ? & ->)|[(? & ? & ->)|(? & ->)]]; reflexivity].
  destruct (bool_decide (status (mc_status mc) = connected)) eqn:Hst; simpl in H;
    [|left; destruct H as [(? & ? & ->)|[(? & ? & ->)|(? & ->)]]; reflexivity].
  apply bool_decide_eq_true_1 in Hst.
  destruct mc as [[c|] cf st cp]; simpl in *;
    [|left; destruct H as [(? & ? & ->)|[(? & ? & ->)|(? & ->)]]; reflexivity].
  right. eexists _, c.
  destruct H as [(toolName & args & ->)|[(promptName & args & ->)|(uri & ->)]].
  - exists (EvCallTool c {| call_name := toolName; call_arguments := args_or_empty args |}).
    split; [reflexivity|]. split; [exact Hst|]. repeat split. discriminate.
  - exists (EvGetPrompt c {| get_name := promptName; get_arguments := args |}).
    split; [reflexivity|]. split; [exact Hst|]. repeat split. discriminate.
  - exists (EvReadResource c {| read_uri := uri |}).
    split; [reflexivity|]. split; [exact Hst|]. repeat split. discriminate.
Qed.

Lemma elem_of_quiet c events tr :
  Forall (fun ev => used_by ev = None) events ->
  EvClose c ∈ (events ++ tr)%list -> EvClose c ∈ tr.
Proof.
  intros Hq Hin. apply elem_of_app in Hin as [Hin|Hin]; [|exact Hin].
  exfalso. rewrite Forall_forall in Hq. specialize (Hq _ Hin). discriminate.
Qed.

Lemma connect_preserves_safe config w :
  registry_safe E w -> registry_safe E (snd (connect E config w)).
Proof.
  intros (Htr & Hfresh & Hclosed & Hlive & Hdistinct & Hshaken).
  pose proof (connect_effect config w) as Heff. cbv zeta in Heff.
  set (c := {| client_name := _ |}) in Heff.
  destruct Heff as [->|[(mc & events & Hcl & Hal & Htrace & Hnone & Hquiet)
                       |(mc & t & Hcl & Hal & Htrace & Hsome & Hok)]].
  - repeat split; assumption.
  - unfold registry_safe. rewrite Hal, Htrace.
    split; [apply trace_safe_quiet; assumption|].
    split; [|split; [|split; [|split]]].
    + intros key mc' c' Hget Hc'. rewrite Hcl in Hget.
      destruct (decide (key = cfg_id config)) as [->|Hne].
      * rewrite lookup_insert_eq in Hget. injection Hget as <-. congruence.
      * rewrite lookup_insert_ne in Hget by congruence.
        specialize (Hfresh _ _ _ Hget Hc'). lia.
    + intros c' Hin. apply elem_of_quiet in Hin; [|exact Hquiet].
      specialize (Hclosed _ Hin). lia.
    + intros c' key mc' Hin Hget Hst. rewrite Hcl in Hget.
      apply elem_of_quiet in Hin; [|exact Hquiet].
      destruct (decide (key = cfg_id config)) as [->|Hne].
      * rewrite lookup_insert_eq in Hget. injection Hget as <-. congruence.
      * rewrite lookup_insert_ne in Hget by congruence. eauto.
    + intros k1 k2 mc1 mc2 c' H1 H2 Hc1 Hc2. rewrite Hcl in H1, H2.
      destruct (decide (k1 = cfg_id config)) as [->|Hn1].
      { rewrite lookup_insert_eq in H1. injection H1 as <-. congruence. }
      destruct (decide (k2 = cfg_id config)) as [->|Hn2].
      { rewrite lookup_insert_eq in H2. injection H2 as <-. congruence. }
      rewrite lookup_insert_ne in H1, H2 by congruence. eauto.
    + intros key mc' c' Hget Hst Hc'. rewrite Hcl in Hget.
      destruct (decide (key = cfg_id config)) as [->|Hne].
      * rewrite lookup_insert_eq in Hget. injection Hget as <-. congruence.
      * rewrite lookup_insert_ne in Hget by congruence.
        apply handshaken_app. eauto.
  - assert (Hnew : ~ EvClose c ∈ trace w).
    { intros Hin. specialize (Hclosed _ Hin). simpl in Hclosed. lia. }
    assert (Hshake : handshaken E c (EvConnect c t :: EvNewTransport t :: EvNewClient c :: trace w)).
    { exists t, [], (EvNewTransport t :: EvNewClient c :: trace w). split; [reflexivity|exact Hok]. }
    unfold registry_safe. rewrite Hal, Htrace.
    split; [|split; [|split; [|split; [|split]]]].
    + simpl app.
      apply (trace_safe_request _ c);
        [|reflexivity|do 2 apply handshaken_later; exact Hshake
         |repeat (apply not_closed_later; [discriminate|]); exact Hnew].
      apply (trace_safe_request _ c);
        [|reflexivity|apply handshaken_later; exact Hshake
         |repeat (apply not_closed_later; [discriminate|]); exact Hnew].
      apply (trace_safe_request _ c);
        [|reflexivity|exact Hshake
         |repeat (apply not_closed_later; [discriminate|]); exact Hnew].
      repeat (apply trace_safe_cons_quiet; [reflexivity|]). exact Htr.
    + intros key mc' c' Hget Hc'. rewrite Hcl in Hget.
      destruct (decide (key = cfg_id config)) as [->|Hne].
      * rewrite lookup_insert_eq in Hget. injection Hget as <-.
        rewrite Hsome in Hc'. injection Hc' as <-. simpl. lia.
      * rewrite lookup_insert_ne in Hget by congruence.
        specialize (Hfresh _ _ _ Hget Hc'). lia.
    + intros c' Hin. simpl in Hin.
      repeat (apply elem_of_cons in Hin as [Hin|Hin]; [discriminate|]).
      specialize (Hclosed _ Hin). lia.
    + intros c' key mc' Hin Hget Hst. rewrite Hcl in Hget. simpl in Hin.
      repeat (apply elem_of_cons in Hin as [Hin|Hin]; [discriminate|]).
      destruct (decide (key = cfg_id config)) as [->|Hne].
      * rewrite lookup_insert_eq in Hget. injection Hget as <-.
        rewrite Hsome. intros [= <-]. exact (Hnew Hin).
      * rewrite lookup_insert_ne in Hget by congruence. eauto.
    + intros k1 k2 mc1 mc2 c' H1 H2 Hc1 Hc2. rewrite Hcl in H1, H2.
      destruct (decide (k1 = cfg_id config)) as [->|Hn1];
        destruct (decide (k2 = cfg_id config)) as [->|Hn2]; try reflexivity.
      * rewrite lookup_insert_eq in H1. injection H1 as <-.
        rewrite lookup_insert_ne in H2 by congruence.
        rewrite Hsome in Hc1. injection Hc1 as <-.
        specialize (Hfresh _ _ _ H2 Hc2). simpl in Hfresh. lia.
      * rewrite lookup_insert_eq in H2. injection H2 as <-.
        rewrite lookup_insert_ne in H1 by congruence.
        rewrite Hsome in Hc2. injection Hc2 as <-.
        specialize (Hfresh _ _ _ H1 Hc1). simpl in Hfresh. lia.
      * rewrite lookup_insert_ne in H1, H2 by congruence. eauto.
    + intros key mc' c' Hget Hst Hc'. rewrite Hcl in Hget.
      destruct (decide (key = cfg_id config)) as [->|Hne].
      * rewrite lookup_insert_eq in Hget. injection Hget as <-.
        rewrite Hsome in Hc'. injection Hc' as <-.
        simpl app. do 3 apply handshaken_later. exact Hshake.
      * rewrite lookup_insert_ne in Hget by congruence.
        apply (handshaken_app c' [_; _; _; _; _; _]). eauto.
Qed.

Lemma disconnect_preserves_safe serverId w :
  registry_safe E w -> registry_safe E (snd (disconnect E serverId w)).
Proof.
  intros (Htr & Hfresh & Hclosed & Hlive & Hdistinct & Hshaken).
  destruct (disconnect_effect serverId w) as (Hal & Hl & Htrace).
  set (w' := snd (disconnect E serverId w)) in *.
  (* the records of [w'] are those of [w], the one of [serverId] disconnected *)
  assert (Hrec : forall k mc', clients w' !! k = Some mc' ->
            exists mc, clients w !! k = Some mc /\ mc_client mc' = mc_client mc /\
              (status (mc_status mc') = connected ->
               status (mc_status mc) = connected /\ k <> serverId)).
  { intros k mc' Hget. rewrite Hl in Hget. case_bool_decide as Hk.
    - destruct (clients w !! k) as [mc|]; [|discriminate]. injection Hget as <-.
      exists mc. repeat split; discriminate.
    - exists mc'. repeat split; auto. }
  destruct (clients w !! serverId) as [mc|] eqn:Hget;
    [destruct (close_attempted mc) as [c|] eqn:Hc|].
  - destruct Htrace as (events & Htrace & Hquiet).
    unfold close_attempted in Hc.
    destruct (mc_client mc) as [c0|] eqn:Hc0; [|discriminate].
    destruct (bool_decide (status (mc_status mc) = connected)) eqn:Hst; [|discriminate].
    injection Hc as ->. apply bool_decide_eq_true_1 in Hst.
    unfold registry_safe. rewrite Hal, Htrace.
    split; [|split; [|split; [|split; [|split]]]].
    + apply trace_safe_quiet; [exact Hquiet|]. simpl. split; [exact Htr|].
      intros c' [= <-]. split; [eauto|]. intros Hin. exact (Hlive _ _ _ Hin Hget Hst Hc0).
    + intros k mc' c' Hk Hc'. destruct (Hrec _ _ Hk) as (mc0 & Hk0 & Heq & _).
      rewrite Heq in Hc'. eauto.
    + intros c' Hin. apply elem_of_quiet in Hin; [|exact Hquiet].
      apply elem_of_cons in Hin as [[= ->]|Hin]; eauto.
    + intros c' k mc' Hin Hk Hst' Hc'. apply elem_of_quiet in Hin; [|exact Hquiet].
      destruct (Hrec _ _ Hk) as (mc0 & Hk0 & Heq & Hconn).
      destruct (Hconn Hst') as [Hst0 Hne]. rewrite Heq in Hc'.
      apply elem_of_cons in Hin as [[= ->]|Hin].
      * apply Hne. exact (Hdistinct _ _ _ _ _ Hk0 Hget Hc' Hc0).
      * exact (Hlive _ _ _ Hin Hk0 Hst0 Hc').
    + intros k1 k2 mc1 mc2 c' H1 H2 Hc1 Hc2.
      destruct (Hrec _ _ H1) as (m1 & G1 & E1 & _).
      destruct (Hrec _ _ H2) as (m2 & G2 & E2 & _).
      rewrite E1 in Hc1. rewrite E2 in Hc2. eauto.
    + intros k mc' c' Hk Hst' Hc'.
      destruct (Hrec _ _ Hk) as (mc0 & Hk0 & Heq & Hconn).
      destruct (Hconn Hst') as [Hst0 _]. rewrite Heq in Hc'.
      apply handshaken_app, handshaken_later. eauto.
  - unfold registry_safe. rewrite Hal, Htrace.
    split; [exact Htr|]. split; [|split; [|split; [|split]]].
    + intros k mc' c' Hk Hc'. destruct (Hrec _ _ Hk) as (mc0 & Hk0 & Heq & _).
      rewrite Heq in Hc'. eauto.
    + exact Hclosed.
    + intros c' k mc' Hin Hk Hst' Hc'.
      destruct (Hrec _ _ Hk) as (mc0 & Hk0 & Heq & Hconn).
      destruct (Hconn Hst') as [Hst0 _]. rewrite Heq in Hc'.
      exact (Hlive _ _ _ Hin Hk0 Hst0 Hc').
    + intros k1 k2 mc1 mc2 c' H1 H2 Hc1 Hc2.
      destruct (Hrec _ _ H1) as (m1 & G1 & E1 & _).
      destruct (Hrec _ _ H2) as (m2 & G2 & E2 & _).
      rewrite E1 in Hc1. rewrite E2 in Hc2. eauto.
    + intros k mc' c' Hk Hst' Hc'.
      destruct (Hrec _ _ Hk) as (mc0 & Hk0 & Heq & Hconn).
      destruct (Hconn Hst') as [Hst0 _]. rewrite Heq in Hc'. eauto.
  - assert (Hsame : clients w' = clients w).
    { apply map_eq. intros k. rewrite Hl. case_bool_decide as Hk; [|reflexivity].
      subst k. rewrite Hget. reflexivity. }
    unfold registry_safe. rewrite Hal, Htrace, Hsame. repeat split; assumption.
Qed.

Lemma registry_closing_none w : registry_safe E w <-> registry_closing E [] w.
Proof.
  unfold registry_safe, registry_closing. split.
  - intros (Htr & Hfresh & Hclosed & Hlive & Hdistinct & Hshaken).
    repeat split; try assumption.
    + intros c key mc Hin Hget Hst Hc. destruct (Hlive _ _ _ Hin Hget Hst Hc).
    + constructor.
    + intros p Hp. apply not_elem_of_nil in Hp. contradiction.
  - intros (Htr & Hfresh & Hclosed & Hlive & Hdistinct & Hshaken & _ & _).
    repeat split; try assumption.
    intros c key mc Hin Hget Hst Hc. specialize (Hlive _ _ _ Hin Hget Hst Hc).
    apply not_elem_of_nil in Hlive. contradiction.
Qed.

Lemma registry_closing_permutation paused paused' w :
  paused ≡ₚ paused' -> registry_closing E paused w -> registry_closing E paused' w.
Proof.
  intros Hperm (Htr & Hfresh & Hclosed & Hlive & Hdistinct & Hshaken & Hnodup & Hheld).
  unfold registry_closing. repeat split; try assumption.
  - intros c key mc Hin Hget Hst Hc. rewrite <- Hperm. eauto.
  - rewrite <- Hperm. exact Hnodup.
  - intros p Hp. rewrite <- Hperm in Hp. eauto.
Qed.

(** A record is replaced by its disconnected form, and the calls that were
    paused for its id are no longer. *)
Lemma registry_closing_disconnected paused paused' k mc w w' :
  registry_closing E paused w ->
  clients w !! k = Some mc ->
  clients w' = <[k := disconnected_entry k mc]> (clients w) ->
  allocated w' = allocated w ->
  (exists events,
     trace w' = (events ++ trace w)%list /\ Forall (fun ev => used_by ev = None) events) ->
  NoDup (closing_id <$> paused') ->
  (forall p, p ∈ paused' -> p ∈ paused /\ closing_id p <> k) ->
  (forall key, key ∈ closing_id <$> paused -> key <> k -> key ∈ closing_id <$> paused') ->
  registry_closing E paused' w'.
Proof.
  intros (Htr & Hfresh & Hclosed & Hlive & Hdistinct & Hshaken & _ & Hheld)
    Hget Hcl Hal (events & Htrace & Hquiet) Hnodup Hsub Hsup.
  assert (Hrec : forall key mc', clients w' !! key = Some mc' ->
            exists mc0, clients w !! key = Some mc0 /\ mc_client mc' = mc_client mc0 /\
              (status (mc_status mc') = connected -> mc' = mc0 /\ key <> k)).
  { intros key mc' Hk. rewrite Hcl in Hk.
    destruct (decide (key = k)) as [->|Hne].
    - rewrite lookup_insert_eq in Hk. injection Hk as <-.
      exists mc. split; [exact Hget|]. split; [reflexivity|]. discriminate.
    - rewrite lookup_insert_ne in Hk by congruence. exists mc'. repeat split; auto. }
  unfold registry_closing. rewrite Hal, Htrace.
  split; [|split; [|split; [|split; [|split; [|split; [|split]]]]]].
  - apply trace_safe_quiet; assumption.
  - intros key mc' c Hk Hc. destruct (Hrec _ _ Hk) as (mc0 & Hk0 & Heq & _).
    rewrite Heq in Hc. eauto.
  - intros c Hin. apply elem_of_quiet in Hin; eauto.
  - intros c key mc' Hin Hk Hst Hc. apply elem_of_quiet in Hin; [|exact Hquiet].
    destruct (Hrec _ _ Hk) as (mc0 & Hk0 & _ & Hconn).
    destruct (Hconn Hst) as [-> Hne]. apply Hsup; [|exact Hne]. eauto.
  - intros k1 k2 mc1 mc2 c H1 H2 Hc1 Hc2.
    destruct (Hrec _ _ H1) as (m1 & G1 & E1 & _).
    destruct (Hrec _ _ H2) as (m2 & G2 & E2 & _).
    rewrite E1 in Hc1. rewrite E2 in Hc2. eauto.
  - intros key mc' c Hk Hst Hc.
    destruct (Hrec _ _ Hk) as (mc0 & Hk0 & _ & Hconn).
    destruct (Hconn Hst) as [-> _]. apply handshaken_app. eauto.
  - exact Hnodup.
  - intros p Hp. destruct (Hsub p Hp) as [Hin Hne].
    rewrite Hcl, lookup_insert_ne by congruence. eauto.
Qed.

(** A call of [disconnect] for an id that no paused call is for, as far as
    its [await]. *)
Lemma disconnect_begin_closing paused serverId w :
  registry_closing E paused w ->
  serverId ∉ closing_id <$> paused ->
  exists p w1,
    disconnect_begin E serverId w = (Normal p, w1) /\
    (forall q, p = Some q -> closing_id q = serverId) /\
    registry_closing E (match p with Some q => q :: paused | None => paused end) w1.
Proof.
  intros Hsafe Hnew. pose proof (disconnect_begin_cases E serverId w) as Hb.
  destruct (clients w !! serverId) as [mc|] eqn:Hget;
    [destruct (close_attempted mc) as [c|] eqn:Hc|]; rewrite Hb; clear Hb.
  - eexists _, _. split; [reflexivity|]. split; [intros q [= <-]; reflexivity|].
    destruct Hsafe as (Htr & Hfresh & Hclosed & Hlive & Hdistinct & Hshaken & Hnodup & Hheld).
    unfold close_attempted in Hc.
    destruct (mc_client mc) as [c0|] eqn:Hc0; [|discriminate].
    destruct (bool_decide (status (mc_status mc) = connected)) eqn:Hst; [|discriminate].
    injection Hc as ->. apply bool_decide_eq_true_1 in Hst.
    unfold registry_closing. simpl.
    split; [|split; [|split; [|split; [|split; [|split; [|split]]]]]].
    + split; [exact Htr|]. intros c' [= <-]. split; [eauto|].
      intros Hin. exact (Hnew (Hlive _ _ _ Hin Hget Hst Hc0)).
    + exact Hfresh.
    + intros c' Hin. apply elem_of_cons in Hin as [[= ->]|Hin]; eauto.
    + intros c' key mc' Hin Hk Hst' Hc'.
      apply elem_of_cons in Hin as [[= ->]|Hin].
      * rewrite (Hdistinct _ _ _ _ _ Hk Hget Hc' Hc0). apply list_elem_of_here.
      * apply list_elem_of_further. eauto.
    + exact Hdistinct.
    + intros key mc' c' Hk Hst' Hc'. apply handshaken_later. eauto.
    + apply NoDup_cons. split; assumption.
    + intros p Hp. apply elem_of_cons in Hp as [->|Hp]; [exact Hget|eauto].
  - eexists _, _. split; [reflexivity|]. split; [discriminate|].
    assert (Hnodup : NoDup (closing_id <$> paused)) by apply Hsafe.
    apply (registry_closing_disconnected paused paused serverId mc w); auto.
    + exists []. split; [reflexivity|constructor].
    + intros p Hp. split; [exact Hp|]. intros Heq. apply Hnew.
      rewrite <- Heq. apply list_elem_of_fmap. eauto.
  - eexists _, _. split; [reflexivity|]. split; [discriminate|]. exact Hsafe.
Qed.

Lemma disconnect_begin_each_closing serverIds : forall paused w,
  registry_closing E paused w ->
  NoDup serverIds ->
  (forall k, k ∈ serverIds -> k ∉ closing_id <$> paused) ->
  exists begun_now w1,
    disconnect_begin_each E serverIds w = (Normal begun_now, w1) /\
    registry_closing E (begun_now ++ paused) w1.
Proof.
  induction serverIds as [|serverId rest IH]; intros paused w Hsafe Hnodup Hnew.
  - exists [], w. split; [reflexivity|exact Hsafe].
  - apply NoDup_cons in Hnodup as [Hfirst Hnodup].
    destruct (disconnect_begin_closing paused serverId w Hsafe) as (p & w0 & Hb & Hid & H0).
    { apply Hnew, list_elem_of_here. }
    destruct (IH _ w0 H0 Hnodup) as (ps & w1 & He & H1).
    { intros k Hk. destruct p as [q|]; [|apply Hnew, list_elem_of_further, Hk].
      rewrite fmap_cons, (Hid q eq_refl). intros Hin.
      apply elem_of_cons in Hin as [->|Hin]; [contradiction|].
      exact (Hnew k (list_elem_of_further _ _ _ Hk) Hin). }
    eexists _, w1. split; [simpl; unfold bind; rewrite Hb, He; reflexivity|].
    destruct p as [q|]; [|exact H1].
    refine (registry_closing_permutation _ _ _ _ H1).
    simpl. symmetry. apply Permutation_middle.
Qed.

Lemma disconnect_finish_each_closing paused : forall w,
  registry_closing E paused w ->
  registry_safe E (snd (disconnect_finish_each paused w)).
Proof.
  induction paused as [|p rest IH]; intros w Hsafe.
  - apply registry_closing_none, Hsafe.
  - destruct (disconnect_finish_cases p w) as (w2 & Hf & Hcl & Hal & Htr).
    simpl. unfold bind. rewrite Hf. apply IH.
    assert (Hnodup : NoDup (closing_id <$> p :: rest)) by apply Hsafe.
    assert (Hheld : clients w !! closing_id p = Some (closing_record p))
      by (apply Hsafe, list_elem_of_here).
    rewrite fmap_cons in Hnodup. apply NoDup_cons in Hnodup as [Hfirst Hnodup].
    apply (registry_closing_disconnected (p :: rest) rest (closing_id p) (closing_record p) w);
      auto.
    + destruct Htr as [->|(e & _ & ->)].
      * exists []. split; [reflexivity|constructor].
      * eexists [_]. split; [reflexivity|]. repeat constructor.
    + intros q Hq. split; [apply list_elem_of_further, Hq|].
      intros Heq. apply Hfirst. rewrite <- Heq. apply list_elem_of_fmap. eauto.
    + intros key Hin Hne. rewrite fmap_cons in Hin.
      apply elem_of_cons in Hin as [Hin|Hin]; [contradiction|exact Hin].
Qed.

Lemma disconnectAll_preserves_safe w :
  registry_safe E w -> registry_safe E (snd (disconnectAll E w)).
Proof.
  intros Hsafe. apply registry_closing_none in Hsafe.
  destruct (disconnect_begin_each_closing (clients_keys w) [] w Hsafe)
    as (paused & w1 & Hb & H1).
  - apply NoDup_fst_map_to_list.
  - intros k _. apply not_elem_of_nil.
  - unfold disconnectAll, bind. rewrite Hb. rewrite app_nil_r in H1.
    apply disconnect_finish_each_closing, H1.
Qed.

Lemma invocation_preserves_safe serverId w w' :
  (exists toolName args, w' = snd (callTool E serverId toolName args w)) \/
  (exists promptName args, w' = snd (getPrompt E serverId promptName args w)) \/
  (exists uri, w' = snd (readResource E serverId uri w)) ->
  registry_safe E w -> registry_safe E w'.
Proof.
  intros Hcall Hsafe.
  destruct (invocation_effect serverId w w' Hcall)
    as [->|(mc & c & ev & Hget & Hst & Hc & Hev & -> & Hopen)]; [exact Hsafe|].
  destruct Hsafe as (Htr & Hfresh & Hclosed & Hlive & Hdistinct & Hshaken).
  assert (Hin : forall c', EvClose c' ∈ ev :: trace w -> EvClose c' ∈ trace w).
  { intros c' Hin. apply elem_of_cons in Hin as [Hin|Hin]; [|exact Hin].
    symmetry in Hin. destruct (Hopen c' Hin). }
  unfold registry_safe. simpl.
  split; [|split; [|split; [|split; [|split]]]].
  - split; [exact Htr|]. intros c' Hc'. rewrite Hev in Hc'. injection Hc' as <-.
    split; [eauto|]. intros Hcl. exact (Hlive _ _ _ Hcl Hget Hst Hc).
  - exact Hfresh.
  - intros c' Hcl. apply Hin in Hcl. eauto.
  - intros c' k mc' Hcl Hk Hst' Hc'. apply Hin in Hcl.
    exact (Hlive _ _ _ Hcl Hk Hst' Hc').
  - exact Hdistinct.
  - intros k mc' c' Hk Hst' Hc'. apply handshaken_later. eauto.
Qed.

Lemma step_preserves_safe c w : registry_safe E w -> registry_safe E (step E c w).
Proof.
  intros Hsafe. destruct c as [config|serverId| | | | |serverId ? ?|serverId ? ?|serverId ?];
    simpl; try exact Hsafe.
  - apply connect_preserves_safe, Hsafe.
  - apply disconnect_preserves_safe, Hsafe.
  - apply disconnectAll_preserves_safe, Hsafe.
  - apply (invocation_preserves_safe serverId w); [left; eauto|exact Hsafe].
  - apply (invocation_preserves_safe serverId w); [right; left; eauto|exact Hsafe].
  - apply (invocation_preserves_safe serverId w); [right; right; eauto|exact Hsafe].
Qed.

Lemma run_calls_safe calls : forall w,
  registry_safe E w -> registry_safe E (run_calls E calls w).
Proof.
  induction calls as [|c calls IH]; intros w Hsafe; [exact Hsafe|].
  simpl. apply IH, step_preserves_safe, Hsafe.
Qed.

Lemma initial_world_safe : registry_safe E initial_world.
Proof.
  unfold registry_safe. simpl. repeat split.
  - intros key mc c H. rewrite lookup_empty in H. discriminate.
  - intros c H. apply not_elem_of_nil in H. contradiction.
  - intros c key mc H. apply not_elem_of_nil in H. contradiction.
  - intros k1 k2 mc1 mc2 c H. rewrite lookup_empty in H. discriminate.
  - intros key mc c H. rewrite lookup_empty in H. discriminate.
Qed.

(** In a safe trace, a request on a client comes after the fulfilled
    handshake of the client and is followed by no request on it once it is
    closed. *)
Lemma trace_safe_split tr : forall newer ev older c,
  trace_safe E tr ->
  tr = (newer ++ ev :: older)%list ->
  used_by ev = Some c ->
  handshaken E c older /\ EvClose c ∉ older.
Proof.
  induction tr as [|ev' tr IH]; intros newer ev older c Hsafe Heq Hc.
  - destruct newer; discriminate.
  - destruct Hsafe as [Hrest Hhead]. destruct newer as [|ev0 newer]; simpl in Heq.
    + injection Heq as -> ->. exact (Hhead c Hc).
    + injection Heq as -> ->. exact (IH newer ev older c Hrest eq_refl Hc).
Qed.

(** [callTool] for a record that is ["connected"] on the client [c]. *)
Lemma callTool_on_connected serverId toolName args mc c w :
  clients w !! serverId = Some mc -> close_attempted mc = Some c ->
  callTool E serverId toolName args w
    = (completion_of
         (client_callTool E (trace w) c
            {| call_name := toolName; call_arguments := args_or_empty args |}),
       log_event
         (EvCallTool c {| call_name := toolName; call_arguments := args_or_empty args |}) w).
Proof.
  intros Hget Hc. unfold close_attempted in Hc.
  unfold callTool, bind, clients_get, with_client, is_connected. rewrite Hget.
  destruct mc as [[c'|] cf st cp]; simpl in *; [|discriminate].
  destruct (bool_decide (status st = connected)); [|discriminate].
  injection Hc as ->. simpl.
  unfold Client_callTool, bind, emit, await.
  destruct (client_callTool E (trace w) c _); reflexivity.
Qed.

(** [X23] When the calls of the manager do not overlap (each has settled
    before the next is made), after any history of calls from the empty
    registry every request the manager has sent (a capability query,
    [callTool], [getPrompt], [readResource], [close]) went to a client whose
    handshake had been fulfilled before, and to a client that had not been
    closed before: no client is used after its [close()], and none is closed
    twice.  Calls that overlap are not bound by this: while a [disconnect] of
    an id that is ["connected"] is at its [await], a second [disconnect] of
    the id calls [close()] on the client again, and a [callTool] for the id
    sends its request to the client that was closed. *)
Theorem no_request_on_a_closed_client calls :
  let w := run_calls E calls initial_world in
  (forall newer ev older c,
     trace w = (newer ++ ev :: older)%list ->
     used_by ev = Some c ->
     handshaken E c older /\ EvClose c ∉ older) /\
  (forall serverId mc c,
     clients w !! serverId = Some mc -> close_attempted mc = Some c ->
     exists p w1,
       disconnect_begin E serverId w = (Normal (Some p), w1) /\
       trace w1 = EvClose c :: trace w /\
       trace (snd (disconnect_begin E serverId w1)) = EvClose c :: EvClose c :: trace w /\
       forall toolName args,
       exists params,
         trace (snd (callTool E serverId toolName args w1))
           = EvCallTool c params :: EvClose c :: trace w).
Proof.
  intros w. split.
  - intros newer ev older c Heq Hc.
    destruct (run_calls_safe calls initial_world initial_world_safe) as (Htr & _).
    exact (trace_safe_split _ newer ev older c Htr Heq Hc).
  - intros serverId mc c Hget Hc.
    pose proof (disconnect_begin_cases E serverId w) as Hb. rewrite Hget, Hc in Hb.
    eexists _, _. split; [exact Hb|]. split; [reflexivity|]. split.
    + pose proof (disconnect_begin_cases E serverId (log_event (EvClose c) w)) as Hb'.
      simpl in Hb'. rewrite Hget, Hc in Hb'. rewrite Hb'. reflexivity.
    + intros toolName args. eexists.
      rewrite (callTool_on_connected serverId toolName args mc c); [reflexivity| |exact Hc].
      exact Hget.
Qed.

(** [X24] When the calls of the manager do not overlap (each has settled
    before the next is made), after any history of calls from the empty
    registry no two records hold the same client object, the client of a
    ["connected"] record has completed its handshake, and it has not been
    closed.  A call that overlaps a [disconnect] does not find this: while
    the [disconnect] of an id that is ["connected"] is at its [await], the
    record is as it was, ["connected"], and [close()] has been called on its
    client. *)
Theorem handles_are_live_and_own calls :
  let w := run_calls E calls initial_world in
  (forall k1 k2 mc1 mc2 c,
     clients w !! k1 = Some mc1 -> clients w !! k2 = Some mc2 ->
     mc_client mc1 = Some c -> mc_client mc2 = Some c -> k1 = k2) /\
  (forall key mc c,
     clients w !! key = Some mc -> status (mc_status mc) = connected ->
     mc_client mc = Some c ->
     handshaken E c (trace w) /\ EvClose c ∉ trace w) /\
  (forall key mc c,
     clients w !! key = Some mc -> status (mc_status mc) = connected ->
     mc_client mc = Some c ->
     let w1 := snd (disconnect_begin E key w) in
     clients w1 !! key = Some mc /\ EvClose c ∈ trace w1).
Proof.
  intros w.
  destruct (run_calls_safe calls initial_world initial_world_safe)
    as (_ & _ & _ & Hlive & Hdistinct & Hshaken).
  split; [exact Hdistinct|]. split.
  - intros key mc c Hget Hst Hc.
    split; [eauto|]. intros Hin. exact (Hlive _ _ _ Hin Hget Hst Hc).
  - intros key mc c Hget Hst Hc w1. subst w1.
    pose proof (disconnect_begin_cases E key w) as Hb. rewrite Hget in Hb.
    unfold close_attempted in Hb. rewrite Hc, (bool_decide_eq_true_2 _ Hst) in Hb.
    rewrite Hb. simpl. split; [exact Hget|apply list_elem_of_here].
Qed.

End ClientFacts.

(** * Properties of the message loader *)

Section LoaderFacts.
Import JSON.



(** [X18] The decoding written inside [getMessagesExtended] agrees with
    [decodeExtendedMessage]: on every row whose content [decodeExtendedMessage]
    turns into a value with readable properties (anything but [null]), the
    loaded message has the [text] and the [toolCalls] of that value, and an
    error is logged by the one exactly when it is logged by the other.  On a
    content that is the marker followed by [null] they differ:
    [decodeExtendedMessage] returns [null], the loader falls back to the raw
    content. *)
Theorem loader_agrees_with_decode row d :
  decodeExtendedMessage (row_content row) = Some d ->
  is_Some (get_property (returned d) "text") ->
  exists r,
    extended_row row = Some r /\
    msg_role (loaded r) = row_role row /\
    get_property (returned d) "text" = Some (msg_content (loaded r)) /\
    get_property (returned d) "toolCalls" = Some (default JsUndefined (msg_toolCalls (loaded r))) /\
    row_logged_error r = logged_error d.
Proof.
  unfold decodeExtendedMessage, extended_row.
  destruct (startsWith (row_content row) EXTENDED_MESSAGE_MARKER).
  - destruct (parse (slice _ (row_content row))) as [v| |]; [| |discriminate].
    + intros [= <-]. simpl. intros [text Ht]. rewrite Ht.
      assert (Hc : is_Some (get_property v "toolCalls"))
        by (destruct v; try discriminate; simpl; try destruct (List.find _ _); eauto).
      destruct Hc as [calls Hc]. rewrite Hc.
      eexists. split; [reflexivity|]. repeat split.
    + intros [= <-] _. eexists. split; [reflexivity|]. repeat split.
  - intros [= <-] _. eexists. split; [reflexivity|]. repeat split.
Qed.

End LoaderFacts.

(** * Properties of the conversion to Gemini function declarations *)

Section GeminiFacts.
Import JSON.

Lemma units_append p (a b : string) :
  units_pass p a -> units_pass p b -> units_pass p (a ++ b).
Proof.
  unfold units_pass. induction a as [|c a IH]; simpl; [auto|].
  intros Ha Hb. inversion Ha; subst. constructor; auto.
Qed.

Lemma units_substring p n (s : string) :
  units_pass p s -> units_pass p (substring 0 n s).
Proof.
  unfold units_pass. revert s.
  induction n as [|n IH]; intros [|c s] H; simpl; try constructor.
  - inversion H; subst. assumption.
  - apply IH. inversion H; subst. assumption.
Qed.

Lemma length_substring n (s : string) : String.length (substring 0 n s) <= n.
Proof.
  revert s. induction n as [|n IH]; intros [|c s]; simpl; try lia.
  specialize (IH s). lia.
Qed.

Lemma substring_append n (a b : string) :
  String.length a <= n ->
  substring 0 n (a ++ b) = a ++ substring 0 (n - String.length a) b.
Proof.
  revert n. induction a as [|c a IH]; intros n Hn; simpl in *.
  - rewrite Nat.sub_0_r. reflexivity.
  - destruct n as [|n]; [lia|]. simpl. f_equal. apply IH. lia.
Qed.

Lemma sanitize_units name : units_pass is_word_unit (sanitize name).
Proof.
  unfold units_pass. induction name as [|c name IH]; simpl; constructor; [|exact IH].
  destruct (is_word_unit c) eqn:Hc; [exact Hc|reflexivity].
Qed.

Lemma uint_units d : units_pass is_digit_unit (NilEmpty.string_of_uint d).
Proof.
  unfold units_pass. induction d; simpl; constructor; (reflexivity || assumption).
Qed.

Lemma number_units index :
  units_pass is_digit_unit (number_to_string (Z.of_nat index)).
Proof.
  unfold number_to_string. destruct (Z.of_nat index) eqn:Hz; simpl.
  - unfold units_pass. repeat constructor.
  - apply uint_units.
  - lia.
Qed.

Lemma digit_is_word c : is_digit_unit c = true -> is_word_unit c = true.
Proof.
  unfold is_digit_unit, is_word_unit. simpl. intros ->.
  rewrite orb_true_r. reflexivity.
Qed.

Lemma length_string_of_uint d :
  String.length (NilEmpty.string_of_uint d) = Decimal.nb_digits d.
Proof. induction d; simpl; congruence. Qed.

(** The number that [Pos.of_uint_acc] reads has the digits of the accumulator
    in front. *)
Lemma of_uint_acc_lower d : forall acc,
  (Z.pos acc * 10 ^ Z.of_nat (Decimal.nb_digits d) <= Z.pos (Pos.of_uint_acc d acc))%Z.
Proof.
  induction d; intros acc; simpl Decimal.nb_digits; simpl Pos.of_uint_acc;
    try (rewrite Z.pow_0_r; lia);
    rewrite Nat2Z.inj_succ, Z.pow_succ_r by lia;
    match goal with
    | |- (_ <= Z.pos (Pos.of_uint_acc _ ?a))%Z =>
        specialize (IHd a);
        assert (Z.pos acc * 10 <= Z.pos a)%Z by lia
    end;
    assert (0 < 10 ^ Z.of_nat (Decimal.nb_digits d))%Z by (apply Z.pow_pos_nonneg; lia);
    nia.
Qed.

Lemma to_uint_digits p :
  (10 ^ (Z.of_nat (Decimal.nb_digits (Pos.to_uint p)) - 1) <= Z.pos p)%Z.
Proof.
  pose proof (to_uint_nonzero_head p) as Hh.
  pose proof (DecimalPos.Unsigned.of_to p) as Hv.
  destruct (Pos.to_uint p) as [|d|d|d|d|d|d|d|d|d|d]; try discriminate;
    simpl Decimal.nb_digits; rewrite Nat2Z.inj_succ;
    replace (Z.succ (Z.of_nat (Decimal.nb_digits d)) - 1)%Z
      with (Z.of_nat (Decimal.nb_digits d)) by lia;
    simpl in Hv; injection Hv as Hv; rewrite <- Hv;
    match goal with
    | |- (_ <= Z.pos (Pos.of_uint_acc _ ?a))%Z => pose proof (of_uint_acc_lower d a)
    end;
    assert (0 < 10 ^ Z.of_nat (Decimal.nb_digits d))%Z by (apply Z.pow_pos_nonneg; lia);
    nia.
Qed.

(** An array index is written with ten digits at most. *)
Lemma length_index index :
  (Z.of_nat index <= 4294967295)%Z ->
  String.length (number_to_string (Z.of_nat index)) <= 10.
Proof.
  intros Hb. unfold number_to_string. destruct (Z.of_nat index) as [|p|p] eqn:Hz; simpl.
  - lia.
  - rewrite length_string_of_uint. pose proof (to_uint_digits p) as Hd.
    destruct (le_gt_dec (Decimal.nb_digits (Pos.to_uint p)) 10) as [Hle|Hgt]; [exact Hle|].
    exfalso.
    assert (10 ^ 10 <= 10 ^ (Z.of_nat (Decimal.nb_digits (Pos.to_uint p)) - 1))%Z
      by (apply Z.pow_le_mono_r; lia).
    assert (10 ^ 10 = 10000000000)%Z by reflexivity. lia.
  - lia.
Qed.

Lemma number_to_string_inj (m n : Z) :
  number_to_string m = number_to_string n -> m = n.
Proof.
  unfold number_to_string. intros H.
  apply (f_equal NilEmpty.int_of_string) in H. rewrite !NilEmpty.isi in H.
  injection H as H. apply (f_equal Z.of_int) in H. rewrite !DecimalZ.of_to in H. exact H.
Qed.

(** Two texts that begin with digits and an underscore begin with the same
    digits when they are equal. *)
Lemma digits_then_underscore (d1 d2 r1 r2 : string) :
  units_pass is_digit_unit d1 -> units_pass is_digit_unit d2 ->
  d1 ++ String "_" r1 = d2 ++ String "_" r2 -> d1 = d2.
Proof.
  unfold units_pass.
  revert d2. induction d1 as [|c1 d1 IH]; intros [|c2 d2] H1 H2 Heq; simpl in *.
  - reflexivity.
  - injection Heq as <- _. inversion H2; subst. discriminate.
  - injection Heq as -> _. inversion H1; subst. discriminate.
  - injection Heq as <- Heq. f_equal. inversion H1; inversion H2; subst. eauto.
Qed.

Lemma safeName_prefix index name :
  (Z.of_nat index <= 4294967295)%Z ->
  safeName index name
    = "mcp_" ++ number_to_string (Z.of_nat index)
        ++ String "_" (substring 0 (59 - String.length (number_to_string (Z.of_nat index)))
                                 (sanitize name)).
Proof.
  intros Hb. pose proof (length_index index Hb) as Hl. unfold safeName.
  change (substring 0 64 ("mcp_" ++ ?x)) with ("mcp_" ++ substring 0 60 x).
  f_equal. rewrite substring_append by lia.
  f_equal. set (n := String.length _) in *.
  destruct (60 - n) as [|k] eqn:Hk; [lia|]. simpl.
  replace (59 - n) with k by lia. reflexivity.
Qed.

Lemma safeName_inj index index' name name' :
  (Z.of_nat index <= 4294967295)%Z ->
  (Z.of_nat index' <= 4294967295)%Z ->
  safeName index name = safeName index' name' -> index = index'.
Proof.
  intros Hb Hb' Heq. rewrite !safeName_prefix in Heq by assumption.
  injection Heq as Heq.
  apply digits_then_underscore in Heq; try apply number_units.
  apply number_to_string_inj in Heq. lia.
Qed.

(** [X19] The name given to a tool is one that Gemini accepts for a
    function: at most 64 code units, each of them a letter, a digit or an
    underscore, the first four being [mcp_]. *)
Theorem safeName_wellformed index name :
  String.length (safeName index name) <= 64 /\
  startsWith (safeName index name) "mcp_" = true /\
  units_pass is_word_unit (safeName index name).
Proof.
  split; [apply length_substring|]. split; [reflexivity|].
  apply units_substring.
  apply (units_append _ "mcp_"); [unfold units_pass; repeat constructor|].
  apply units_append.
  - eapply Forall_impl; [apply number_units|]. intros c. apply digit_is_word.
  - apply (units_append _ "_"); [unfold units_pass; repeat constructor|apply sanitize_units].
Qed.

(** What [convert_from] returns: one declaration for each tool, under its
    safe name, and a map that differs from the one given by the entries of
    the safe names. *)
Lemma convert_from_spec tools : forall index toolMap declarations toolMap',
  (Z.of_nat (index + length tools) <= 4294967296)%Z ->
  convert_from index tools toolMap = Some (declarations, toolMap') ->
  length declarations = length tools /\
  (forall k tool, tools !! k = Some tool ->
     exists parameters,
       convert_parameters (inputSchema (tos_tool tool)) = Some parameters /\
       declarations !! k =
         Some {| declaration_name := safeName (index + k) (tool_name (tos_tool tool));
                 declaration_description := description_or_name (tos_tool tool);
                 declaration_parameters := parameters |} /\
       toolMap' !! safeName (index + k) (tool_name (tos_tool tool))
         = Some {| ref_serverId := tos_serverId tool;
                   ref_toolName := tool_name (tos_tool tool) |}) /\
  (forall key,
     (forall k tool, tools !! k = Some tool ->
        key <> safeName (index + k) (tool_name (tos_tool tool))) ->
     toolMap' !! key = toolMap !! key).
Proof.
  induction tools as [|tool rest IH]; intros index toolMap declarations toolMap' Hb Hc.
  - injection Hc as <- <-. split; [reflexivity|]. split; [|reflexivity].
    intros k tool Hk. rewrite lookup_nil in Hk. discriminate.
  - simpl in Hc, Hb.
    destruct (convert_parameters (inputSchema (tos_tool tool))) as [parameters|] eqn:Hp;
      [|discriminate].
    destruct (convert_from (S index) rest _) as [[ds m]|] eqn:Hrest; [|discriminate].
    injection Hc as <- <-.
    apply IH in Hrest as (Hlen & Hdecl & Hframe); [|lia].
    split; [simpl; rewrite Hlen; reflexivity|]. split.
    + intros [|k] tool' Hk; simpl in Hk.
      * injection Hk as <-. exists parameters. split; [exact Hp|].
        rewrite Nat.add_0_r. split; [reflexivity|].
        rewrite Hframe; [apply lookup_insert_eq|].
        intros k tool' Hk Heq. apply safeName_inj in Heq; [lia|lia|].
        apply lookup_lt_Some in Hk. lia.
      * destruct (Hdecl k tool' Hk) as (parameters' & Hp' & Hd & Hm).
        exists parameters'. replace (index + S k) with (S index + k) by lia. auto.
    + intros key Hkey. rewrite Hframe.
      * apply lookup_insert_ne. intros Heq. apply (Hkey 0 tool eq_refl).
        rewrite Nat.add_0_r. symmetry. exact Heq.
      * intros k tool' Hk. replace (S index + k) with (index + S k) by lia.
        apply (Hkey (S k) tool'). exact Hk.
Qed.

(** [X20] When the conversion of a list of tools completes (a list as long as
    an array can be), there is one declaration for each tool, in the order of
    the tools, and the name of each declaration leads back, through
    [toolMap], to the server and the unsanitized name of the tool it was made
    for: no two tools share a name, whatever their own names are. *)
Theorem toolMap_resolves tools declarations toolMap :
  (Z.of_nat (length tools) <= 4294967295)%Z ->
  convertToGeminiFunctions tools = Some (declarations, toolMap) ->
  length declarations = length tools /\
  (forall k tool, tools !! k = Some tool ->
     exists declaration,
       declarations !! k = Some declaration /\
       declaration_name declaration = safeName k (tool_name (tos_tool tool)) /\
       toolMap !! declaration_name declaration
         = Some {| ref_serverId := tos_serverId tool;
                   ref_toolName := tool_name (tos_tool tool) |}) /\
  (forall j k d d', j <> k -> declarations !! j = Some d -> declarations !! k = Some d' ->
     declaration_name d <> declaration_name d').
Proof.
  intros Hb Hc. unfold convertToGeminiFunctions in Hc.
  apply convert_from_spec in Hc as (Hlen & Hdecl & _); [|simpl; lia].
  split; [exact Hlen|]. split.
  - intros k tool Hk. destruct (Hdecl k tool Hk) as (parameters & _ & Hd & Hm).
    eexists. split; [exact Hd|]. split; [reflexivity|exact Hm].
  - intros j k d d' Hne Hj Hk Heq.
    assert (Hjl : j < length tools) by (rewrite <- Hlen; apply lookup_lt_Some in Hj; exact Hj).
    assert (Hkl : k < length tools) by (rewrite <- Hlen; apply lookup_lt_Some in Hk; exact Hk).
    destruct (lookup_lt_is_Some_2 tools j Hjl) as [tj Htj].
    destruct (lookup_lt_is_Some_2 tools k Hkl) as [tk Htk].
    destruct (Hdecl j tj Htj) as (? & _ & Hdj & _).
    destruct (Hdecl k tk Htk) as (? & _ & Hdk & _).
    simpl in Hdj, Hdk. rewrite Hj in Hdj. rewrite Hk in Hdk.
    injection Hdj as ->. injection Hdk as ->. simpl in Heq.
    apply safeName_inj in Heq; lia.
Qed.

Lemma convert_property_readable prop :
  convert_property prop = if readable prop then Some (declared_property prop) else None.
Proof.
  unfold convert_property, declared_property.
  destruct prop; try reflexivity; simpl;
    repeat (destruct (List.find _ _)); reflexivity.
Qed.

Lemma keys_ordered_remove keys key more :
  keys_ordered (keys ++ key :: more) = true -> keys_ordered (keys ++ more) = true.
Proof.
  induction keys as [|k keys IH]; simpl.
  - intros H. apply andb_true_iff in H as [_ H]. exact H.
  - intros H. apply andb_true_iff in H as [Hall Hrest].
    rewrite forallb_app in Hall. apply andb_true_iff in Hall as [H1 H2].
    simpl in H2. apply andb_true_iff in H2 as [_ H2].
    rewrite forallb_app, H1, H2, (IH Hrest). reflexivity.
Qed.

(** The properties the loop leaves: the ones it held, then one for each
    entry whose key is not ["__proto__"]. *)
Lemma convert_properties_ordered entries : forall properties,
  keys_ordered (List.map fst properties ++ List.map fst entries) = true ->
  forallb (fun kv => readable kv.2) entries = true ->
  convert_properties entries properties
    = Some (properties ++
            List.map (fun kv => (kv.1, declared_property kv.2))
              (List.filter (fun kv => negb (String.eqb kv.1 "__proto__")) entries))%list.
Proof.
  induction entries as [|[key value] entries IH]; intros properties Hord Hr; simpl.
  - rewrite app_nil_r. reflexivity.
  - simpl in Hr. apply andb_prop in Hr as [Hv Hr].
    rewrite convert_property_readable, Hv. unfold assign_key.
    simpl in Hord. destruct (String.eqb key "__proto__"); simpl negb; cbv iota.
    + apply IH; [|exact Hr]. apply (keys_ordered_remove _ key), Hord.
    + rewrite define_property_last.
      * rewrite IH; [simpl; rewrite <- app_assoc; reflexivity| |exact Hr].
        rewrite List.map_app. simpl. rewrite <- app_assoc. exact Hord.
      * apply (keys_ordered_prefix _ (List.map fst entries)).
        rewrite <- app_assoc. exact Hord.
Qed.

Lemma convert_properties_throws entries : forall properties,
  convert_properties entries properties = None <->
  existsb (fun kv => negb (readable kv.2)) entries = true.
Proof.
  induction entries as [|[key value] entries IH]; intros properties; simpl.
  - split; discriminate.
  - rewrite convert_property_readable. destruct (readable value); simpl.
    + apply IH.
    + split; reflexivity.
Qed.

Lemma convert_parameters_throws inputSchema :
  convert_parameters inputSchema = None <-> has_unreadable_property inputSchema = true.
Proof.
  unfold convert_parameters, has_unreadable_property.
  destruct (truthy_value inputSchema && typeof_object inputSchema) eqn:Hobj; simpl;
    [|split; discriminate].
  assert (Hreq : is_Some (get_property inputSchema "required"))
    by (destruct inputSchema; try discriminate; simpl; try destruct (List.find _ _); eauto).
  destruct Hreq as [required ->].
  destruct (get_property inputSchema "properties") as [props|]; [|split; discriminate].
  destruct (truthy_value props); simpl; [|split; discriminate].
  pose proof (convert_properties_throws (Object_entries props) []) as Hthrow.
  destruct (convert_properties (Object_entries props) []).
  - split; [discriminate|]. intros H. apply Hthrow in H. discriminate.
  - split; [intros _; apply Hthrow; reflexivity|reflexivity].
Qed.

(** [X21] For a tool whose input schema is an object, with [properties] an
    object none of whose values is [null] or [undefined]: the declaration's
    parameters are of type OBJECT and list one property for each property of
    the schema other than one named ["__proto__"], under the same key and in
    the same order, with the type mapped ([STRING] when it is missing or
    unknown) and the description kept (the empty string when there is none);
    [required] is passed on when it is an array.  A property of the schema
    named ["__proto__"] gives no property of the declaration. *)
Theorem schema_properties_declared members props :
  get_property (JsObject members) "properties" = Some (JsObject props) ->
  keys_ordered (List.map fst props) = true ->
  forallb (fun kv => readable kv.2) props = true ->
  convert_parameters (JsObject members) =
    Some {| parameters_type := Type_OBJECT;
            parameters_properties :=
              List.map (fun kv => (kv.1, declared_property kv.2))
                (List.filter (fun kv => negb (String.eqb kv.1 "__proto__")) props);
            parameters_required :=
              match get_property (JsObject members) "required" with
              | Some (JsArray items) => Some (JsArray items)
              | _ => None
              end |}.
Proof.
  intros Hprops Hnd Hr. unfold convert_parameters.
  change (truthy_value (JsObject members) && typeof_object (JsObject members)) with true.
  cbv iota. rewrite Hprops.
  assert (Hreq : is_Some (get_property (JsObject members) "required"))
    by (simpl; destruct (List.find _ _); eauto).
  destruct Hreq as [required Hreq]. rewrite Hreq.
  change (truthy_value (JsObject props)) with true. cbv iota.
  change (Object_entries (JsObject props)) with props.
  rewrite (convert_properties_ordered props []) by assumption.
  simpl app. f_equal. f_equal. destruct required; simpl; rewrite ?andb_false_r; reflexivity.
Qed.

(** [X22] The conversion of the tools throws exactly when the input schema
    of some tool lists a property whose value is [null] (or [undefined]):
    the read of its [type] is a [TypeError].  Whatever else a schema holds,
    the conversion completes. *)
Theorem conversion_throws_iff tools :
  convertToGeminiFunctions tools = None <->
  Exists (fun tool => has_unreadable_property (inputSchema (tos_tool tool)) = true) tools.
Proof.
  unfold convertToGeminiFunctions. generalize 0 (∅ : gmap string ToolRef).
  induction tools as [|tool rest IH]; intros index toolMap; simpl.
  - split; [discriminate|]. intros H. inversion H.
  - rewrite Exists_cons, <- convert_parameters_throws.
    destruct (convert_parameters (inputSchema (tos_tool tool))) as [parameters|].
    + specialize (IH (S index)
        (<[safeName index (tool_name (tos_tool tool)) :=
             {| ref_serverId := tos_serverId tool;
                ref_toolName := tool_name (tos_tool tool) |}]> toolMap)).
      destruct (convert_from (S index) rest _) as [[ds m]|].
      * split; [discriminate|]. intros [H|H]; [discriminate|]. apply IH in H. discriminate.
      * split; [intros _; right; apply IH; reflexivity|reflexivity].
    + split; [intros _; left; reflexivity|reflexivity].
Qed.

End GeminiFacts.

(** * Properties of the stream of a chat answer *)

Section LoopFacts.

Lemma startsWith_length s search :
  startsWith s search = true -> String.length search <= String.length s.
Proof.
  revert s. induction search as [|c search IH]; intros s H; simpl; [lia|].
  destruct s as [|c' s]; simpl in H; [discriminate|].
  apply andb_prop in H as [_ H]. apply IH in H. simpl. lia.
Qed.

Lemma find_from_bounds search s : forall pos i,
  find_from search s pos = Some i ->
  pos <= i /\ i + String.length search <= pos + String.length s.
Proof.
  induction s as [|c s IH]; intros pos i; simpl.
  - destruct search; simpl; [|discriminate]. intros [= <-]. simpl. lia.
  - destruct (startsWith (String c s) search) eqn:Hs.
    + intros [= <-]. apply startsWith_length in Hs. simpl in Hs. lia.
    + intros H. apply IH in H. lia.
Qed.

Lemma length_slice n : forall s, String.length (slice n s) = String.length s - n.
Proof.
  induction n as [|n IH]; intros s; simpl; [lia|].
  destruct s as [|c s]; simpl; [reflexivity|apply IH].
Qed.

Lemma indexOf_bounds str search position i :
  indexOf str search position = Some i ->
  Nat.min position (String.length str) <= i /\ i + String.length search <= String.length str.
Proof.
  unfold indexOf. intros H. apply find_from_bounds in H. rewrite length_slice in H. lia.
Qed.

(** The loop of [extractBetweenMarkers] ends within the rounds it is given:
    with an end marker that is not empty, more rounds change nothing. *)
Lemma extract_from_fuel str startMarker endMarker :
  endMarker <> "" ->
  forall fuel fuel' searchStart results,
    String.length str < searchStart + fuel -> fuel <= fuel' ->
    extract_from fuel' str startMarker endMarker searchStart results
      = extract_from fuel str startMarker endMarker searchStart results.
Proof.
  intros Hne.
  assert (Hlen : 0 < String.length endMarker) by (destruct endMarker; simpl; [contradiction|lia]).
  induction fuel as [|fuel IH]; intros fuel' searchStart results Hfuel Hle.
  - destruct fuel' as [|fuel']; [reflexivity|]. simpl.
    destruct (indexOf str startMarker searchStart) as [startIdx|] eqn:Hs; [|reflexivity].
    destruct (indexOf str endMarker _) as [endIdx|] eqn:He; [|reflexivity].
    apply indexOf_bounds in Hs, He. lia.
  - destruct fuel' as [|fuel']; [lia|]. simpl.
    destruct (indexOf str startMarker searchStart) as [startIdx|] eqn:Hs; [|reflexivity].
    destruct (indexOf str endMarker _) as [endIdx|] eqn:He; [|reflexivity].
    apply IH; [|lia]. apply indexOf_bounds in Hs, He. lia.
Qed.

End LoopFacts.

Section StreamFacts.
Import JSON.


Lemma indexOf_append pre s search :
  indexOf (pre ++ s) search (String.length pre) = find_from search s (String.length pre).
Proof.
  unfold indexOf. rewrite length_append, Nat.min_l by lia. rewrite slice_append. reflexivity.
Qed.

(** A marker: an opening bracket and a text without one. *)
Lemma marker_shape m :
  m ∈ markers -> exists body, m = String "[" body /\ bracket_free body = true.
Proof.
  unfold markers. intros H.
  repeat (apply elem_of_cons in H as [->|H]; [eexists; split; reflexivity|]).
  apply not_elem_of_nil in H. contradiction.
Qed.

Lemma open_marker_in kind : open_marker kind ∈ markers.
Proof. destruct kind; unfold markers; simpl; repeat constructor. Qed.

Lemma close_marker_in kind : close_marker kind ∈ markers.
Proof. destruct kind; unfold markers; simpl; repeat constructor. Qed.

(** No marker begins another: a text that begins with a marker begins with
    no other one. *)
Lemma marker_at_marker m m' rest :
  m ∈ markers -> m' ∈ markers ->
  startsWith (m' ++ rest) m = String.eqb m m'.
Proof.
  unfold markers. intros H H'.
  repeat (apply elem_of_cons in H as [->|H]);
    try (apply not_elem_of_nil in H; contradiction);
    repeat (apply elem_of_cons in H' as [->|H']);
    try (apply not_elem_of_nil in H'; contradiction);
    reflexivity.
Qed.

(** A marker does not begin in a text without brackets. *)
Lemma find_from_plain m s rest pos :
  m ∈ markers -> bracket_free s = true ->
  find_from m (s ++ rest) pos = find_from m rest (pos + String.length s).
Proof.
  intros Hm. destruct (marker_shape m Hm) as (body & -> & _).
  revert pos. induction s as [|c s IH]; intros pos Hs; simpl.
  - rewrite Nat.add_0_r. reflexivity.
  - simpl in Hs. apply andb_prop in Hs as [Hc Hs]. apply negb_true_iff in Hc.
    rewrite Hc. simpl. rewrite IH by exact Hs. f_equal. lia.
Qed.

(** Before the end of the text or another bracket, a text without brackets
    begins in [q ++ rest] only if it begins in [q]. *)
Lemma startsWith_before_bracket body : forall q rest,
  bracket_free body = true -> bracket_first rest = true ->
  body <> "" ->
  startsWith (q ++ rest) body = startsWith q body.
Proof.
  induction body as [|b body IH]; intros q rest Hb Hr Hne; [contradiction|].
  simpl in Hb. apply andb_prop in Hb as [Hb1 Hb2]. apply negb_true_iff in Hb1.
  destruct q as [|c q]; simpl.
  - destruct rest as [|r rest]; [reflexivity|].
    simpl in Hr. apply Ascii.eqb_eq in Hr. subst r.
    rewrite Ascii.eqb_sym, Hb1. reflexivity.
  - destruct body as [|b' body].
    + destruct (q ++ rest), q; reflexivity.
    + rewrite (IH q rest Hb2 Hr) by discriminate. reflexivity.
Qed.

Lemma startsWith_marker_before_bracket m c q rest :
  m ∈ markers -> bracket_first rest = true ->
  startsWith (String c q ++ rest) m = startsWith (String c q) m.
Proof.
  intros Hm Hr. destruct (marker_shape m Hm) as (body & -> & Hb).
  simpl. f_equal. apply startsWith_before_bracket; try assumption.
  intros ->. unfold markers in Hm.
  repeat (apply elem_of_cons in Hm as [Hm|Hm]; [discriminate|]).
  apply not_elem_of_nil in Hm. exact Hm.
Qed.

(** A marker does not begin in a payload in which it does not occur, when
    the payload is followed by a bracket or by nothing. *)
Lemma find_from_payload m payload rest pos :
  m ∈ markers -> occurs m payload = false -> bracket_first rest = true ->
  find_from m (payload ++ rest) pos = find_from m rest (pos + String.length payload).
Proof.
  intros Hm. revert pos. induction payload as [|c payload IH]; intros pos Ho Hr; simpl.
  - rewrite Nat.add_0_r. reflexivity.
  - simpl in Ho. apply orb_false_elim in Ho as [Hs Ho].
    pose proof (startsWith_marker_before_bracket m c payload rest Hm Hr) as Heq.
    simpl in Heq. rewrite Heq, Hs. rewrite IH by assumption. f_equal. lia.
Qed.

Lemma marker_free_occurs m payload :
  marker_free payload = true -> m ∈ markers -> occurs m payload = false.
Proof.
  unfold marker_free. intros H Hm. rewrite forallb_forall in H.
  apply negb_true_iff, H, list_elem_of_In, Hm.
Qed.

Lemma find_from_marker m m' rest pos :
  m ∈ markers -> m' ∈ markers ->
  find_from m (m' ++ rest) pos =
    if String.eqb m m' then Some pos else find_from m rest (pos + String.length m').
Proof.
  intros Hm Hm'. pose proof (marker_at_marker m m' rest Hm Hm') as Hat.
  destruct (marker_shape m' Hm') as (body & -> & Hb).
  simpl. simpl in Hat. rewrite Hat.
  destruct (String.eqb m (String "[" body)); [reflexivity|].
  rewrite (find_from_plain m body rest (S pos) Hm Hb). f_equal. lia.
Qed.

Lemma render_bracket_first frames : bracket_first (render frames) = true.
Proof. destruct frames as [|[[] payload] rest]; reflexivity. Qed.

Lemma close_bracket_first kind rest : bracket_first (close_marker kind ++ rest) = true.
Proof. destruct kind; reflexivity. Qed.

Lemma open_is_not_close kind kind' : String.eqb (open_marker kind) (close_marker kind') = false.
Proof. destruct kind, kind'; reflexivity. Qed.

Lemma open_eqb kind kind' : String.eqb (open_marker kind) (open_marker kind') = kind_eqb kind kind'.
Proof. destruct kind, kind'; reflexivity. Qed.

(** Where the search for an opening marker goes through a frame of another
    kind: to the end of the frame. *)
Lemma find_from_other_frame kind kind' payload rest pos :
  kind_eqb kind kind' = false ->
  marker_free payload = true ->
  find_from (open_marker kind) (frame kind' payload ++ render rest) pos
    = find_from (open_marker kind) (render rest) (pos + String.length (frame kind' payload)).
Proof.
  intros Hk Hp. unfold frame. rewrite !append_assoc.
  rewrite find_from_marker by (apply open_marker_in). rewrite open_eqb, Hk.
  rewrite find_from_payload;
    [|apply open_marker_in|apply marker_free_occurs; [exact Hp|apply open_marker_in]
     |apply close_bracket_first].
  rewrite find_from_marker by (apply open_marker_in || apply close_marker_in).
  rewrite open_is_not_close. f_equal. rewrite !length_append. lia.
Qed.

Lemma extract_from_same_start fuel str startMarker endMarker s1 s2 results :
  indexOf str startMarker s1 = indexOf str startMarker s2 ->
  extract_from fuel str startMarker endMarker s1 results
    = extract_from fuel str startMarker endMarker s2 results.
Proof. intros H. destruct fuel; simpl; [reflexivity|]. rewrite H. reflexivity. Qed.

Lemma substring_middle (a p b : string) :
  substring (String.length a) (String.length p) (a ++ p ++ b) = p.
Proof.
  induction a as [|c a IH]; simpl; [|exact IH].
  induction p as [|c p IH]; simpl; [destruct b; reflexivity|]. f_equal. exact IH.
Qed.

Lemma length_filter_le {A} (f : A -> bool) l : length (List.filter f l) <= length l.
Proof. apply List.filter_length_le. Qed.

(** The loop of [extractBetweenMarkers] on the frames that follow [pre]. *)
Lemma extract_from_frames kind frames : forall pre results fuel,
  Forall (fun f => marker_free (snd f) = true) frames ->
  length (payloads kind frames) < fuel ->
  extract_from fuel (pre ++ render frames) (open_marker kind) (close_marker kind)
               (String.length pre) results
    = (results ++ payloads kind frames)%list.
Proof.
  induction frames as [|[kind' payload] rest IH]; intros pre results fuel Hfree Hfuel.
  - destruct fuel; [simpl in Hfuel; lia|]. simpl extract_from.
    rewrite indexOf_append. simpl render.
    replace (find_from (open_marker kind) "" (String.length pre)) with (@None nat)
      by (destruct kind; reflexivity).
    unfold payloads. simpl. rewrite app_nil_r. reflexivity.
  - inversion Hfree as [|? ? Hp Hrest]; subst. simpl in Hp.
    assert (Hnext : (pre ++ render ((kind', payload) :: rest))
                    = ((pre ++ frame kind' payload) ++ render rest))
      by (simpl; rewrite append_assoc; reflexivity).
    destruct (kind_eqb kind kind') eqn:Hk.
    + assert (kind' = kind) as -> by (destruct kind, kind'; simpl in Hk; congruence).
      assert (Hpay : payloads kind ((kind, payload) :: rest) = payload :: payloads kind rest).
      { unfold payloads. simpl. rewrite Hk.
        replace (kind_eqb kind kind) with true by (destruct kind; reflexivity). reflexivity. }
      rewrite Hpay in *. simpl in Hfuel.
      destruct fuel as [|fuel]; [lia|].
      set (str := pre ++ render ((kind, payload) :: rest)) in *.
      assert (Hstr : str = (pre ++ open_marker kind)
                             ++ payload ++ close_marker kind ++ render rest)
        by (unfold str; simpl; unfold frame; rewrite !append_assoc; reflexivity).
      assert (Hopen : indexOf str (open_marker kind) (String.length pre)
                      = Some (String.length pre)).
      { unfold str. rewrite indexOf_append. simpl render. unfold frame.
        rewrite !append_assoc.
        rewrite find_from_marker by apply open_marker_in.
        rewrite String.eqb_refl. reflexivity. }
      assert (Hclose : indexOf str (close_marker kind)
                         (String.length pre + String.length (open_marker kind))
                       = Some (String.length pre + String.length (open_marker kind)
                               + String.length payload)).
      { rewrite Hstr. rewrite <- length_append. rewrite indexOf_append.
        rewrite find_from_payload;
          [|apply close_marker_in|apply marker_free_occurs; [exact Hp|apply close_marker_in]
           |apply close_bracket_first].
        rewrite find_from_marker by apply close_marker_in.
        rewrite String.eqb_refl. reflexivity. }
      assert (Hsub : substring_to (String.length pre + String.length (open_marker kind))
                       (String.length pre + String.length (open_marker kind)
                        + String.length payload) str
                     = payload).
      { unfold substring_to. rewrite Nat.min_l, Nat.max_r by lia.
        replace (String.length pre + String.length (open_marker kind) + String.length payload
                 - (String.length pre + String.length (open_marker kind)))
          with (String.length payload) by lia.
        rewrite Hstr, <- length_append. apply substring_middle. }
      assert (Hlen : String.length pre + String.length (open_marker kind)
                     + String.length payload + String.length (close_marker kind)
                     = String.length (pre ++ frame kind payload))
        by (unfold frame; rewrite !length_append; lia).
      simpl extract_from. rewrite Hopen. cbv zeta. rewrite Hclose, Hsub, Hlen.
      rewrite Hnext. rewrite IH by (assumption || lia).
      rewrite <- app_assoc. reflexivity.
    + assert (Hpay : payloads kind ((kind', payload) :: rest) = payloads kind rest).
      { unfold payloads. simpl.
        replace (kind_eqb kind' kind) with false
          by (destruct kind, kind'; simpl in *; congruence). reflexivity. }
      rewrite Hpay in *.
      rewrite (extract_from_same_start fuel _ _ _ (String.length pre)
                 (String.length (pre ++ frame kind' payload))).
      * rewrite Hnext. apply IH; assumption.
      * rewrite indexOf_append. rewrite Hnext, indexOf_append. simpl render.
        rewrite find_from_other_frame by assumption.
        rewrite length_append. reflexivity.
Qed.

Lemma length_render frames : length frames <= String.length (render frames).
Proof.
  induction frames as [|[kind payload] rest IH]; simpl; [lia|].
  unfold frame. rewrite !length_append. destruct kind; simpl; lia.
Qed.

(** [X25] In a buffer that holds whole frames, each of them a payload
    between the markers of its kind, [extractBetweenMarkers] for the markers
    of a kind returns the payloads of the frames of that kind, in their
    order, when none of the six markers occurs in a payload. *)
Theorem extractBetweenMarkers_frames kind frames :
  Forall (fun f => marker_free (snd f) = true) frames ->
  extractBetweenMarkers (render frames) (open_marker kind) (close_marker kind)
    = payloads kind frames.
Proof.
  intros Hfree. unfold extractBetweenMarkers.
  apply (extract_from_frames kind frames "" []); [exact Hfree|].
  pose proof (length_render frames). unfold payloads. rewrite length_fmap.
  pose proof (length_filter_le (fun f => kind_eqb f.1 kind) frames). lia.
Qed.

End StreamFacts.

Section AnswerFacts.
Import JSON.










Lemma includes_empty search : search <> "" -> includes "" search = false.
Proof. intros H. destruct search; [contradiction|reflexivity]. Qed.


Lemma find_from_absent search s pos :
  occurs search s = false -> find_from search s pos = None.
Proof.
  revert pos. induction s as [|c s IH]; intros pos; simpl.
  - rewrite orb_false_r. intros ->. reflexivity.
  - intros H. apply orb_false_elim in H as [Hs Ho]. rewrite Hs. apply IH, Ho.
Qed.

Lemma extractBetweenMarkers_absent str startMarker endMarker :
  occurs startMarker str = false ->
  extractBetweenMarkers str startMarker endMarker = [].
Proof.
  intros H. unfold extractBetweenMarkers. simpl. unfold indexOf. simpl.
  rewrite find_from_absent by exact H. reflexivity.
Qed.

(** [X27] A buffer in which none of the three opening markers occurs is an
    answer without tool calls: [parseStreamContent] returns the whole buffer
    as the text, no tool call, and logs nothing. *)
Theorem plain_answer_is_text buffer :
  occurs "[TOOL_CALL]" buffer = false ->
  occurs "[TOOL_RESULT]" buffer = false ->
  occurs "[TEXT]" buffer = false ->
  parseStreamContent buffer
    = Some {| stream_toolCalls := []; stream_text := buffer; stream_logged := 0 |}.
Proof.
  intros Hcall Hresult Htext. unfold parseStreamContent.
  rewrite !extractBetweenMarkers_absent by assumption. simpl.
  unfold includes, indexOf. simpl.
  rewrite !find_from_absent by assumption. reflexivity.
Qed.

End AnswerFacts.

(** ** The definitions and the theorems at concrete inputs *)

Section Instances.

Import Sample.

Example stringify_array_with_undefined :
  JSON.stringify (JsArray [JsNumber (Number_of_Z 1); JsUndefined; JsBool true;
                           JsNumber (Number_of_Z (-42)); JsNumber NaN;
                           JsNumber (Finite false "15" 1); JsNumber (Finite true "1" 22)])
    = Some "[1,null,true,-42,null,1.5,-1e+21]".
Proof. reflexivity. Qed.

Example stringify_drops_undefined_property :
  JSON.stringify (JsObject [("a", JsUndefined); ("b", JsArray [])])
    = Some (String "{" (String JSON.dq (String "b" (String JSON.dq ":[]}")))).
Proof. reflexivity. Qed.

Example quote_escapes :
  JSON.quote (String JSON.dq (String "010" "\"))
    = String JSON.dq (String "\" (String JSON.dq (String "\" (String "n" (String "\"
        (String "\" (String JSON.dq ""))))))).
Proof. reflexivity. Qed.

Example parse_skips_white_space :
  JSON.parse " [1 , 2,[ ] ] "
    = JSON.Parsed (JsArray [JsNumber (Number_of_Z 1); JsNumber (Number_of_Z 2); JsArray []]).
Proof. reflexivity. Qed.

Example parse_rejects_trailing_comma : JSON.parse "[1,2,]" = JSON.SyntaxError.
Proof. reflexivity. Qed.

Example parse_rejects_leading_zero : JSON.parse "01" = JSON.SyntaxError.
Proof. reflexivity. Qed.

Example parse_rejects_open_brackets : JSON.parse "[[[[[[" = JSON.SyntaxError.
Proof. reflexivity. Qed.

Example parse_reads_fractions :
  JSON.parse "[1.5, -0.25e-6, 1E3, -0]"
    = JSON.Parsed (JsArray [JsNumber (Finite false "15" 1); JsNumber (Finite true "25" (-6));
                            JsNumber (Finite false "1" 4); JsNumber Zero]).
Proof. vm_compute. reflexivity. Qed.

Example parse_rounds_to_the_nearest_double :
  JSON.parse "[9007199254740993, 0.30000000000000001, 1e999]"
    = JSON.Parsed (JsArray [JsNumber (Finite false "9007199254740992" 16);
                            JsNumber (Finite false "3" 0); JsNumber (Infinity false)]).
Proof. vm_compute. reflexivity. Qed.

Example parse_orders_the_keys :
  JSON.parse (String "{" (String JSON.dq "b" ++ String JSON.dq ":1,"
                ++ String JSON.dq "1" ++ String JSON.dq ":2,"
                ++ String JSON.dq "0" ++ String JSON.dq ":3,"
                ++ String JSON.dq "b" ++ String JSON.dq ":4}"))
    = JSON.Parsed (JsObject [("0", JsNumber (Number_of_Z 3)); ("1", JsNumber (Number_of_Z 2));
                             ("b", JsNumber (Number_of_Z 4))]).
Proof. vm_compute. reflexivity. Qed.

Example connect_trace :
  trace connected_world
    = [EvListResources client_a; EvListPrompts client_a; EvListTools client_a;
       EvConnect client_a
         (StdioClientTransport
            {| command := Some "npx"; args := Some ["-y"; "server"]; env := None; cwd := None |});
       EvNewTransport
         (StdioClientTransport
            {| command := Some "npx"; args := Some ["-y"; "server"]; env := None; cwd := None |});
       EvNewClient client_a].
Proof. vm_compute. reflexivity. Qed.

Example unknown_kind_is_named :
  fst (connect healthy (websocket_server "w") initial_world)
    = Normal {| serverId := "w"; status := error;
                error_message := Some "Unsupported transport type: websocket";
                lastConnected := None |}.
Proof. vm_compute. reflexivity. Qed.

Example encode_sample :
  encodeExtendedMessage "ok" (Some [JsNumber (Number_of_Z 7)])
    = "[[EXTENDED_MSG]]{" ++ String JSON.dq "text" ++ String JSON.dq ":"
        ++ String JSON.dq "ok" ++ String JSON.dq ","
        ++ String JSON.dq "toolCalls" ++ String JSON.dq ":[7]}".
Proof. reflexivity. Qed.

Example decode_garbage_falls_back :
  decodeExtendedMessage "[[EXTENDED_MSG]]{oops"
    = Some {| returned := ExtendedMessageData "[[EXTENDED_MSG]]{oops" None;
              logged_error := true |}.
Proof. reflexivity. Qed.

Lemma connect_never_throws_witness :
  is_connected (clients initial_world !! "a") = false /\
  establish refusing (stdio_server "a") initial_world
    = (Throw (ErrorInstance "Connection closed"),
       snd (establish refusing (stdio_server "a") initial_world)) /\
  exists st w',
    connect refusing (stdio_server "a") initial_world = (Normal st, w') /\
    serverId st = "a" /\
    status st = error /\
    error_message st = Some "Connection closed" /\
    clients w' !! "a" =
      Some {| mc_client := None; mc_config := stdio_server "a";
              mc_status := st; mc_capabilities := None |}.
Proof.
  assert (H1 : is_connected (clients initial_world !! "a") = false) by reflexivity.
  assert (H2 : establish refusing (stdio_server "a") initial_world
               = (Throw (ErrorInstance "Connection closed"),
                  snd (establish refusing (stdio_server "a") initial_world)))
    by (vm_compute; reflexivity).
  split; [exact H1|]. split; [exact H2|].
  destruct (connect_never_throws refusing (stdio_server "a") initial_world) as [_ H].
  destruct (H _ _ H1 H2) as (st & w' & Hc & Hid & Hst & Hmsg & _ & Hrec).
  exists st, w'. auto.
Defined.

Lemma connect_idempotent_when_connected_witness :
  clients connected_world !! "a"
    = Some (connected_record (stdio_server "a") client_a
              {| tools := [toMCPTool weather_tool];
                 prompts := [toMCPPrompt greet_prompt];
                 resources := [toMCPResource readme_resource] |}
              1700000000006) /\
  connect healthy (http_server "a") connected_world
    = (Normal (connected_status (stdio_server "a") 1700000000006), connected_world).
Proof.
  assert (H : clients connected_world !! "a"
              = Some (connected_record (stdio_server "a") client_a
                        {| tools := [toMCPTool weather_tool];
                           prompts := [toMCPPrompt greet_prompt];
                           resources := [toMCPResource readme_resource] |}
                        1700000000006))
    by (vm_compute; reflexivity).
  split; [exact H|].
  exact (proj1 (connect_idempotent_when_connected healthy (http_server "a")
                  connected_world _ H eq_refl)).
Defined.

Lemma one_failed_query_keeps_connected_witness :
  exists st w',
    connect no_prompts (stdio_server "a") initial_world = (Normal st, w') /\
    status st = connected /\
    error_message st = None /\
    getCapabilities w' "a"
      = Some {| tools := [{| tool_name := "get_weather";
                             tool_description := Some "Weather for a city";
                             inputSchema := JsObject [("type", JsString "object")] |}];
                prompts := [];
                resources := [{| resource_uri := "file:///README.md";
                                 resource_name := "README";
                                 resource_description := None;
                                 mimeType := Some "text/markdown" |}] |}.
Proof.
  apply (one_failed_query_keeps_connected no_prompts (stdio_server "a") initial_world
           client_a (snd (establish no_prompts (stdio_server "a") initial_world))).
  - reflexivity.
  - vm_compute. reflexivity.
  - apply (prompts_failed [weather_tool] (ErrorInstance "Method not found") [readme_resource]);
      repeat constructor.
Defined.

Lemma bad_configuration_fails_without_handshake_witness :
  configuration_failure (websocket_server "b")
    = Some "Unsupported transport type: websocket" /\
  exists st w',
    connect healthy (websocket_server "b") connected_world = (Normal st, w') /\
    no_new_handshake (trace connected_world) (trace w') /\
    status st = error /\
    error_message st = Some "Unsupported transport type: websocket".
Proof.
  assert (H : configuration_failure (websocket_server "b")
              = Some "Unsupported transport type: websocket") by reflexivity.
  split; [exact H|].
  destruct (bad_configuration_fails_without_handshake healthy _ _ connected_world H)
    as [(st & w' & Hc & Hn & Hs & _) _].
  destruct (Hs ltac:(vm_compute; reflexivity)) as (Hst & Hmsg & _).
  exists st, w'. auto.
Defined.

Lemma disconnect_settles_witness :
  exists w',
    disconnect no_prompts "a" connected_world = (Normal (disconnected_status "a"), w') /\
    getCapabilities w' "a" = None /\
    status (getStatus w' "a") = disconnected /\
    disconnect no_prompts "a" w' = (Normal (disconnected_status "a"), w').
Proof.
  destruct (disconnect_settles no_prompts "a" connected_world) as [_ H].
  destruct (H _ ltac:(vm_compute; reflexivity)) as (w' & Hd & Hcl & _ & _ & Hi).
  exists w'. split; [exact Hd|]. split; [|split; [|exact Hi]].
  - unfold getCapabilities. rewrite Hcl, lookup_insert_eq. reflexivity.
  - unfold getStatus. rewrite Hcl, lookup_insert_eq. reflexivity.
Defined.


Lemma disconnectAll_disconnects_everything_witness :
  exists w',
    disconnectAll healthy connected_world = (Normal tt, w') /\
    disconnected_status "a" ∈ getAllStatuses w' /\
    getStatus w' "a" = disconnected_status "a" /\
    getCapabilities w' "a" = None /\
    EvClose client_a ∈ trace w'.
Proof.
  destruct (disconnectAll_disconnects_everything healthy connected_world)
    as (w' & Hd & _ & _ & Hclose & _ & Hs).
  pose (mc := connected_record (stdio_server "a") client_a
                {| tools := [toMCPTool weather_tool];
                   prompts := [toMCPPrompt greet_prompt];
                   resources := [toMCPResource readme_resource] |}
                1700000000006).
  assert (Hget : clients connected_world !! "a" = Some mc) by (vm_compute; reflexivity).
  destruct (Hs "a" mc Hget eq_refl) as (H1 & H2 & H3).
  exists w'. repeat split; try assumption.
  apply (Hclose "a" mc client_a Hget). reflexivity.
Defined.

Lemma registry_invariant_witness :
  ~ connect_requested [CallConnect (stdio_server "a"); CallDisconnect "b"] "b" /\
  clients (run_calls healthy [CallConnect (stdio_server "a"); CallDisconnect "b"]
             initial_world) !! "b" = None /\
  connected_has_handle
    (run_calls healthy [CallConnect (stdio_server "a"); CallDisconnect "b"] initial_world).
Proof.
  assert (H : ~ connect_requested [CallConnect (stdio_server "a"); CallDisconnect "b"] "b").
  { intros (config & [Hin|[Hin|[]]] & Hid); [|discriminate].
    injection Hin as <-. discriminate. }
  split; [exact H|].
  destruct (registry_invariant healthy [CallConnect (stdio_server "a"); CallDisconnect "b"])
    as (_ & Hinv & Habs & _).
  split; [exact (proj1 (Habs "b" H))|exact Hinv].
Defined.

Lemma import_after_export_merges_witness :
  default true None = true /\
  let data := fst (mcpStorage.exportServers platform source_browser) in
  let result := fst (mcpStorage.importServers platform data None target_browser) in
  let stored :=
    fst (mcpStorage.getServers
           (snd (mcpStorage.importServers platform data None target_browser))) in
  length result = 2 + 1 /\
  result !! 2 =
    Some {| cfg_id := "id-1"; cfg_name := "remote";
            transportType := "streamable-http";
            stdioConfig := None;
            httpConfig := Some {| url := Some "https://example.com/mcp"; headers := None |};
            enabled := true;
            createdAt := 1700000000000; updatedAt := 1700000000000 |} /\
  stored = result.
Proof.
  split; [reflexivity|].
  pose proof (import_after_export_merges platform platform source_browser target_browser
                None eq_refl) as H.
  cbv zeta in *. destruct H as (Hlen & _ & Hnew & Hst & _).
  split; [exact Hlen|]. split; [exact (Hnew 1 (http_server "b") eq_refl)|].
  exact (Hst eq_refl eq_refl).
Defined.


(** *** Where the specification and the code part *)

(** [C2], as stated, fails: a [connect] that fails leaves a record for an id
    that was never ["connected"] and is not ["connecting"]. *)
Lemma failed_connect_leaves_a_record :
  let calls := [CallConnect (stdio_server "a")] in
  let w := run_calls refusing calls initial_world in
  ~ ever_connected refusing calls "a" /\
  status (getStatus w "a") <> connecting /\
  clients w !! "a" <> None /\
  status (getStatus w "a") = error.
Proof.
  simpl. split; [|split; [|split]].
  - intros [[|[|n]] H]; vm_compute in H; discriminate.
  - vm_compute. discriminate.
  - vm_compute. discriminate.
  - vm_compute. reflexivity.
Qed.

(** [C6], as stated, fails: after [disconnect] the record still holds the
    client handle it held before. *)
Lemma disconnect_keeps_the_handle :
  let w := snd (disconnect healthy "a" connected_world) in
  fst (disconnect healthy "a" connected_world) = Normal (disconnected_status "a") /\
  (mc_client <$> clients w !! "a") = Some (Some client_a) /\
  (mc_client <$> clients w !! "a") <> Some None.
Proof.
  simpl. split; [|split].
  - vm_compute. reflexivity.
  - vm_compute. reflexivity.
  - vm_compute. discriminate.
Qed.

(** [C7], as stated, fails twice.  On an id that is already ["connected"],
    [connect] with a configuration the selector refuses returns
    ["connected"].  And a [stdio] configuration whose block is there without
    a command is not refused at all: a transport is made of it and the
    handshake is started (and here rejected by the server). *)
Lemma bad_configuration_not_refused :
  (configuration_failure (stdio_without_command "a")
     = Some "STDIO config is required for STDIO transport" /\
   fst (connect healthy (stdio_without_command "a") connected_world)
     = Normal (connected_status (stdio_server "a") 1700000000006) /\
   status (connected_status (stdio_server "a") 1700000000006) <> error) /\
  (let transport :=
     StdioClientTransport
       {| command := None; args := Some ["-y"]; env := None; cwd := None |} in
   let c := {| client_name := "mcp-client-b"; client_version := "1.0.0"; client_uid := 0 |} in
   (command <$> stdioConfig (stdio_block_without_command "b")) = Some None /\
   trace (snd (connect refusing (stdio_block_without_command "b") initial_world))
     = [EvConnect c transport; EvNewTransport transport; EvNewClient c] /\
   ~ no_new_handshake (trace initial_world)
       (trace (snd (connect refusing (stdio_block_without_command "b") initial_world)))).
Proof.
  split; [split; [|split]|].
  - reflexivity.
  - vm_compute. reflexivity.
  - discriminate.
  - intros transport c. split; [reflexivity|]. split; [vm_compute; reflexivity|].
    intros H. apply (H c transport). left. reflexivity.
Qed.

(** [C9], as stated, fails: over a storage that is full the import with
    [merge: true] of one exported configuration returns the two old entries
    and the new one, and the stored set is the two old entries still. *)
Lemma merged_import_is_not_stored :
  let data := fst (mcpStorage.exportServers platform target_browser) in
  let result := fst (mcpStorage.importServers platform data (Some true) full_browser) in
  let stored :=
    fst (mcpStorage.getServers
           (snd (mcpStorage.importServers platform data (Some true) full_browser))) in
  length (exp_servers data) = 1 /\
  length (fst (mcpStorage.getServers full_browser)) = 2 /\
  length result = 1 + 2 /\
  stored = [stdio_server "a"; http_server "b"] /\
  length stored <> 1 + 2.
Proof.
  simpl. split; [vm_compute; reflexivity|]. split; [vm_compute; reflexivity|].
  split; [vm_compute; reflexivity|]. split; [vm_compute; reflexivity|].
  vm_compute. discriminate.
Qed.


End Instances.

(** ** The further theorems at concrete inputs *)

Section FurtherInstances.

Import Sample.

Lemma addServer_stores_witness :
  window_defined source_browser = true /\
  quota_exceeded source_browser = false /\
  let added := fst (mcpStorage.addServer platform new_server source_browser) in
  let after := snd (mcpStorage.addServer platform new_server source_browser) in
  cfg_id added = "id-0" /\
  fst (mcpStorage.getServers after) = [stdio_server "a"; http_server "b"; added] /\
  fst (mcpStorage.getServer "id-0" after) = Some added.
Proof.
  split; [reflexivity|]. split; [reflexivity|].
  pose proof (addServer_stores platform new_server source_browser eq_refl eq_refl) as H.
  cbv zeta in *. destruct H as (Hnew & Hst & _ & Hfresh).
  split; [rewrite Hnew; reflexivity|]. split; [exact Hst|].
  assert (Hid : cfg_id (fst (mcpStorage.addServer platform new_server source_browser)) = "id-0")
    by (rewrite Hnew; reflexivity).
  rewrite <- Hid. apply Hfresh. rewrite Hid.
  intros s Hs Heq.
  change (s ∈ [stdio_server "a"; http_server "b"]) in Hs.
  apply elem_of_cons in Hs as [->|Hs]; [discriminate|].
  apply elem_of_cons in Hs as [->|Hs]; [discriminate|].
  apply not_elem_of_nil in Hs. exact Hs.
Defined.

Lemma addServer_write_lost_witness :
  (window_defined full_browser = false \/ quota_exceeded full_browser = true) /\
  cfg_id (fst (mcpStorage.addServer platform new_server full_browser)) = "id-0" /\
  fst (mcpStorage.getServers (snd (mcpStorage.addServer platform new_server full_browser)))
    = [stdio_server "a"; http_server "b"].
Proof.
  split; [right; reflexivity|].
  destruct (addServer_write_lost platform new_server full_browser (or_intror eq_refl))
    as (Hnew & _ & Hst).
  split; [rewrite Hnew; reflexivity|exact Hst].
Defined.

Lemma deleteServer_removes_witness :
  window_defined source_browser = true /\
  quota_exceeded source_browser = false /\
  fst (mcpStorage.deleteServer "a" source_browser) = true /\
  fst (mcpStorage.getServers (snd (mcpStorage.deleteServer "a" source_browser)))
    = [http_server "b"] /\
  fst (mcpStorage.getServer "a" (snd (mcpStorage.deleteServer "a" source_browser))) = None.
Proof.
  split; [reflexivity|]. split; [reflexivity|].
  pose proof (deleteServer_removes "a" source_browser eq_refl eq_refl) as H.
  cbv zeta in H. destruct H as (Hret & Hst & Hgone & _).
  split; [rewrite Hret; reflexivity|]. split; [exact Hst|exact Hgone].
Defined.

Lemma updateServer_replaces_witness :
  window_defined source_browser = true /\
  quota_exceeded source_browser = false /\
  fst (mcpStorage.getServer "b" source_browser) = Some (http_server "b") /\
  let updated := mcpStorage.updated_server (http_server "b") rename 1700000000000 in
  fst (mcpStorage.updateServer platform "b" rename source_browser) = Some updated /\
  cfg_name updated = "renamed" /\
  createdAt updated = 3%Z /\
  fst (mcpStorage.getServer "b"
         (snd (mcpStorage.updateServer platform "b" rename source_browser))) = Some updated.
Proof.
  split; [reflexivity|]. split; [reflexivity|]. split; [reflexivity|].
  pose proof (updateServer_replaces platform "b" rename source_browser eq_refl eq_refl) as H.
  cbv zeta in H. destruct H as (_ & H).
  destruct (H (http_server "b") eq_refl) as (Hret & _ & Hcreated & _ & _ & _ & Hget & _).
  split; [exact Hret|]. split; [reflexivity|]. split; [exact Hcreated|exact Hget].
Defined.

Lemma import_over_cleared_store_witness :
  fst (mcpStorage.getServers
         (snd (mcpStorage.importServers platform backup None
                 (mcpStorage.clearAll source_browser))))
    = fst (mcpStorage.importServers platform backup (Some false) source_browser) /\
  fst (mcpStorage.importServers platform backup None (mcpStorage.clearAll full_browser))
    = fst (mcpStorage.importServers platform backup (Some false) full_browser) /\
  fst (mcpStorage.getServers
         (snd (mcpStorage.importServers platform backup None
                 (mcpStorage.clearAll full_browser)))) = [].
Proof.
  destruct (import_over_cleared_store platform backup None source_browser)
    as (_ & _ & Hstored & _).
  destruct (import_over_cleared_store platform backup None full_browser)
    as (_ & Hreturned & _ & Hlost).
  split; [exact (Hstored eq_refl eq_refl)|]. split; [exact Hreturned|].
  exact (Hlost (or_intror eq_refl)).
Defined.

Lemma export_after_replacing_import_witness :
  exp_servers
    (fst (mcpStorage.exportServers platform
            (snd (mcpStorage.importServers platform backup (Some false) source_browser))))
    = [new_server] /\
  exp_servers
    (fst (mcpStorage.exportServers platform
            (snd (mcpStorage.importServers platform backup (Some false) full_browser))))
    = exp_servers (fst (mcpStorage.exportServers platform full_browser)).
Proof.
  split.
  - exact (proj1 (export_after_replacing_import platform platform backup source_browser)
             eq_refl eq_refl).
  - exact (proj2 (export_after_replacing_import platform platform backup full_browser)
             (or_intror eq_refl)).
Defined.

Lemma registry_records_wellformed_witness :
  exists mc,
    clients (run_calls healthy history initial_world) !! "b" = Some mc /\
    record_wellformed "b" mc = true /\
    status (mc_status mc) = error /\
    (status (mc_status mc) = error <-> is_Some (error_message (mc_status mc))).
Proof.
  destruct (clients (run_calls healthy history initial_world) !! "b") as [mc|] eqn:Hget;
    [|vm_compute in Hget; discriminate].
  exists mc. split; [reflexivity|].
  destruct (registry_records_wellformed healthy history "b" mc Hget)
    as (Hwf & _ & _ & _ & _ & Herr).
  split; [exact Hwf|]. split; [|exact Herr].
  vm_compute in Hget. injection Hget as <-. reflexivity.
Defined.

Lemma connect_POST_reports_witness :
  cfg_id (stdio_without_command "c") <> "" /\
  exists st w',
    connect_POST healthy (fulfilled (Some (stdio_without_command "c")))
                 (run_calls healthy history initial_world)
      = (Normal {| http_status := 200;
                   json_body := {| api_success := bool_decide (status st = connected);
                                   api_data := Some st;
                                   api_error := error_message st |} |}, w') /\
    (bool_decide (status st = connected) = true <-> error_message st = None).
Proof.
  split; [discriminate|].
  destruct (connect_POST_reports healthy history (stdio_without_command "c"))
    as (st & w' & _ & Hpost & Hflag); [discriminate|].
  exists st, w'. split; [exact Hpost|exact Hflag].
Defined.

Lemma prompt_and_resource_routes_witness :
  "b" <> "" /\ "greet" <> "" /\
  status (getStatus (run_calls healthy history initial_world) "b") <> connected /\
  resources_read_POST healthy
      (fulfilled {| resource_serverId := Some "b"; resource_request_uri := Some "greet" |})
      (run_calls healthy history initial_world)
    = (Normal (failure_response 500 "Server b is not connected"),
       log_event (EvConsoleError "MCP read resource error:" (not_connected_error "b"))
                 (run_calls healthy history initial_world)).
Proof.
  split; [discriminate|]. split; [discriminate|].
  assert (Hst : status (getStatus (run_calls healthy history initial_world) "b") <> connected)
    by (vm_compute; discriminate).
  split; [exact Hst|].
  destruct (prompt_and_resource_routes healthy history "b" "greet") as [Hno _];
    [discriminate|discriminate|].
  exact (proj2 (Hno Hst)).
Defined.

Lemma disconnect_POST_then_routes_witness :
  "a" <> "" /\
  exists w',
    disconnect_POST healthy (fulfilled {| disconnect_serverId := Some "a" |}) connected_world
      = (Normal (success_response (disconnected_status "a")), w') /\
    capabilities_GET (Some "a") w'
      = (Normal (failure_response 404 "Server not connected or capabilities not available"), w').
Proof.
  split; [discriminate|].
  destruct (disconnect_POST_then_routes healthy "a" connected_world) as (w' & Hd & Hc & _);
    [discriminate|].
  exists w'. split; [exact Hd|exact Hc].
Defined.


Lemma loader_agrees_with_decode_witness :
  let row := saved_row "assistant" "It is sunny." (Some [weather_call]) in
  exists d r,
    decodeExtendedMessage (row_content row) = Some d /\
    is_Some (get_property (returned d) "text") /\
    extended_row row = Some r /\
    get_property (returned d) "text" = Some (msg_content (loaded r)) /\
    row_logged_error r = logged_error d.
Proof.
  intros row.
  destruct (decodeExtendedMessage (row_content row)) as [d|] eqn:Hd;
    [|vm_compute in Hd; discriminate].
  assert (Ht : is_Some (get_property (returned d) "text")).
  { vm_compute in Hd. injection Hd as <-. eexists. reflexivity. }
  destruct (loader_agrees_with_decode row d Hd Ht) as (r & Hr & _ & Htext & _ & Hlog).
  exists d, r. repeat split; assumption.
Defined.

Lemma toolMap_resolves_witness :
  (Z.of_nat (length offered_tools) <= 4294967295)%Z /\
  exists declarations toolMap,
    convertToGeminiFunctions offered_tools = Some (declarations, toolMap) /\
    declaration_name <$> declarations = ["mcp_0_get_weather"; "mcp_1_get_weather"] /\
    toolMap !! "mcp_1_get_weather"
      = Some {| ref_serverId := "b"; ref_toolName := "get weather" |}.
Proof.
  assert (Hb : (Z.of_nat (length offered_tools) <= 4294967295)%Z) by (vm_compute; discriminate).
  split; [exact Hb|].
  destruct (convertToGeminiFunctions offered_tools) as [[declarations toolMap]|] eqn:Hc;
    [|vm_compute in Hc; discriminate].
  exists declarations, toolMap. split; [reflexivity|].
  destruct (toolMap_resolves offered_tools declarations toolMap Hb Hc) as (_ & Hres & _).
  destruct (Hres 1 _ eq_refl) as (d & _ & Hname & Hmap).
  rewrite Hname in Hmap. split; [|exact Hmap].
  vm_compute in Hc. injection Hc as <- _. reflexivity.
Defined.

Lemma schema_properties_declared_witness :
  get_property weather_schema "properties" = Some (JsObject weather_properties) /\
  JSON.keys_ordered (List.map fst weather_properties) = true /\
  forallb (fun kv => readable kv.2) weather_properties = true /\
  convert_parameters weather_schema =
    Some {| parameters_type := Type_OBJECT;
            parameters_properties :=
              [("city", {| property_type := Type_STRING;
                           property_description := JsString "City name" |});
               ("days", {| property_type := Type_NUMBER;
                           property_description := JsString "" |})];
            parameters_required := Some (JsArray [JsString "city"]) |}.
Proof.
  split; [reflexivity|]. split; [reflexivity|]. split; [reflexivity|].
  exact (schema_properties_declared weather_members weather_properties
           eq_refl eq_refl eq_refl).
Defined.

Lemma no_request_on_a_closed_client_witness :
  let c := {| client_name := "mcp-client-a"; client_version := "1.0.0"; client_uid := 0 |} in
  let p := {| call_name := "get_weather"; call_arguments := JsObject [] |} in
  let w := run_calls healthy history initial_world in
  (exists older,
     trace w = ([] ++ EvCallTool c p :: older)%list /\
     used_by (EvCallTool c p) = Some c /\
     handshaken healthy c older /\
     EvClose c ∉ older) /\
  (exists mc q w1,
     clients w !! "a" = Some mc /\ close_attempted mc = Some c /\
     disconnect_begin healthy "a" w = (Normal (Some q), w1) /\
     trace (snd (disconnect_begin healthy "a" w1)) = EvClose c :: EvClose c :: trace w /\
     exists params,
       trace (snd (callTool healthy "a" "get_weather" None w1))
         = EvCallTool c params :: EvClose c :: trace w).
Proof.
  intros c p w.
  destruct (no_request_on_a_closed_client healthy history) as [Hseq Hover].
  fold w in Hseq, Hover. split.
  - destruct (trace w) as [|ev older] eqn:Htr; [vm_compute in Htr; discriminate|].
    assert (Hev : ev = EvCallTool c p)
      by (vm_compute in Htr; injection Htr as <- _; reflexivity).
    subst ev. exists older. split; [reflexivity|]. split; [reflexivity|].
    exact (Hseq [] (EvCallTool c p) older c eq_refl eq_refl).
  - destruct (clients w !! "a") as [mc|] eqn:Hget; [|vm_compute in Hget; discriminate].
    assert (Hc : close_attempted mc = Some c)
      by (vm_compute in Hget; injection Hget as <-; reflexivity).
    destruct (Hover "a" mc c Hget Hc) as (q & w1 & Hb & _ & Htwice & Hcall).
    exists mc, q, w1. split; [reflexivity|]. split; [exact Hc|]. split; [exact Hb|].
    split; [exact Htwice|]. exact (Hcall "get_weather" None).
Defined.

Lemma extractBetweenMarkers_frames_witness :
  let frames := [(TOOL_CALL, "{}"); (TEXT, "one [1]"); (TOOL_CALL, "[2]"); (TEXT, "two")] in
  Forall (fun f => marker_free (snd f) = true) frames /\
  extractBetweenMarkers (render frames) "[TEXT]" "[/TEXT]" = ["one [1]"; "two"].
Proof.
  intros frames.
  assert (H : Forall (fun f => marker_free (snd f) = true) frames) by (repeat constructor).
  split; [exact H|]. exact (extractBetweenMarkers_frames TEXT frames H).
Defined.


Lemma plain_answer_is_text_witness :
  occurs "[TOOL_CALL]" "Hello [there]" = false /\
  occurs "[TOOL_RESULT]" "Hello [there]" = false /\
  occurs "[TEXT]" "Hello [there]" = false /\
  parseStreamContent "Hello [there]"
    = Some {| stream_toolCalls := []; stream_text := "Hello [there]"; stream_logged := 0 |}.
Proof.
  split; [reflexivity|]. split; [reflexivity|]. split; [reflexivity|].
  exact (plain_answer_is_text "Hello [there]" eq_refl eq_refl eq_refl).
Defined.

Lemma connect_reports_handshake_witness :
  is_connected (clients initial_world !! cfg_id (stdio_server "a")) = false /\
  exists st w',
    connect no_prompts (stdio_server "a") initial_world = (Normal st, w') /\
    status st = connected /\
    (prompts <$> getCapabilities w' "a") = Some [].
Proof.
  split; [reflexivity|].
  destruct (connect_reports_handshake no_prompts (stdio_server "a") initial_world eq_refl)
    as (st & w' & Hconn & _ & H).
  exists st, w'. split; [exact Hconn|].
  destruct (establish no_prompts (stdio_server "a") initial_world) as [[c|e] w1] eqn:He;
    [|vm_compute in He; discriminate].
  destruct H as [Hst Hcaps]. split; [exact Hst|].
  change (cfg_id (stdio_server "a")) with "a" in Hcaps. rewrite Hcaps.
  vm_compute in He. injection He as <- <-. reflexivity.
Defined.

End FurtherInstances.
